(** * Quotidian Reels: the puzzle layout, the letter supply, the placement
      simulator and the timeline of [generate.py], embedded in Rocq.

    Python values are modelled as follows.
    - [str] is [list ascii] (one cell of the grid is one character);
    - [int] is [Z] where it can be negative (the centering pad, the day
      count), [nat] for lengths and indices produced by [enumerate];
    - [float] is the primitive binary64 [float] of Rocq, so that the
      arithmetic of the timeline is the one Python performs;
    - a raised exception is the [Raise] branch of [result];
    - the process-wide generator of the [random] module is a value of an
      abstract type [gen] threaded through the code that reads or writes it. *)

From Stdlib Require Import ZArith Ascii String List Bool Arith Lia Permutation.
From Stdlib Require Import Uint63 Floats.
From Stdlib Require DecimalString.
Import ListNotations.
Set Warnings "-inexact-float".

Local Open Scope nat_scope.

(** ** Python primitives *)

Module Py.

Inductive exn : Set :=
| IndexError
| ZeroDivisionError
| ValueError
| OverflowError.

Inductive result (A : Type) : Type :=
| OK (a : A)
| Raise (e : exn).

Arguments OK {A} a.
Arguments Raise {A} e.

Definition bind {A B : Type} (m : result A) (k : A -> result B) : result B :=
  match m with
  | OK a => k a
  | Raise e => Raise e
  end.

Definition str : Set := list ascii.

Definition lit (s : string) : str := list_ascii_of_string s.

(** [for x in xs: acc = body(acc, x)], stopping at the first exception. *)
Fixpoint for_each {A S : Type} (body : S -> A -> result S) (xs : list A) (acc : S)
  : result S :=
  match xs with
  | [] => OK acc
  | x :: xs' => bind (body acc x) (for_each body xs')
  end.

(** [enumerate(xs)], counting from [start]. *)
Fixpoint enumerate_from {A : Type} (start : nat) (xs : list A) : list (nat * A) :=
  match xs with
  | [] => []
  | x :: xs' => (start, x) :: enumerate_from (S start) xs'
  end.

Definition enumerate {A : Type} (xs : list A) : list (nat * A) := enumerate_from 0 xs.

(** [l[k]] as an assignment target: an index in [-len, len) is accepted,
    a negative one counts from the end, anything else is an [IndexError]. *)
Fixpoint set_nth {A : Type} (l : list A) (n : nat) (v : A) : list A :=
  match l, n with
  | [], _ => []
  | _ :: l', O => v :: l'
  | x :: l', S n' => x :: set_nth l' n' v
  end.

Definition setitem {A : Type} (l : list A) (k : Z) (v : A) : result (list A) :=
  let n := Z.of_nat (length l) in
  if ((0 <=? k) && (k <? n))%Z then OK (set_nth l (Z.to_nat k) v)
  else if ((- n <=? k) && (k <? 0))%Z then OK (set_nth l (Z.to_nat (k + n)) v)
  else Raise IndexError.

(** [l[i]] for a non-negative index. *)
Definition getitem {A : Type} (l : list A) (i : nat) : result A :=
  match nth_error l i with
  | Some a => OK a
  | None => Raise IndexError
  end.

(** [s.split(' ')]: one piece per separator plus one, empty pieces kept. *)
Fixpoint split_space (s : str) : list str :=
  match s with
  | [] => [[]]
  | c :: s' =>
      if Ascii.eqb c " " then [] :: split_space s'
      else match split_space s' with
           | w :: ws => (c :: w) :: ws
           | [] => [[c]]
           end
  end.

(** [s.replace(' ', '')]. *)
Definition remove_spaces (s : str) : str :=
  filter (fun c => negb (Ascii.eqb c " ")) s.

(** [str.isspace] on the code points below 256. *)
Definition isspace (c : ascii) : bool :=
  let n := nat_of_ascii c in
  ((9 <=? n) && (n <=? 13)) || ((28 <=? n) && (n <=? 32)) || (n =? 133) || (n =? 160).

Fixpoint lstrip (s : str) : str :=
  match s with
  | c :: s' => if isspace c then lstrip s' else s
  | [] => []
  end.

Definition rstrip (s : str) : str := rev (lstrip (rev s)).

Definition strip (s : str) : str := rstrip (lstrip s).

(** [float(n)] for an [int] that is a count (a length, a frame number, a
    frame rate): the nearest binary64 value.  The conversion goes through
    the 63-bit integers, which every length of a Python list fits in. *)
Definition float_of_nat (n : nat) : float :=
  PrimFloat.of_uint63 (Uint63.of_Z (Z.of_nat n)).

(** [int(x)] for a [float]: truncation towards zero; an infinity is an
    [OverflowError] and a NaN a [ValueError]. *)
Definition int_of_float (x : float) : result Z :=
  match Prim2SF x with
  | SpecFloat.S754_zero _ => OK 0%Z
  | SpecFloat.S754_finite s m e =>
      let v := if (0 <=? e)%Z then (Z.pos m * 2 ^ e)%Z else (Z.pos m / 2 ^ (- e))%Z in
      OK (if s then (- v)%Z else v)
  | SpecFloat.S754_infinity _ => Raise OverflowError
  | SpecFloat.S754_nan => Raise ValueError
  end.

(** [math.floor(x)]: the greatest integer not above [x]. *)
Definition floor_of_float (x : float) : result Z :=
  match Prim2SF x with
  | SpecFloat.S754_zero _ => OK 0%Z
  | SpecFloat.S754_finite s m e =>
      let n := if s then Z.neg m else Z.pos m in
      OK (if (0 <=? e)%Z then (n * 2 ^ e)%Z else (n / 2 ^ (- e))%Z)
  | SpecFloat.S754_infinity _ => Raise OverflowError
  | SpecFloat.S754_nan => Raise ValueError
  end.

(** [max(a, b)] and [min(a, b)] on floats: the first argument is kept
    unless the second is strictly greater (resp. smaller). *)
Definition fmax (a b : float) : float := if PrimFloat.ltb a b then b else a.
Definition fmin (a b : float) : float := if PrimFloat.ltb b a then b else a.

End Py.

Import Py.

Notation "x <- m ;; k" := (Py.bind m (fun x => k))
  (at level 61, m at next level, right associativity).

(** ** Quote *)

Record Quote : Set := mkQuote {
  id : Z;
  text : str;
  author : str;
  source : option str
}.

(** [Quote.PUNCTUATION_MARKS]: full stop, comma, exclamation and question
    marks, semicolon, colon, double quote (code 34) and apostrophe. *)
Definition PUNCTUATION_MARKS : list ascii :=
  ["."; ","; "!"; "?"; ";"; ":"; ascii_of_nat 34; "'"]%char.

Definition in_chars (c : ascii) (cs : list ascii) : bool :=
  existsb (Ascii.eqb c) cs.

(** [Quote.answer] *)
Definition answer (q : Quote) : str :=
  let t := strip (text q) in
  match rev t with
  | last :: init_rev =>
      if in_chars last ["."; "!"; "?"]%char then strip (rev init_rev) else t
  | [] => t
  end.

(** ** GameConfig *)

Definition GRID_COLS : nat := 12.
Definition FPS : nat := 30.

(** ** GameState._build_grid *)

Definition BLOCK : ascii := "#"%char.

Record wrap : Set := mkWrap {
  lines : list str;
  current_line : str;
  current_length : nat
}.

(** The body of the loop over [words]. *)
Definition wrap_word (st : wrap) (word : str) : wrap :=
  match word with
  | [] => st
  | _ :: _ =>
      let space_cost := match current_line st with [] => 0 | _ :: _ => 1 end in
      let word_cost := length word in
      if current_length st + space_cost + word_cost <=? GRID_COLS then
        match current_line st with
        | [] => mkWrap (lines st) (current_line st ++ word)
                       (current_length st + word_cost)
        | _ :: _ => mkWrap (lines st) ((current_line st ++ [BLOCK]) ++ word)
                           (current_length st + 1 + word_cost)
        end
      else mkWrap (lines st ++ [current_line st]) word word_cost
  end.

(** Step 1: the lines, with [#] for the space between two words. *)
Definition build_lines (puzzle_text : str) : list str :=
  let st := fold_left wrap_word (split_space puzzle_text) (mkWrap [] [] 0) in
  match current_line st with
  | [] => lines st
  | _ :: _ => lines st ++ [current_line st]
  end.

(** [for i, char in enumerate(line_chars): row[left_pad + i] = char] *)
Definition place_char (left_pad : Z) (row : str) (ic : nat * ascii) : result str :=
  setitem row (left_pad + Z.of_nat (fst ic)) (snd ic).

(** Step 2 for one line: the centred row. [//] is the floor division. *)
Definition center_line (line_chars : str) : result str :=
  let empty_spots := (Z.of_nat GRID_COLS - Z.of_nat (length line_chars))%Z in
  let left_pad := (empty_spots / 2)%Z in
  for_each (place_char left_pad) (enumerate line_chars) (repeat BLOCK GRID_COLS).

Definition append_row (rows : list str) (line_chars : str) : result (list str) :=
  row <- center_line line_chars ;;
  OK (rows ++ [row]).

Definition _build_grid (puzzle_text : str) : result (list str) :=
  for_each append_row (build_lines puzzle_text) [].

(** A cell that play has to fill: neither a block nor a punctuation mark. *)
Definition is_letter (char : ascii) : bool :=
  negb (Ascii.eqb char BLOCK) && negb (in_chars char PUNCTUATION_MARKS).

(** ** The [random] module

    [random.seed] and [random.shuffle] belong to the interpreter, not to the
    repository: the generator is an interface.  [randbelow n] is the draw
    [_randbelow(n)] of [shuffle], uniform in [range(n)]. *)

Class PyRandom : Type := {
  gen : Type;
  seed : Z -> gen;
  randbelow : nat -> gen -> nat * gen;
  randbelow_lt : forall n g, 0 < n -> fst (randbelow n g) < n
}.

(** ** GameState *)

Record GameState : Set := mkGameState {
  quote : Quote;
  rows : list str;
  supply : list str;
  letter_positions : list (nat * nat);
  placed_supply_letters : str;
  placed_count : nat;
  used_supply_indices : list (nat * nat)
}.

(** [self.supply[c].append(char)] *)
Definition supply_append (supply : list str) (c : nat) (char : ascii)
  : result (list str) :=
  col <- getitem supply c ;;
  OK (set_nth supply c (col ++ [char])).

Definition supply_cell (supply : list str) (cc : nat * ascii) : result (list str) :=
  if is_letter (snd cc) then supply_append supply (fst cc) (snd cc) else OK supply.

Definition supply_row (supply : list str) (rr : nat * str) : result (list str) :=
  for_each supply_cell (enumerate (snd rr)) supply.

(** The first loop of [_build_supply], from [GRID_COLS] empty columns. *)
Definition collect_supply (rows : list str) : result (list str) :=
  for_each supply_row (enumerate rows) (repeat [] GRID_COLS).

(** [_build_letter_positions]: the state of the scan is the list and
    [letter_idx]. *)
Definition position_cell (answer_without_spaces : str) (r : nat)
  (acc : list (nat * nat) * nat) (cc : nat * ascii) : list (nat * nat) * nat :=
  if is_letter (snd cc) then
    if snd acc <? length answer_without_spaces
    then (fst acc ++ [(r, fst cc)], S (snd acc))
    else acc
  else acc.

Definition position_row (answer_without_spaces : str)
  (acc : list (nat * nat) * nat) (rr : nat * str) : list (nat * nat) * nat :=
  fold_left (position_cell answer_without_spaces (fst rr)) (enumerate (snd rr)) acc.

Definition _build_letter_positions (rows : list str) (puzzle_text : str)
  : list (nat * nat) :=
  fst (fold_left (position_row (remove_spaces puzzle_text)) (enumerate rows) ([], 0)).

(** [any(used_col == col and used_idx == i for ... in used_supply_indices)] *)
Definition already_used (used : list (nat * nat)) (col i : nat) : bool :=
  existsb (fun u => (fst u =? col) && (snd u =? i)) used.

(** The search of [place_next_letter] in one supply column: the first index
    that is not used and holds the wanted letter. *)
Definition find_supply (used : list (nat * nat)) (col : nat) (column : str)
  (correct_letter : ascii) : option nat :=
  option_map fst
    (find (fun il => negb (already_used used col (fst il))
                     && Ascii.eqb (snd il) correct_letter)
          (enumerate column)).

Definition mark_used (st : GameState) (col : nat) (correct_letter : ascii)
  : list (nat * nat) :=
  match nth_error (supply st) col with
  | Some column =>
      match find_supply (used_supply_indices st) col column correct_letter with
      | Some i => used_supply_indices st ++ [(col, i)]
      | None => used_supply_indices st
      end
  | None => used_supply_indices st
  end.

Definition place_next_letter (st : GameState) : result (bool * GameState) :=
  if length (letter_positions st) <=? placed_count st then OK (false, st)
  else
    let pos_idx := placed_count st in
    rc <- getitem (letter_positions st) pos_idx ;;
    let answer_without_spaces := remove_spaces (answer (quote st)) in
    correct_letter <- getitem answer_without_spaces pos_idx ;;
    OK (true,
        mkGameState (quote st) (rows st) (supply st) (letter_positions st)
          (placed_supply_letters st ++ [correct_letter])
          (placed_count st + 1)
          (mark_used st (snd rc) correct_letter)).

(** [list.index]: the first position of a value. *)
Fixpoint index_of (p : nat * nat) (l : list (nat * nat)) : option nat :=
  match l with
  | [] => None
  | x :: l' =>
      if (fst x =? fst p) && (snd x =? snd p) then Some 0
      else option_map S (index_of p l')
  end.

Definition get_letter_at_position (st : GameState) (row col : nat) : option ascii :=
  match index_of (row, col) (letter_positions st) with
  | Some idx =>
      if (idx <? placed_count st) && (idx <? length (placed_supply_letters st))
      then nth_error (placed_supply_letters st) idx
      else None
  | None => None
  end.

Definition get_total_letters (st : GameState) : nat := length (letter_positions st).

(** [n] calls of [place_next_letter] in a row. *)
Fixpoint run (n : nat) (st : GameState) : result GameState :=
  match n with
  | O => OK st
  | S n' => st' <- run n' st ;; r <- place_next_letter st' ;; OK (snd r)
  end.

Section WithRandom.

Context {R : PyRandom}.

(** [x[i], x[j] = x[j], x[i]] *)
Definition swap {A : Type} (x : list A) (i j : nat) : result (list A) :=
  xj <- getitem x j ;;
  xi <- getitem x i ;;
  OK (set_nth (set_nth x i xj) j xi).

(** [random.shuffle(x)]:
    [for i in reversed(range(1, len(x))): j = randbelow(i + 1); swap]. *)
Fixpoint shuffle_from {A : Type} (i : nat) (x : list A) (g : gen)
  : result (list A * gen) :=
  match i with
  | O => OK (x, g)
  | S i' =>
      let jg := randbelow (i + 1) g in
      x' <- swap x i (fst jg) ;;
      shuffle_from i' x' (snd jg)
  end.

Definition shuffle {A : Type} (x : list A) (g : gen) : result (list A * gen) :=
  shuffle_from (length x - 1) x g.

(** [for col in self.supply: random.shuffle(col)] *)
Fixpoint shuffle_columns (cols : list str) (g : gen) : result (list str * gen) :=
  match cols with
  | [] => OK ([], g)
  | col :: rest =>
      cg <- shuffle col g ;;
      rg <- shuffle_columns rest (snd cg) ;;
      OK (fst cg :: fst rg, snd rg)
  end.

(** One stream through the columns: the generator that leaves a column is
    the one that enters the next. *)
Inductive threaded : gen -> list str -> list str -> gen -> Prop :=
| threaded_nil (g : gen) : threaded g [] [] g
| threaded_cons (g g1 g2 : gen) (col col' : str) (cols cols' : list str) :
    shuffle col g = OK (col', g1) ->
    threaded g1 cols cols' g2 ->
    threaded g (col :: cols) (col' :: cols') g2.

(** [_build_supply]; [g0] is the state of the module generator on entry,
    which [random.seed] replaces. The new state is returned with the
    supply. *)
Definition _build_supply (rows : list str) (quote_id : Z) (g0 : gen)
  : result (list str * gen) :=
  columns <- collect_supply rows ;;
  let g := seed quote_id in
  shuffle_columns columns g.

(** [GameState.__init__] *)
Definition GameState_init (q : Quote) (g0 : gen) : result (GameState * gen) :=
  rows <- _build_grid (answer q) ;;
  sg <- _build_supply rows (id q) g0 ;;
  OK (mkGameState q rows (fst sg) (_build_letter_positions rows (answer q)) [] 0 [],
      snd sg).

End WithRandom.

(** ** ReelGenerator.generate_video: the timeline and the frames *)

Definition pause_before_start : float := 0.2%float.
Definition max_solve_time : float := 7.0%float.
Definition max_time_per_letter : float := 0.12%float.
Definition reveal_fade_duration : float := 1.0%float.

Definition time_per_letter (total_letters : nat) : float :=
  if 0 <? total_letters then
    let available := fmax 0.0%float (max_solve_time - pause_before_start)%float in
    if PrimFloat.ltb 0%float available
    then fmin (available / float_of_nat total_letters)%float max_time_per_letter
    else 0.0%float
  else 0.0%float.

Definition solve_duration (total_letters : nat) : float :=
  (pause_before_start + float_of_nat total_letters * time_per_letter total_letters)%float.

(** [win_fanfare_duration] is what [_get_audio_duration] returned: [None]
    when the asset is missing or cannot be probed. *)
Definition reveal_hold_duration (win_fanfare_duration : option float) : float :=
  match win_fanfare_duration with
  | Some d => fmax 0.0%float (d - reveal_fade_duration)%float
  | None => 1.0%float
  end.

(** [int(duration * self.config.FPS)] *)
Definition frame_count (duration : float) : result Z :=
  int_of_float (duration * float_of_nat FPS)%float.

(** [range(n)] for an [int] [n]. *)
Definition range (n : Z) : list nat := seq 0 (Z.to_nat n).

(** The number of letters a placement frame must show. *)
Definition target_placed (solve_frames : Z) (total_letters : nat) (frame : nat)
  : result Z :=
  let tpl := time_per_letter total_letters in
  let time := (float_of_nat frame / float_of_nat FPS)%float in
  if (Z.of_nat frame =? solve_frames - 1)%Z then OK (Z.of_nat total_letters)
  else if PrimFloat.ltb pause_before_start time && PrimFloat.ltb 0%float tpl then
    let elapsed := (time - pause_before_start)%float in
    n <- int_of_float (elapsed / tpl)%float ;;
    OK (Z.min (Z.of_nat total_letters) n)
  else OK 0%Z.

(** [while state.placed_count < target_placed:
       if not state.place_next_letter(): break].
    Every turn of the loop that does not leave it adds one to
    [placed_count], so [target_placed - placed_count] turns are enough
    ([advance_exits] below). *)
Fixpoint advance_loop (fuel : nat) (target : Z) (st : GameState) : result GameState :=
  match fuel with
  | O => OK st
  | S fuel' =>
      if (Z.of_nat (placed_count st) <? target)%Z then
        r <- place_next_letter st ;;
        if fst r then advance_loop fuel' target (snd r) else OK (snd r)
      else OK st
  end.

Definition advance (target : Z) (st : GameState) : result GameState :=
  advance_loop (Z.to_nat (target - Z.of_nat (placed_count st))) target st.

(** One saved frame: its number in the file name, the state the renderer
    reads and the dissolve progress. *)
Record Frame : Set := mkFrame {
  frame_no : nat;
  shown : GameState;
  progress : float
}.

Definition solve_frame (solve_frames : Z) (total_letters : nat)
  (acc : GameState * list Frame) (frame : nat) : result (GameState * list Frame) :=
  target <- target_placed solve_frames total_letters frame ;;
  st <- advance target (fst acc) ;;
  OK (st, snd acc ++ [mkFrame frame st 0.0%float]).

Definition fade_frame (frame_offset : nat) (reveal_fade_frames : Z) (st : GameState)
  (i : nat) : Frame :=
  mkFrame (frame_offset + i) st
    (float_of_nat (i + 1) / float_of_nat (Z.to_nat (Z.max reveal_fade_frames 1)))%float.

Definition hold_frame (frame_offset : nat) (st : GameState) (i : nat) : Frame :=
  mkFrame (frame_offset + i) st 1.0%float.

Record Reel : Set := mkReel {
  solve_frames : Z;
  reveal_fade_frames : Z;
  reveal_hold_frames : Z;
  total_frames : Z;
  frames : list Frame;
  frame_offset : nat;
  final_state : GameState
}.

(** [generate_video] from the built [state] to the call of the encoder. *)
Definition generate_frames (state : GameState) (win_fanfare_duration : option float)
  : result Reel :=
  let total_letters := length (letter_positions state) in
  solve_frames <- frame_count (solve_duration total_letters) ;;
  reveal_fade_frames <- frame_count reveal_fade_duration ;;
  reveal_hold_frames <- frame_count (reveal_hold_duration win_fanfare_duration) ;;
  let total_frames := (solve_frames + reveal_fade_frames + reveal_hold_frames)%Z in
  let frame_offset := 0 in
  phase1 <- for_each (solve_frame solve_frames total_letters)
                     (range solve_frames) (state, []) ;;
  let state := fst phase1 in
  let frame_offset := frame_offset + Z.to_nat solve_frames in
  let phase2 := map (fade_frame frame_offset reveal_fade_frames state)
                    (range reveal_fade_frames) in
  let frame_offset2 := frame_offset + Z.to_nat reveal_fade_frames in
  let phase3 := map (hold_frame frame_offset2 state) (range reveal_hold_frames) in
  let frame_offset3 := frame_offset2 + Z.to_nat reveal_hold_frames in
  OK (mkReel solve_frames reveal_fade_frames reveal_hold_frames total_frames
        (snd phase1 ++ phase2 ++ phase3) frame_offset3 state).

Section VideoWithRandom.

Context {R : PyRandom}.

Definition generate_video (q : Quote) (win_fanfare_duration : option float) (g0 : gen)
  : result Reel :=
  sg <- GameState_init q g0 ;;
  generate_frames (fst sg) win_fanfare_duration.

End VideoWithRandom.

(** ** QuoteLibrary *)

Record date : Set := mkDate { year : Z; month : Z; day : Z }.

Definition EPOCH : date := mkDate 2026 1 1.
Definition LIBRARY_OFFSET : Z := 0.

Local Open Scope Z_scope.

(** The day number of [datetime]: the proleptic Gregorian ordinal. *)
Definition is_leap (y : Z) : bool :=
  (y mod 4 =? 0) && (negb (y mod 100 =? 0) || (y mod 400 =? 0)).

Definition days_before_year (y : Z) : Z :=
  let y' := y - 1 in y' * 365 + y' / 4 - y' / 100 + y' / 400.

Definition DAYS_BEFORE_MONTH : list Z :=
  [-1; 0; 31; 59; 90; 120; 151; 181; 212; 243; 273; 304; 334].

Definition days_before_month (y m : Z) : Z :=
  nth (Z.to_nat m) DAYS_BEFORE_MONTH 0
  + (if (2 <? m) && is_leap y then 1 else 0).

Definition toordinal (d : date) : Z :=
  days_before_year (year d) + days_before_month (year d) (month d) + day d.

(** [(local_midnight - epoch_midnight).days] *)
Definition days_since_epoch (d : date) : Z := toordinal d - toordinal EPOCH.

(** [self.quotes[-1]] *)
Definition last_quote (quotes : list Quote) : result Quote :=
  match rev quotes with
  | q :: _ => OK q
  | [] => Raise IndexError
  end.

Definition get_daily_quote (quotes : list Quote) (d : date) : result Quote :=
  if days_since_epoch d <? 0 then
    preview <- last_quote quotes ;;
    OK (mkQuote 0 (text preview) (author preview) (source preview))
  else
    match quotes with
    | [] => Raise ZeroDivisionError
    | _ :: _ =>
        let idx := (days_since_epoch d + LIBRARY_OFFSET) mod Z.of_nat (length quotes) in
        q <- getitem quotes (Z.to_nat idx) ;;
        OK (mkQuote (idx + 1) (text q) (author q) (source q))
    end.

Local Close Scope Z_scope.

(** ** A generator to run the code on: a linear congruential one. *)

#[refine] Instance lcg : PyRandom := {|
  gen := Z;
  seed := fun s => s;
  randbelow := fun n g =>
    (Z.to_nat (((g * 1103515245 + 12345) mod 2147483648) mod Z.of_nat n),
     (g * 1103515245 + 12345) mod 2147483648)%Z
|}.
Proof.
  intros n g Hn; cbn [fst].
  assert (0 <= ((g * 1103515245 + 12345) mod 2147483648) mod Z.of_nat n < Z.of_nat n)%Z
    by (apply Z.mod_pos_bound; lia).
  lia.
Defined.

(** ** GameplayRenderer

    The renderer draws with PIL.  What is embedded is what it decides by
    itself: where the puzzle sits on the canvas, which supply letters are
    drawn and where, what each grid cell shows, and which picture a reveal
    progress selects.  Fonts, text metrics and colours are PIL's and are
    left out. *)

Definition CELL_SIZE : Z := 80.
Definition GAP : Z := 2.
Definition PADDING : Z := 1.
Definition SUPPLY_CELL_SIZE : Z := 48.
Definition SUPPLY_GAP_Y : Z := 2.
Definition WIDTH : Z := 1080.
Definition HEIGHT : Z := 1920.

Record Layout : Set := mkLayout {
  grid_x : Z;
  grid_y : Z;
  supply_bottom_y : Z;
  grid_width : Z;
  grid_height : Z
}.

(** [max(len(col) for col in state.supply) if state.supply else 0] *)
Definition max_supply_height (supply : list str) : Z :=
  match supply with
  | [] => 0%Z
  | col :: rest =>
      fold_left (fun m c => Z.max m (Z.of_nat (length c))) rest (Z.of_nat (length col))
  end.

Definition supply_height (st : GameState) : Z :=
  (max_supply_height (supply st) * (SUPPLY_CELL_SIZE + SUPPLY_GAP_Y))%Z.

Definition puzzle_start_y (st : GameState) : Z :=
  let grid_height :=
    (Z.of_nat (length (rows st)) * CELL_SIZE + (Z.of_nat (length (rows st)) - 1) * GAP)%Z in
  let total_puzzle_height := (supply_height st + 20 + grid_height)%Z in
  ((HEIGHT - total_puzzle_height) / 2)%Z.

Definition _calculate_layout (st : GameState) : Layout :=
  let grid_width :=
    (Z.of_nat GRID_COLS * CELL_SIZE + (Z.of_nat GRID_COLS - 1) * GAP)%Z in
  let grid_height :=
    (Z.of_nat (length (rows st)) * CELL_SIZE + (Z.of_nat (length (rows st)) - 1) * GAP)%Z in
  let grid_x := ((WIDTH - grid_width) / 2)%Z in
  let grid_y := (puzzle_start_y st + supply_height st + 20)%Z in
  let supply_bottom_y := (grid_y - 10)%Z in
  mkLayout grid_x grid_y supply_bottom_y grid_width grid_height.

(** [available_letters] of [_draw_supply]: the letters of a column whose
    index is not used, with their index. *)
Definition available_letters (st : GameState) (col_idx : nat) (column : str)
  : list (nat * ascii) :=
  filter (fun il => negb (already_used (used_supply_indices st) col_idx (fst il)))
         (enumerate column).

(** A supply cell as drawn: the corner of its square, the letter, and the
    index the letter has in its column. *)
Record SupplyCell : Set := mkSupplyCell {
  sc_x : Z;
  sc_y : Z;
  sc_letter : ascii;
  sc_index : nat
}.

Definition draw_supply_column (st : GameState) (grid_x supply_bottom_y : Z)
  (cc : nat * str) : list SupplyCell :=
  let col_idx := fst cc in
  let col_x := (grid_x + Z.of_nat col_idx * (CELL_SIZE + GAP))%Z in
  let cell_offset := ((CELL_SIZE - SUPPLY_CELL_SIZE) / 2)%Z in
  let supply_cell_x := (col_x + cell_offset)%Z in
  map (fun dl =>
         let letter_y :=
           (supply_bottom_y
            - (Z.of_nat (fst dl) + 1) * (SUPPLY_CELL_SIZE + SUPPLY_GAP_Y))%Z in
         mkSupplyCell supply_cell_x letter_y (snd (snd dl)) (fst (snd dl)))
      (enumerate (rev (available_letters st col_idx (snd cc)))).

Definition _draw_supply (st : GameState) (grid_x supply_bottom_y : Z) : list SupplyCell :=
  flat_map (draw_supply_column st grid_x supply_bottom_y) (enumerate (supply st)).

(** What [_draw_grid] puts in a cell. *)
Inductive CellKind : Set :=
| BlockCell
| PunctuationCell (char : ascii)
| LetterCell (letter : option ascii).

Record GridCell : Set := mkGridCell {
  gc_x : Z;
  gc_y : Z;
  gc_kind : CellKind
}.

Definition draw_grid_cell (st : GameState) (grid_x grid_y : Z) (r : nat)
  (cc : nat * ascii) : GridCell :=
  let cell_x := (grid_x + Z.of_nat (fst cc) * (CELL_SIZE + GAP))%Z in
  let cell_y := (grid_y + Z.of_nat r * (CELL_SIZE + GAP))%Z in
  mkGridCell cell_x cell_y
    (if Ascii.eqb (snd cc) BLOCK then BlockCell
     else if in_chars (snd cc) PUNCTUATION_MARKS then PunctuationCell (snd cc)
     else LetterCell (get_letter_at_position st r (fst cc))).

Definition _draw_grid (st : GameState) (grid_x grid_y : Z) : list GridCell :=
  flat_map (fun rr => map (draw_grid_cell st grid_x grid_y (fst rr)) (enumerate (snd rr)))
           (enumerate (rows st)).

(** The picture [render_reveal] returns: the gameplay frame, the revealed
    frame, or their blend with the given weight. *)
Inductive Picture : Set :=
| Gameplay (st : GameState)
| Won (st : GameState)
| Blend (st : GameState) (alpha : float).

Definition render_reveal (st : GameState) (progress : float) : Picture :=
  let progress := fmax 0.0%float (fmin 1.0%float progress) in
  if PrimFloat.leb progress 0.0%float then Gameplay st
  else if PrimFloat.leb 1.0%float progress then Won st
  else Blend st progress.

(** The picture saved for frame [j] of a reel: the placement phase saves
    [renderer.render(state, dissolve_progress=0.0)], the two reveal phases
    [renderer.render_reveal(state, progress)]. *)
Definition saved_picture (reel : Reel) (j : nat) (f : Frame) : Picture :=
  if (Z.of_nat j <? solve_frames reel)%Z then Gameplay (shown f)
  else render_reveal (shown f) (progress f).

(** [GameplayRenderer._draw_won_grid]: every cell that is no block gets
    its character, written by [draw_centered] in the cell whose corner is
    recorded (the place of the glyph inside the cell comes from the
    metrics of the font). *)
Record WonText : Set := mkWonText {
  wt_x : Z;
  wt_y : Z;
  wt_char : ascii
}.

Definition draw_won_cell (grid_x grid_y : Z) (r : nat) (cc : nat * ascii)
  : list WonText :=
  if Ascii.eqb (snd cc) BLOCK then []
  else [mkWonText (grid_x + Z.of_nat (fst cc) * (CELL_SIZE + GAP))%Z
                  (grid_y + Z.of_nat r * (CELL_SIZE + GAP))%Z
                  (snd cc)].

(** The sentence-ending mark written after the last letter: the mark, the
    corner of the cell of the last letter position, and the character of
    the layout in that cell, from whose box the place of the mark is
    measured. *)
Record TrailingMark : Set := mkTrailingMark {
  tm_char : ascii;
  tm_cell_x : Z;
  tm_cell_y : Z;
  tm_letter : ascii
}.

Definition trailing_mark (st : GameState) (grid_x grid_y : Z)
  : result (option TrailingMark) :=
  let trimmed := strip (text (quote st)) in
  match rev trimmed with
  | trailing_char :: _ =>
      if in_chars trailing_char ["."; "!"; "?"]%char then
        match rev (letter_positions st) with
        | (row, col) :: _ =>
            let cell_x := (grid_x + Z.of_nat col * (CELL_SIZE + GAP))%Z in
            let cell_y := (grid_y + Z.of_nat row * (CELL_SIZE + GAP))%Z in
            cells <- getitem (rows st) row ;;
            letter_char <- getitem cells col ;;
            OK (Some (mkTrailingMark trailing_char cell_x cell_y letter_char))
        | [] => OK None
        end
      else OK None
  | [] => OK None
  end.

Record WonGrid : Set := mkWonGrid {
  won_texts : list WonText;
  won_mark : option TrailingMark
}.

Definition _draw_won_grid (st : GameState) (grid_x grid_y : Z) : result WonGrid :=
  let texts :=
    flat_map (fun rr => flat_map (draw_won_cell grid_x grid_y (fst rr))
                                 (enumerate (snd rr)))
             (enumerate (rows st)) in
  mark <- trailing_mark st grid_x grid_y ;;
  OK (mkWonGrid texts mark).

(** ** ReelGenerator._encode: the command line for ffmpeg

    What the function takes from its surroundings: the path of the music
    file as [str] gives it, whether each of the three audio assets
    exists, and the text that the format [:.3f] gives for a float. *)

Class Host : Type := {
  format_3f : float -> str;
  background_music : str;
  background_music_exists : bool;
  letter_sfx_exists : bool;
  win_fanfare_exists : bool
}.

(** [str(n)] for an [int]. *)
Definition str_of_nat (n : nat) : str :=
  lit (DecimalString.NilZero.string_of_uint (Nat.to_uint n)).

Definition str_of_Z (z : Z) : str :=
  lit (DecimalString.NilZero.string_of_int (Z.to_int z)).

(** [sep.join(parts)] *)
Fixpoint str_join (sep : str) (parts : list str) : str :=
  match parts with
  | [] => []
  | p :: ps =>
      match ps with
      | [] => p
      | _ :: _ => p ++ sep ++ str_join sep ps
      end
  end.

(** The lists the function fills for the audio, and [input_index]. *)
Record Mix : Set := mkMix {
  audio_inputs : list str;
  filter_parts : list str;
  labels : list str;
  input_index : nat
}.

Record Encoding : Set := mkEncoding {
  cmd : list str;
  stream_map : list str;
  mix : Mix
}.

Section Encode.

Context {host : Host}.

(** [if self.background_music.exists(): ...] *)
Definition add_music (reveal_start : float) (m : Mix) : Mix :=
  if background_music_exists then
    let part :=
      if PrimFloat.ltb 0%float reveal_start then
        let fade_end := (reveal_start + 1.0)%float in
        lit "[" ++ str_of_nat (input_index m)
        ++ lit ":a]volume=1.2,afade=t=out:st=" ++ format_3f reveal_start
        ++ lit ":d=1.0,atrim=0:" ++ format_3f fade_end ++ lit "[music]"
      else lit "[" ++ str_of_nat (input_index m) ++ lit ":a]volume=1.2[music]" in
    mkMix (audio_inputs m ++ [background_music]) (filter_parts m ++ [part])
          (labels m ++ [lit "music"]) (input_index m + 1)
  else m.

(** [if self.letter_sfx.exists(): ...]; the track itself is written by
    [_create_sfx_track]. *)
Definition add_sfx (m : Mix) : Mix :=
  if letter_sfx_exists then
    mkMix (audio_inputs m ++ [lit "tmp/sfx.wav"])
          (filter_parts m
           ++ [lit "[" ++ str_of_nat (input_index m) ++ lit ":a]volume=0.08[sfx]"])
          (labels m ++ [lit "sfx"]) (input_index m + 1)
  else m.

(** [if self.win_fanfare.exists(): ...] *)
Definition add_win (win_delay : float) (m : Mix) : result Mix :=
  if win_fanfare_exists then
    d <- int_of_float (win_delay * float_of_nat 1000)%float ;;
    let delay_ms := Z.max 0 d in
    OK (mkMix (audio_inputs m ++ [lit "tmp/win.wav"])
              (filter_parts m
               ++ [lit "[" ++ str_of_nat (input_index m) ++ lit ":a]adelay="
                   ++ str_of_Z delay_ms ++ lit "|" ++ str_of_Z delay_ms
                   ++ lit ",volume=0.7[win]"])
              (labels m ++ [lit "win"]) (input_index m + 1))
  else OK m.

(** The command that [_encode] hands to [subprocess.run] in the end, with
    the lists it was put together from; the programs run on the way
    ([_create_sfx_track], the conversion of the fanfare) write files and
    are taken to return.  [duration] is not used; [total_letters],
    [letter_time] and [start_delay] only go to [_create_sfx_track]. *)
Definition _encode (output_path : str) (duration : float) (total_letters : nat)
  (letter_time start_delay win_delay reveal_start : float) : result Encoding :=
  let cmd0 := [lit "ffmpeg"; lit "-y"; lit "-framerate"; str_of_nat FPS;
               lit "-i"; lit "tmp/frames/frame%05d.png"] in
  let m0 := mkMix [] [] [] 1 in
  let m1 := add_music reveal_start m0 in
  let m2 := add_sfx m1 in
  m3 <- add_win win_delay m2 ;;
  let cmd1 := cmd0 ++ flat_map (fun audio => [lit "-i"; audio]) (audio_inputs m3) in
  let e :=
    match filter_parts m3 with
    | _ :: _ =>
        let ms :=
          if 1 <? length (labels m3) then
            let mix_inputs :=
              concat (map (fun label => lit "[" ++ label ++ lit "]") (labels m3)) in
            (mkMix (audio_inputs m3)
                   (filter_parts m3
                    ++ [mix_inputs ++ lit "amix=inputs="
                        ++ str_of_nat (length (labels m3)) ++ lit "[aout]"])
                   (labels m3) (input_index m3),
             [lit "0:v"; lit "[aout]"])
          else
            match labels m3 with
            | label :: _ => (m3, [lit "0:v"; lit "[" ++ label ++ lit "]"])
            | [] => (m3, [lit "0:v"])
            end in
        mkEncoding
          (cmd1 ++ [lit "-filter_complex"; str_join (lit ";") (filter_parts (fst ms))])
          (snd ms) (fst ms)
    | [] =>
        match audio_inputs m3 with
        | _ :: _ => mkEncoding cmd1 [lit "0:v"; lit "1:a"] m3
        | [] => mkEncoding cmd1 [lit "0:v"] m3
        end
    end in
  let cmd2 := cmd e ++ flat_map (fun s => [lit "-map"; s]) (stream_map e) in
  OK (mkEncoding
        (cmd2 ++ [lit "-c:v"; lit "libx264"; lit "-preset"; lit "slow";
                  lit "-crf"; lit "18"; lit "-pix_fmt"; lit "yuv420p";
                  lit "-c:a"; lit "aac"; lit "-b:a"; lit "192k";
                  lit "-ar"; lit "48000"; lit "-shortest"; output_path])
        (stream_map e) (mix e)).

End Encode.

(** A host to run the code on.  [:.3f] rounds the exact value of the float
    to three decimals, a tie to the even neighbour; the three audio
    assets are there. *)
Definition pad3 (n : nat) : str :=
  repeat "0"%char (3 - length (str_of_nat n)) ++ str_of_nat n.

Definition fixed3 (x : float) : str :=
  match Prim2SF x with
  | SpecFloat.S754_nan => lit "nan"
  | SpecFloat.S754_infinity s => if s then lit "-inf" else lit "inf"
  | SpecFloat.S754_zero s => if s then lit "-0.000" else lit "0.000"
  | SpecFloat.S754_finite s m e =>
      let n :=
        if (0 <=? e)%Z then (Z.pos m * 2 ^ e * 1000)%Z
        else
          let d := (2 ^ (- e))%Z in
          let q := (Z.pos m * 1000 / d)%Z in
          let r := ((Z.pos m * 1000) mod d)%Z in
          if (2 * r <? d)%Z then q
          else if (d <? 2 * r)%Z then (q + 1)%Z
          else if Z.even q then q else (q + 1)%Z in
      (if s then lit "-" else [])
      ++ str_of_Z (n / 1000) ++ lit "." ++ pad3 (Z.to_nat (n mod 1000))
  end.

Definition demo_host : Host := {|
  format_3f := fixed3;
  background_music := lit "Quotidian/public/audio/music/music.mp3";
  background_music_exists := true;
  letter_sfx_exists := true;
  win_fanfare_exists := true
|}.

(** * Notions the properties are stated with *)

(** ** Lines and rows *)

(** [left_pad] of a line that fits. *)
Definition left_pad_of (line_chars : str) : nat := (GRID_COLS - length line_chars) / 2.

(** What the loop leaves in [lines] once the last line is closed. *)
Definition close_lines (st : wrap) : list str :=
  match current_line st with
  | [] => lines st
  | _ :: _ => lines st ++ [current_line st]
  end.

(** A word, or a line, no wider than the grid. *)
Definition fits (w : str) : Prop := length w <= GRID_COLS.

(** The invariant of the wrap loop when the words fit. *)
Definition wrap_inv (st : wrap) : Prop :=
  Forall fits (lines st)
  /\ length (current_line st) = current_length st
  /\ current_length st <= GRID_COLS.

(** A line centred between blocks, the odd block on the right. *)
Definition frame_line (l : str) : str :=
  repeat BLOCK (left_pad_of l) ++ l ++ repeat BLOCK (GRID_COLS - left_pad_of l - length l).

(** ** Letter cells

    The [Letter] cells of a row, then of a layout, in scan order. *)
Definition row_letter_cells (r k : nat) (row : str) : list (nat * nat) :=
  map (fun ic => (r, fst ic)) (filter (fun ic => is_letter (snd ic)) (enumerate_from k row)).

Definition letter_cells_from (r : nat) (rows : list str) : list (nat * nat) :=
  flat_map (fun rr => row_letter_cells (fst rr) 0 (snd rr)) (enumerate_from r rows).

Definition letter_cells (rows : list str) : list (nat * nat) := letter_cells_from 0 rows.

(** The characters play has to supply, in reading order. *)
Definition letters_of (s : str) : str := filter is_letter s.

(** ** States of the simulator

    Index [i] of column [col] holds [ch] and has not been consumed. *)
Definition unused_occurrence (st : GameState) (col : nat) (ch : ascii) (i : nat) : Prop :=
  exists column,
    nth_error (supply st) col = Some column
    /\ nth_error column i = Some ch
    /\ ~ In (col, i) (used_supply_indices st).

(** The state after a step that places [correct_letter]. *)
Definition placed (st : GameState) (col : nat) (correct_letter : ascii) : GameState :=
  mkGameState (quote st) (rows st) (supply st) (letter_positions st)
    (placed_supply_letters st ++ [correct_letter])
    (placed_count st + 1)
    (mark_used st col correct_letter).

(** What holds of every state the simulator goes through. *)
Definition consistent (st : GameState) : Prop :=
  length (letter_positions st) <= length (remove_spaces (answer (quote st)))
  /\ placed_count st <= length (letter_positions st)
  /\ placed_supply_letters st
     = firstn (placed_count st) (remove_spaces (answer (quote st)))
  /\ NoDup (used_supply_indices st)
  /\ length (used_supply_indices st) <= placed_count st.

(** The fields no step writes. *)
Definition same_puzzle (st st' : GameState) : Prop :=
  quote st' = quote st /\ rows st' = rows st /\ supply st' = supply st
  /\ letter_positions st' = letter_positions st.

(** The state [GameState.__init__] leaves. *)
Definition fresh (st : GameState) : Prop :=
  _build_grid (answer (quote st)) = OK (rows st)
  /\ letter_positions st = _build_letter_positions (rows st) (answer (quote st))
  /\ placed_supply_letters st = []
  /\ placed_count st = 0
  /\ used_supply_indices st = [].

(** The step taken from [st] finds an unused occurrence of its letter. *)
Definition step_found (st : GameState) : Prop :=
  exists rc ch i,
    nth_error (letter_positions st) (placed_count st) = Some rc
    /\ nth_error (remove_spaces (answer (quote st))) (placed_count st) = Some ch
    /\ unused_occurrence st (snd rc) ch i.

(** ** Columns of the layout

    The [Letter] cells of column [c], rows read from the top. *)
Definition column_letters (c : nat) (rows : list str) : str :=
  flat_map (fun row => match nth_error row c with
                       | Some ch => if is_letter ch then [ch] else []
                       | None => []
                       end) rows.

(** What the cells [k], [k+1], ... of a row add to column [c]. *)
Definition cells_for (k : nat) (cells : str) (c : nat) : str :=
  match nth_error cells (c - k) with
  | Some ch => if (k <=? c) && is_letter ch then [ch] else []
  | None => []
  end.

(** The exchange of the indices [i] and [j]. *)
Definition transpose (i j n : nat) : nat :=
  if n =? j then i else if n =? i then j else n.

(** ** Reading a layout

    [' '.join(pieces)] *)
Fixpoint join_space (pieces : list str) : str :=
  match pieces with
  | [] => []
  | x :: rest =>
      match rest with
      | [] => x
      | _ :: _ => x ++ " "%char :: join_space rest
      end
  end.

(** A block read as the space it stands for. *)
Definition unblock (c : ascii) : ascii := if Ascii.eqb c BLOCK then " "%char else c.

(** A row without the blocks that pad it on the left, then on both sides. *)
Fixpoint ltrim_blocks (row : str) : str :=
  match row with
  | c :: row' => if Ascii.eqb c BLOCK then ltrim_blocks row' else row
  | [] => []
  end.

Definition trim_blocks (row : str) : str := rev (ltrim_blocks (rev (ltrim_blocks row))).

(** The cells of a row from its first to its last non-block cell, a block
    between two of them read as a space. *)
Definition read_row (row : str) : str := map unblock (trim_blocks row).

Definition not_punctuation (c : ascii) : bool := negb (in_chars c PUNCTUATION_MARKS).

(** The same with the punctuation cells left out. *)
Definition reconstruct_row (row : str) : str := read_row (filter not_punctuation row).

(** The reconstruction as the specification words it: rows concatenated,
    spaces only for the blocks inside a line. *)
Definition reconstruct (rows : list str) : str := concat (map reconstruct_row rows).

(** A line that starts, and one that starts and ends, with a cell that is
    no block. *)
Definition head_solid (l : str) : Prop :=
  match l with
  | c :: _ => Ascii.eqb c BLOCK = false
  | [] => False
  end.

Definition solid (l : str) : Prop := head_solid l /\ head_solid (rev l).

(** A word that play can read back: not empty, no block in it. *)
Definition plain_word (w : str) : Prop :=
  w <> [] /\ Forall (fun c => Ascii.eqb c BLOCK = false) w.

(** An answer that the wrap can lay out and the layout can give back: words
    separated by single spaces, none wider than the grid, no [#] in it. *)
Definition plain_answer (a : str) : Prop :=
  Forall (fun w => w <> [] /\ fits w) (split_space a) /\ ~ In BLOCK a.

(** ** The timeline in the words of the specification

    The sign bit is clear, or the value is a NaN. *)
Definition sf_nonneg (s : SpecFloat.spec_float) : bool :=
  match s with
  | SpecFloat.S754_zero b | SpecFloat.S754_infinity b | SpecFloat.S754_finite b _ _ =>
      negb b
  | SpecFloat.S754_nan => true
  end.

(** The same for a primitive float. *)
Definition float_nonneg (x : float) : Prop := sf_nonneg (Prim2SF x) = true.

(** [floor(duration * frame_rate)], the frame count of the specification. *)
Definition spec_frame_count (duration : float) : result Z :=
  floor_of_float (duration * float_of_nat FPS)%float.

(** ** The library

    Two libraries with the same records up to the stored [id]. *)
Definition same_texts (quotes quotes' : list Quote) : Prop :=
  Forall2 (fun a b => text a = text b /\ author a = author b /\ source a = source b)
    quotes quotes'.

(** [per_letter_time], [solve_duration] and [reveal_hold_duration] as the
    specification derives them. *)
Definition spec_per_letter_time (N : nat) : float :=
  if N =? 0 then 0%float
  else fmin (fmax 0%float (max_solve_time - pause_before_start)%float
             / float_of_nat N)%float
            max_time_per_letter.

Definition spec_solve_duration (N : nat) : float :=
  (pause_before_start + float_of_nat N * spec_per_letter_time N)%float.

Definition spec_reveal_hold_duration (external_fanfare_duration : option float) : float :=
  match external_fanfare_duration with
  | Some d => fmax 0%float (d - reveal_fade_duration)%float
  | None => 1.0%float
  end.

(** ** Quotes, states and a library to run the code on *)

Definition comma_quote : Quote := mkQuote 1 (lit "HI, YOU.") (lit "Anon") None.

Definition no_state : GameState := mkGameState comma_quote [] [] [] [] 0 [].

Definition state_of (r : result (GameState * Z)) : GameState :=
  match r with
  | OK sg => fst sg
  | Raise _ => no_state
  end.

Definition comma_state0 : GameState :=
  Eval vm_compute in state_of (GameState_init (R := lcg) comma_quote 0%Z).

Definition comma_gen : Z :=
  Eval vm_compute in
    match GameState_init (R := lcg) comma_quote 0%Z with
    | OK sg => snd sg
    | Raise _ => 0%Z
    end.

Definition comma_state2 : GameState :=
  Eval vm_compute in
    match run 2 comma_state0 with
    | OK st => st
    | Raise _ => no_state
    end.

Definition two_lines : str := lit "HELLO WORLD AGAIN".

Definition short_quote : Quote := mkQuote 7 (lit "HI") (lit "Anon") None.

Definition short_reel : Reel :=
  Eval vm_compute in
    match generate_video (R := lcg) short_quote None 0%Z with
    | OK r => r
    | Raise _ => mkReel 0 0 0 0 [] 0 no_state
    end.

Definition comma_rows : list str := [lit "##HI,#YOU###"].

Definition library : list Quote :=
  [mkQuote 40 (lit "FIRST") (lit "A") None;
   mkQuote 41 (lit "SECOND") (lit "B") None;
   mkQuote 42 (lit "THIRD") (lit "C") None].

(** ** Words and lines wider than the grid *)

(** A word too long to be centred: fourteen characters or more. *)
Definition too_long (w : str) : Prop := 14 <= length w.

(** The lines of the wrap: a line fits, or it is one of the words. *)
Definition line_of (words : list str) (l : str) : Prop := fits l \/ In l words.

(** ** Supply against positions *)

(** The [Letter] cells of a row, then of a layout, each with its character. *)
Definition tagged_row (r k : nat) (row : str) : list ((nat * nat) * ascii) :=
  map (fun ic => ((r, fst ic), snd ic))
      (filter (fun ic => is_letter (snd ic)) (enumerate_from k row)).

Definition tagged_from (r : nat) (rows : list str) : list ((nat * nat) * ascii) :=
  flat_map (fun rr => tagged_row (fst rr) 0 (snd rr)) (enumerate_from r rows).

(** The characters of the entries that lie in column [c]. *)
Definition in_column (c : nat) (l : list ((nat * nat) * ascii)) : str :=
  map snd (filter (fun pa => snd (fst pa) =? c) l).

(** The letters still to be placed in column [c]: those the answer gives to
    the positions from [placed_count] on that lie in that column. *)
Definition pending (st : GameState) (c : nat) : str :=
  in_column c
    (skipn (placed_count st)
       (combine (letter_positions st) (remove_spaces (answer (quote st))))).

(** The letters of column [c] of the supply that are still available. *)
Definition available (st : GameState) (c : nat) : str :=
  map snd (available_letters st c (nth c (supply st) [])).

(** An answer made of letter characters and spaces only: no punctuation
    mark and no [#]. *)
Definition letters_only (a : str) : Prop :=
  Forall (fun ch => is_letter ch = true) (remove_spaces a).

(** The supply tracks the letters still to place. *)
Definition tracking (st : GameState) : Prop :=
  consistent st
  /\ (forall c, Permutation (available st c) (pending st c))
  /\ length (used_supply_indices st) = placed_count st.

(** ** Whitespace *)

(** A string that does not start with a whitespace character. *)
Definition no_lead (s : str) : Prop :=
  match s with
  | c :: _ => isspace c = false
  | [] => True
  end.

Definition spaces (s : str) : Prop := Forall (fun c => isspace c = true) s.

(** Nothing, or one sentence-ending mark. *)
Definition end_mark (m : str) : Prop :=
  m = [] \/ exists c, m = [c] /\ in_chars c ["."; "!"; "?"]%char = true.

(** ** A game of letters only, and cells to look at *)

Definition short_state0 : GameState :=
  Eval vm_compute in state_of (GameState_init (R := lcg) short_quote 0%Z).

Definition short_gen : Z :=
  Eval vm_compute in
    match GameState_init (R := lcg) short_quote 0%Z with
    | OK sg => snd sg
    | Raise _ => 0%Z
    end.

Definition short_state1 : GameState :=
  Eval vm_compute in
    match run 1 short_state0 with
    | OK st => st
    | Raise _ => no_state
    end.

Definition short_state2 : GameState :=
  Eval vm_compute in
    match run 2 short_state0 with
    | OK st => st
    | Raise _ => no_state
    end.

Definition comma_supply_cell : SupplyCell :=
  Eval vm_compute in
    hd (mkSupplyCell 0 0 " "%char 0)
       (_draw_supply comma_state0
          (grid_x (_calculate_layout comma_state0))
          (supply_bottom_y (_calculate_layout comma_state0))).

Definition short_frame3 : Frame :=
  Eval vm_compute in nth 3 (frames short_reel) (mkFrame 0 no_state 0%float).

(** ** The revealed grid *)

Definition not_block (c : ascii) : bool := negb (Ascii.eqb c BLOCK).

Definition is_block_cell (cell : GridCell) : bool :=
  match gc_kind cell with
  | BlockCell => true
  | _ => false
  end.

Definition grid_corner (cell : GridCell) : Z * Z := (gc_x cell, gc_y cell).

Definition won_corner (w : WonText) : Z * Z := (wt_x w, wt_y w).

(** ** The words of the lines *)

(** The words of a line put together, with [#] for the space between two
    words. *)
Definition join_block (ws : list str) : str :=
  match ws with
  | [] => []
  | w :: ws' => w ++ concat (map (fun w' => BLOCK :: w') ws')
  end.

Definition is_word (w : str) : bool :=
  match w with
  | [] => false
  | _ :: _ => true
  end.

(** The pieces of [split(' ')] that the wrap does not skip. *)
Definition words_of (a : str) : list str := filter is_word (split_space a).

(** The width a line reaches when a word is put after what it holds. *)
Definition cost_after (line_chars w : str) : nat :=
  length line_chars + match line_chars with [] => 0 | _ :: _ => 1 end + length w.

(** The word that opens a line did not fit on the line before. *)
Definition pushed_down (g next : list str) : Prop :=
  exists w rest, next = w :: rest /\ GRID_COLS < cost_after (join_block g) w.

Definition adjacent {A : Type} (P : A -> A -> Prop) (l : list A) : Prop :=
  forall i a b, nth_error l i = Some a -> nth_error l (S i) = Some b -> P a b.

(** A line no wider than the grid, or a single word. *)
Definition narrow_or_single (g : list str) : Prop :=
  length (join_block g) <= GRID_COLS \/ exists w, g = [w].

(** The state of the wrap loop against the words grouped by line. *)
Definition grouped (st : wrap) (done : list (list str)) (cur : list str) : Prop :=
  lines st = map join_block done
  /\ current_line st = join_block cur
  /\ current_length st = length (current_line st)
  /\ Forall (fun w => w <> []) cur
  /\ (cur = [] -> done = [])
  /\ adjacent pushed_down (done ++ [cur])
  /\ Forall narrow_or_single (done ++ [cur]).

(** ** Audio inputs and their filters *)

(** The filter [part] reads the audio of input [i + 1] and gives the
    stream [label]. *)
Definition wired (i : nat) (label part : str) : Prop :=
  exists body,
    part = lit "[" ++ str_of_nat (i + 1) ++ lit ":a]" ++ body
           ++ lit "[" ++ label ++ lit "]".

(** The lists of a mix go together: one input and one filter for each
    label, the filter reading the input of the label. *)
Definition aligned (m : Mix) : Prop :=
  input_index m = length (labels m) + 1
  /\ length (audio_inputs m) = length (labels m)
  /\ length (filter_parts m) = length (labels m)
  /\ forall i label,
       nth_error (labels m) i = Some label ->
       exists part, nth_error (filter_parts m) i = Some part /\ wired i label part.

(** The number of audio assets that exist. *)
Definition assets {host : Host} : nat :=
  Nat.b2n background_music_exists + Nat.b2n letter_sfx_exists
  + Nat.b2n win_fanfare_exists.

Definition demo_encoding : Encoding :=
  Eval vm_compute in
    match _encode (host := demo_host) (lit "out.mp4") 8.2%float 2 0.12%float
                  0.2%float 6.2%float 6.2%float with
    | OK e => e
    | Raise _ => mkEncoding [] [] (mkMix [] [] [] 0)
    end.

(** ** Counting the supply cells *)

(** The letters of the columns [k], [k+1], ... that are not used. *)
Definition unused_count (used : list (nat * nat)) (k : nat) (supply : list str) : nat :=
  list_sum
    (map (fun cc => length (filter (fun il => negb (already_used used (fst cc) (fst il)))
                                   (enumerate (snd cc))))
         (enumerate_from k supply)).

(** Every used index has taken one letter from the display. *)
Definition accounted (st : GameState) : Prop :=
  unused_count (used_supply_indices st) 0 (supply st)
  + length (used_supply_indices st)
  = length (concat (supply st)).

(** ** Cells to look at *)

Definition short_grid_cell : GridCell :=
  Eval vm_compute in nth 5 (_draw_grid short_state1 0 0) (mkGridCell 0 0 BlockCell).

Definition stack_cell : SupplyCell :=
  Eval vm_compute in
    hd (mkSupplyCell 0 0 " "%char 0)
       (draw_supply_column comma_state2 0 0 (2, lit "ABC")).

(** ** Rows of lines of thirteen characters *)

(** The row of a line of at most thirteen characters: the centred line, or
    the line without its first character. *)
Definition row_of_line (l : str) : str :=
  if length l <=? GRID_COLS then frame_line l else tl l.

Definition thirteen : str := lit "ABCDEFGHIJKLM".

(** * Properties *)

(** ** Loops and lists *)

Lemma for_each_app {A S : Type} (body : S -> A -> result S) (xs ys : list A) (acc : S) :
  for_each body (xs ++ ys) acc = (acc' <- for_each body xs acc ;; for_each body ys acc').
Proof.
  revert acc; induction xs as [|x xs IH]; intros acc; simpl; [reflexivity|].
  destruct (body acc x); simpl; auto.
Qed.

Lemma for_each_invariant {A S : Type} (P : S -> Prop) (body : S -> A -> result S)
  (xs : list A) :
  (forall acc x acc', P acc -> body acc x = OK acc' -> P acc') ->
  forall acc acc', P acc -> for_each body xs acc = OK acc' -> P acc'.
Proof.
  intros Hbody; induction xs as [|x xs IH]; intros acc acc' HP; simpl.
  - intros [= <-]; exact HP.
  - destruct (body acc x) as [acc1|e] eqn:E; simpl; [|discriminate].
    apply IH; eauto.
Qed.

Lemma enumerate_from_length {A : Type} (xs : list A) (k : nat) :
  length (enumerate_from k xs) = length xs.
Proof. revert k; induction xs; intros; simpl; auto. Qed.

Lemma enumerate_from_app {A : Type} (xs ys : list A) (k : nat) :
  enumerate_from k (xs ++ ys) = enumerate_from k xs ++ enumerate_from (k + length xs) ys.
Proof.
  revert k; induction xs as [|x xs IH]; intros k; simpl.
  - now rewrite Nat.add_0_r.
  - rewrite IH. do 3 f_equal. lia.
Qed.

Lemma set_nth_length {A : Type} (l : list A) (n : nat) (v : A) :
  length (set_nth l n v) = length l.
Proof. revert n; induction l; intros [|n]; simpl; auto. Qed.

Lemma set_nth_app_here {A : Type} (pre post : list A) (x v : A) :
  set_nth (pre ++ x :: post) (length pre) v = pre ++ v :: post.
Proof. induction pre; simpl; congruence. Qed.

Lemma setitem_length {A : Type} (l l' : list A) (k : Z) (v : A) :
  setitem l k v = OK l' -> length l' = length l.
Proof.
  unfold setitem.
  destruct (_ && _); [intros [= <-]; apply set_nth_length|].
  destruct (_ && _); [intros [= <-]; apply set_nth_length|discriminate].
Qed.

Lemma setitem_app_here {A : Type} (pre post : list A) (x v : A) :
  setitem (pre ++ x :: post) (Z.of_nat (length pre)) v = OK (pre ++ v :: post).
Proof.
  unfold setitem.
  rewrite length_app; simpl length.
  replace ((0 <=? Z.of_nat (length pre))%Z && _) with true.
  - now rewrite Nat2Z.id, set_nth_app_here.
  - symmetry; apply andb_true_iff; split; [apply Z.leb_le|apply Z.ltb_lt]; lia.
Qed.

(** ** The centred row *)

Lemma place_chars_fill (left_pad : Z) (chars pre : str) (k r : nat) :
  Z.of_nat (length pre) = (left_pad + Z.of_nat k)%Z ->
  for_each (place_char left_pad) (enumerate_from k chars)
           (pre ++ repeat BLOCK (length chars + r))
  = OK (pre ++ chars ++ repeat BLOCK r).
Proof.
  revert pre k; induction chars as [|c chars IH]; intros pre k Hk; simpl.
  - reflexivity.
  - unfold place_char at 1; simpl fst; simpl snd.
    rewrite <- Hk, setitem_app_here; simpl.
    change (pre ++ c :: repeat BLOCK (length chars + r))
      with (pre ++ [c] ++ repeat BLOCK (length chars + r)).
    rewrite app_assoc, IH.
    + now rewrite <- app_assoc.
    + rewrite length_app; simpl; lia.
Qed.

(** A line that fits is framed by blocks, the odd one on the right. *)
Lemma center_line_fits (line_chars : str) :
  length line_chars <= GRID_COLS ->
  center_line line_chars
  = OK (repeat BLOCK (left_pad_of line_chars) ++ line_chars
        ++ repeat BLOCK (GRID_COLS - left_pad_of line_chars - length line_chars)).
Proof.
  intros Hlen. unfold center_line, enumerate.
  set (lp := left_pad_of line_chars).
  assert (Hlp : ((Z.of_nat GRID_COLS - Z.of_nat (length line_chars)) / 2)%Z = Z.of_nat lp).
  { unfold lp, left_pad_of. rewrite <- Nat2Z.inj_sub by exact Hlen.
    now rewrite (Nat2Z.inj_div _ 2). }
  rewrite Hlp.
  assert (Hle : lp + length line_chars <= GRID_COLS).
  { unfold lp, left_pad_of.
    pose proof (Nat.Div0.mul_div_le (GRID_COLS - length line_chars) 2). lia. }
  replace GRID_COLS with (lp + (length line_chars + (GRID_COLS - lp - length line_chars)))
    at 1 by lia.
  rewrite repeat_app.
  apply place_chars_fill. rewrite repeat_length. lia.
Qed.

Lemma center_line_length (line_chars row : str) :
  center_line line_chars = OK row -> length row = GRID_COLS.
Proof.
  unfold center_line.
  apply (for_each_invariant (fun row => length row = GRID_COLS)).
  - intros acc x acc' Hacc Hset. unfold place_char in Hset.
    apply setitem_length in Hset. congruence.
  - apply repeat_length.
Qed.

(** Whenever the grid is built, its rows are [GRID_COLS] wide. *)
Lemma build_grid_row_length (puzzle_text : str) (rows : list str) :
  _build_grid puzzle_text = OK rows ->
  Forall (fun row => length row = GRID_COLS) rows.
Proof.
  unfold _build_grid.
  apply (for_each_invariant (Forall (fun row => length row = GRID_COLS))).
  - intros acc line acc' Hacc. unfold append_row.
    destruct (center_line line) as [row|e] eqn:E; simpl; [|discriminate].
    intros [= <-]. apply Forall_app; split; [exact Hacc|].
    constructor; [|constructor]. eapply center_line_length; eauto.
  - constructor.
Qed.

Lemma build_grid_of_lines (ls : list str) (acc : list str) :
  Forall (fun l => length l <= GRID_COLS) ls ->
  for_each append_row ls acc
  = OK (acc ++ map (fun l => repeat BLOCK (left_pad_of l) ++ l
                      ++ repeat BLOCK (GRID_COLS - left_pad_of l - length l)) ls).
Proof.
  revert acc; induction ls as [|l ls IH]; intros acc Hall; simpl.
  - now rewrite app_nil_r.
  - inversion Hall as [|? ? Hl Hls]; subst.
    unfold append_row at 1. rewrite center_line_fits by exact Hl. simpl.
    rewrite IH by exact Hls. now rewrite <- app_assoc.
Qed.

(** ** The word wrap *)

Lemma build_lines_eq (puzzle_text : str) :
  build_lines puzzle_text
  = close_lines (fold_left wrap_word (split_space puzzle_text) (mkWrap [] [] 0)).
Proof. reflexivity. Qed.

Lemma split_space_concat (s : str) : concat (split_space s) = remove_spaces s.
Proof.
  induction s as [|c s IH]; simpl; [reflexivity|].
  destruct (Ascii.eqb c " ") eqn:E; simpl.
  - exact IH.
  - destruct (split_space s) as [|w ws]; simpl in *; [now rewrite <- IH|].
    now rewrite <- IH.
Qed.

Lemma close_lines_concat (st : wrap) :
  concat (close_lines st) = concat (lines st) ++ current_line st.
Proof.
  unfold close_lines. destruct (current_line st) as [|c l].
  - now rewrite app_nil_r.
  - rewrite concat_app; simpl. now rewrite app_nil_r.
Qed.

(** The wrap only adds blocks: what a filter that rejects the block keeps
    of the lines is what it keeps of the words. *)
Lemma wrap_filter (f : ascii -> bool) (ws : list str) (st : wrap) :
  f BLOCK = false ->
  filter f (concat (close_lines (fold_left wrap_word ws st)))
  = filter f (concat (lines st)) ++ filter f (current_line st) ++ filter f (concat ws).
Proof.
  intros HB. revert st; induction ws as [|w ws IH]; intros st; simpl fold_left.
  - rewrite close_lines_concat, filter_app. simpl. now rewrite app_nil_r.
  - rewrite IH. simpl concat. rewrite (filter_app f w).
    destruct w as [|c w]; [reflexivity|].
    unfold wrap_word.
    destruct (_ <=? GRID_COLS).
    + destruct (current_line st) as [|d l] eqn:El; cbn [lines current_line].
      * reflexivity.
      * rewrite !filter_app. simpl filter at 3. rewrite HB.
        now rewrite app_nil_r, <- !app_assoc.
    + cbn [lines current_line]. rewrite concat_app, filter_app. simpl concat.
      now rewrite app_nil_r, <- !app_assoc.
Qed.

Lemma build_lines_filter (f : ascii -> bool) (puzzle_text : str) :
  f BLOCK = false ->
  filter f (concat (build_lines puzzle_text)) = filter f (remove_spaces puzzle_text).
Proof.
  intros HB. rewrite build_lines_eq, wrap_filter by exact HB.
  simpl. now rewrite split_space_concat.
Qed.

Lemma wrap_word_inv (st : wrap) (w : str) :
  fits w -> wrap_inv st -> wrap_inv (wrap_word st w).
Proof.
  intros Hw (Hl & Hc & Hn). destruct w as [|c w]; [now repeat split|].
  unfold wrap_word.
  destruct (_ <=? GRID_COLS) eqn:E.
  - apply Nat.leb_le in E.
    destruct (current_line st) as [|d l] eqn:El;
      (split; [exact Hl|]); cbn [current_line current_length];
      rewrite ?length_app; cbn [length] in *; lia.
  - split; [|split]; cbn [lines current_line current_length].
    + apply Forall_app; split; [exact Hl|]. constructor; [|constructor].
      unfold fits; lia.
    + reflexivity.
    + exact Hw.
Qed.

Lemma wrap_fits (ws : list str) (st : wrap) :
  Forall fits ws -> wrap_inv st ->
  Forall fits (close_lines (fold_left wrap_word ws st)).
Proof.
  intros Hws; revert st; induction Hws as [|w ws Hw Hws IH]; intros st Hst;
    simpl fold_left.
  - destruct Hst as (Hl & Hc & Hn).
    unfold close_lines. destruct (current_line st) eqn:E; [exact Hl|].
    apply Forall_app; split; [exact Hl|]. constructor; [|constructor].
    unfold fits; rewrite Hc; exact Hn.
  - apply IH, wrap_word_inv; assumption.
Qed.

Lemma build_lines_fit (puzzle_text : str) :
  Forall fits (split_space puzzle_text) -> Forall fits (build_lines puzzle_text).
Proof.
  intros H. rewrite build_lines_eq. apply wrap_fits; [exact H|].
  repeat split; simpl; [constructor|unfold GRID_COLS; lia].
Qed.

(** The layout of an answer whose words fit: every line framed by blocks. *)
Lemma build_grid_fits (puzzle_text : str) :
  Forall fits (split_space puzzle_text) ->
  _build_grid puzzle_text = OK (map frame_line (build_lines puzzle_text)).
Proof.
  intros H. unfold _build_grid.
  rewrite build_grid_of_lines by (apply build_lines_fit; exact H).
  reflexivity.
Qed.

(** ** Letter cells and letter positions *)

Lemma row_letter_cells_length (r k : nat) (row : str) :
  length (row_letter_cells r k row) = length (letters_of row).
Proof.
  unfold row_letter_cells, letters_of. rewrite length_map.
  revert k; induction row as [|c row IH]; intros k; simpl; [reflexivity|].
  destruct (is_letter c); simpl; now rewrite IH.
Qed.

Lemma letter_cells_from_length (r : nat) (rows : list str) :
  length (letter_cells_from r rows) = length (letters_of (concat rows)).
Proof.
  unfold letter_cells_from, letters_of.
  revert r; induction rows as [|row rows IH]; intros r; simpl; [reflexivity|].
  rewrite length_app, filter_app, length_app, IH.
  now rewrite row_letter_cells_length.
Qed.

Lemma position_cell_fold (ans : str) (r : nat) (cells : str) (k : nat)
  (acc : list (nat * nat)) :
  length acc + length (letters_of cells) <= length ans ->
  fold_left (position_cell ans r) (enumerate_from k cells) (acc, length acc)
  = (acc ++ row_letter_cells r k cells, length (acc ++ row_letter_cells r k cells)).
Proof.
  revert k acc; induction cells as [|c cells IH]; intros k acc Hle; simpl.
  - unfold row_letter_cells; simpl. now rewrite app_nil_r.
  - unfold position_cell at 2; cbn [fst snd].
    unfold row_letter_cells, letters_of in *; simpl in *.
    destruct (is_letter c) eqn:Ec; simpl in *.
    + replace (length acc <? length ans) with true
        by (symmetry; apply Nat.ltb_lt; lia).
      replace (S (length acc)) with (length (acc ++ [(r, k)]))
        by (rewrite length_app; simpl; lia).
      rewrite IH by (rewrite length_app; simpl; lia).
      now rewrite <- !app_assoc.
    + now apply IH.
Qed.

Lemma position_row_fold (ans : str) (rows : list str) (r : nat)
  (acc : list (nat * nat)) :
  length acc + length (letters_of (concat rows)) <= length ans ->
  fold_left (position_row ans) (enumerate_from r rows) (acc, length acc)
  = (acc ++ letter_cells_from r rows, length (acc ++ letter_cells_from r rows)).
Proof.
  revert r acc; induction rows as [|row rows IH]; intros r acc Hle; simpl.
  - unfold letter_cells_from; simpl. now rewrite app_nil_r.
  - unfold letters_of in Hle. simpl in Hle. rewrite filter_app, length_app in Hle.
    unfold position_row at 2; cbn [fst snd]. unfold enumerate.
    rewrite position_cell_fold by (unfold letters_of; lia).
    rewrite IH.
    + unfold letter_cells_from; simpl. now rewrite <- !app_assoc.
    + rewrite length_app, row_letter_cells_length. unfold letters_of. lia.
Qed.

(** When the layout holds no more letters than the answer has characters,
    the guard on [letter_idx] never stops the scan. *)
Lemma build_letter_positions_cells (rows : list str) (puzzle_text : str) :
  length (letters_of (concat rows)) <= length (remove_spaces puzzle_text) ->
  _build_letter_positions rows puzzle_text = letter_cells rows.
Proof.
  intros Hle. unfold _build_letter_positions, enumerate.
  change ([], 0) with (@nil (nat * nat), length (@nil (nat * nat))).
  now rewrite position_row_fold.
Qed.

(** *** Counting the letters a row receives *)

Lemma set_nth_count (f : ascii -> bool) (l : str) (n : nat) (v : ascii) :
  length (filter f (set_nth l n v)) <= length (filter f l) + (if f v then 1 else 0).
Proof.
  revert n; induction l as [|x l IH]; intros [|n]; simpl; try lia.
  - destruct (f v), (f x); simpl; lia.
  - specialize (IH n). destruct (f x); simpl; lia.
Qed.

Lemma setitem_count (f : ascii -> bool) (l l' : str) (k : Z) (v : ascii) :
  setitem l k v = OK l' ->
  length (filter f l') <= length (filter f l) + (if f v then 1 else 0).
Proof.
  unfold setitem.
  destruct (_ && _); [intros [= <-]; apply set_nth_count|].
  destruct (_ && _); [intros [= <-]; apply set_nth_count|discriminate].
Qed.

Lemma place_chars_count (f : ascii -> bool) (left_pad : Z) (ics : list (nat * ascii))
  (row row' : str) :
  for_each (place_char left_pad) ics row = OK row' ->
  length (filter f row') <= length (filter f row) + length (filter f (map snd ics)).
Proof.
  revert row; induction ics as [|ic ics IH]; intros row; simpl.
  - intros [= <-]; lia.
  - destruct (place_char left_pad row ic) as [row1|e] eqn:E; simpl; [|discriminate].
    intros H. apply IH in H. apply (setitem_count f) in E.
    destruct (f (snd ic)); simpl; lia.
Qed.

Lemma enumerate_from_snd {A : Type} (xs : list A) (k : nat) :
  map snd (enumerate_from k xs) = xs.
Proof. revert k; induction xs; intros; simpl; congruence. Qed.

Lemma repeat_block_letters (n : nat) : letters_of (repeat BLOCK n) = [].
Proof. induction n; simpl; auto. Qed.

Lemma center_line_count (line_chars row : str) :
  center_line line_chars = OK row ->
  length (letters_of row) <= length (letters_of line_chars).
Proof.
  unfold center_line, enumerate. intros H.
  apply (place_chars_count is_letter) in H.
  rewrite enumerate_from_snd in H.
  fold (letters_of (repeat BLOCK GRID_COLS)) in H.
  rewrite repeat_block_letters in H. exact H.
Qed.

Lemma append_rows_count (ls acc rows : list str) :
  for_each append_row ls acc = OK rows ->
  length (letters_of (concat rows))
  <= length (letters_of (concat acc)) + length (letters_of (concat ls)).
Proof.
  revert acc; induction ls as [|l ls IH]; intros acc; simpl.
  - intros [= <-]; lia.
  - unfold append_row at 1.
    destruct (center_line l) as [row|e] eqn:E; simpl; [|discriminate].
    intros H. apply IH in H. apply center_line_count in E.
    unfold letters_of in *.
    rewrite concat_app, !filter_app, !length_app in *. simpl in H.
    rewrite app_nil_r in H. lia.
Qed.

Lemma is_letter_block : is_letter BLOCK = false.
Proof. reflexivity. Qed.

(** A built layout never holds more letters than the answer. *)
Lemma build_grid_count (puzzle_text : str) (rows : list str) :
  _build_grid puzzle_text = OK rows ->
  length (letters_of (concat rows)) <= length (letters_of (remove_spaces puzzle_text)).
Proof.
  intros H. apply append_rows_count in H. simpl in H.
  unfold letters_of in *.
  now rewrite (build_lines_filter is_letter _ is_letter_block) in H.
Qed.

Lemma frame_line_letters (l : str) : letters_of (frame_line l) = letters_of l.
Proof.
  unfold frame_line, letters_of. rewrite !filter_app.
  fold (letters_of (repeat BLOCK (left_pad_of l))).
  fold (letters_of (repeat BLOCK (GRID_COLS - left_pad_of l - length l))).
  now rewrite !repeat_block_letters, app_nil_r.
Qed.

Lemma framed_lines_letters (ls : list str) :
  letters_of (concat (map frame_line ls)) = letters_of (concat ls).
Proof.
  unfold letters_of. induction ls as [|l ls IH]; simpl; [reflexivity|].
  rewrite !filter_app, IH. f_equal. apply frame_line_letters.
Qed.

(** ** The placement simulator *)

Lemma enumerate_from_In {A : Type} (xs : list A) (k i : nat) (x : A) :
  In (i, x) (enumerate_from k xs) -> k <= i /\ nth_error xs (i - k) = Some x.
Proof.
  revert k; induction xs as [|a xs IH]; intros k; simpl; [tauto|].
  intros [[= -> ->]|H].
  - rewrite Nat.sub_diag. auto.
  - apply IH in H as [Hle Hn]. split; [lia|].
    replace (i - k) with (S (i - S k)) by lia. exact Hn.
Qed.

Lemma enumerate_from_nth {A : Type} (xs : list A) (k i : nat) (x : A) :
  nth_error xs i = Some x -> In (k + i, x) (enumerate_from k xs).
Proof.
  revert k i; induction xs as [|a xs IH]; intros k [|i]; simpl; try discriminate.
  - intros [= ->]. left. f_equal. lia.
  - intros H. right. replace (k + S i) with (S k + i) by lia. now apply IH.
Qed.

Lemma already_used_In (used : list (nat * nat)) (col i : nat) :
  already_used used col i = true <-> In (col, i) used.
Proof.
  unfold already_used. rewrite existsb_exists. split.
  - intros ([c j] & Hin & H). simpl in H.
    apply andb_true_iff in H as [H1 H2].
    apply Nat.eqb_eq in H1, H2. now subst.
  - intros H. exists (col, i). split; [exact H|]. simpl.
    now rewrite !Nat.eqb_refl.
Qed.

Lemma already_used_not_In (used : list (nat * nat)) (col i : nat) :
  already_used used col i = false <-> ~ In (col, i) used.
Proof.
  rewrite <- already_used_In. destruct (already_used used col i); split; congruence.
Qed.

Lemma find_supply_Some (used : list (nat * nat)) (col : nat) (column : str)
  (ch : ascii) (i : nat) :
  find_supply used col column ch = Some i ->
  nth_error column i = Some ch /\ ~ In (col, i) used.
Proof.
  unfold find_supply.
  destruct (find _ _) as [[j c]|] eqn:E; simpl; [|discriminate].
  intros [= ->]. apply find_some in E as [Hin Hp]. simpl in Hp.
  apply andb_true_iff in Hp as [Hu Hc].
  apply negb_true_iff, already_used_not_In in Hu.
  apply Ascii.eqb_eq in Hc. subst c.
  apply enumerate_from_In in Hin as [_ Hn]. rewrite Nat.sub_0_r in Hn. auto.
Qed.

Lemma find_supply_None (used : list (nat * nat)) (col : nat) (column : str)
  (ch : ascii) :
  find_supply used col column ch = None ->
  forall i, nth_error column i = Some ch -> In (col, i) used.
Proof.
  unfold find_supply.
  destruct (find _ _) as [[j c]|] eqn:E; simpl; [discriminate|].
  intros _ i Hn. apply (enumerate_from_nth _ 0) in Hn.
  apply (find_none _ _ E) in Hn. simpl in Hn.
  rewrite Ascii.eqb_refl, andb_true_r in Hn.
  apply negb_false_iff, already_used_In in Hn. exact Hn.
Qed.

Lemma mark_used_cases (st : GameState) (col : nat) (ch : ascii) :
  ((forall i, ~ unused_occurrence st col ch i)
   /\ mark_used st col ch = used_supply_indices st)
  \/ (exists i, unused_occurrence st col ch i
      /\ mark_used st col ch = used_supply_indices st ++ [(col, i)]).
Proof.
  unfold mark_used, unused_occurrence.
  destruct (nth_error (supply st) col) as [column|] eqn:Ecol.
  - destruct (find_supply _ _ _ _) as [i|] eqn:Ef.
    + right. exists i. apply find_supply_Some in Ef as [Hn Hu].
      split; [exists column|]; auto.
    + left. split; [|reflexivity].
      intros i (column' & [= <-] & Hn & Hu).
      apply Hu. eapply find_supply_None; eauto.
  - left. split; [|reflexivity]. intros i (column' & Hc & _). discriminate.
Qed.

Lemma mark_used_NoDup (st : GameState) (col : nat) (ch : ascii) :
  NoDup (used_supply_indices st) -> NoDup (mark_used st col ch).
Proof.
  intros Hnd. destruct (mark_used_cases st col ch) as [[_ ->]|(i & Hocc & ->)];
    [exact Hnd|].
  destruct Hocc as (column & _ & _ & Hu).
  apply NoDup_app; [exact Hnd|repeat constructor; intros []|].
  intros a Ha [<-|[]]. contradiction.
Qed.

Lemma place_next_letter_done (st : GameState) :
  length (letter_positions st) <= placed_count st ->
  place_next_letter st = OK (false, st).
Proof.
  intros H. unfold place_next_letter.
  apply Nat.leb_le in H. now rewrite H.
Qed.

Lemma place_next_letter_step (st : GameState) (rc : nat * nat) (ch : ascii) :
  nth_error (letter_positions st) (placed_count st) = Some rc ->
  nth_error (remove_spaces (answer (quote st))) (placed_count st) = Some ch ->
  place_next_letter st = OK (true, placed st (snd rc) ch).
Proof.
  intros Hrc Hch. unfold place_next_letter, getitem.
  assert (Hlt : placed_count st < length (letter_positions st))
    by (apply nth_error_Some; congruence).
  apply Nat.leb_gt in Hlt. rewrite Hlt, Hrc. simpl. rewrite Hch. reflexivity.
Qed.

Lemma firstn_snoc {A : Type} (l : list A) (n : nat) (x : A) :
  nth_error l n = Some x -> firstn (n + 1) l = firstn n l ++ [x].
Proof.
  revert n; induction l as [|a l IH]; intros [|n]; simpl; try discriminate.
  - now intros [= ->].
  - intros H. f_equal. now apply IH.
Qed.

Lemma placed_consistent (st : GameState) (rc : nat * nat) (ch : ascii) :
  consistent st ->
  nth_error (letter_positions st) (placed_count st) = Some rc ->
  nth_error (remove_spaces (answer (quote st))) (placed_count st) = Some ch ->
  consistent (placed st (snd rc) ch).
Proof.
  intros (Hans & Hpc & Hpl & Hnd & Hlen) Hrc Hch.
  assert (Hlt : placed_count st < length (letter_positions st))
    by (apply nth_error_Some; congruence).
  unfold consistent, placed; cbn.
  repeat split.
  - exact Hans.
  - lia.
  - rewrite Hpl. symmetry. now apply firstn_snoc.
  - now apply mark_used_NoDup.
  - destruct (mark_used_cases st (snd rc) ch) as [[_ ->]|(i & _ & ->)];
      rewrite ?length_app; simpl; lia.
Qed.

(** A step never raises from a consistent state. *)
Lemma place_next_letter_total (st : GameState) :
  consistent st ->
  (length (letter_positions st) <= placed_count st
   /\ place_next_letter st = OK (false, st))
  \/ (exists rc ch,
        nth_error (letter_positions st) (placed_count st) = Some rc
        /\ nth_error (remove_spaces (answer (quote st))) (placed_count st) = Some ch
        /\ place_next_letter st = OK (true, placed st (snd rc) ch)).
Proof.
  intros Hc. destruct (Nat.le_gt_cases (length (letter_positions st)) (placed_count st))
    as [Hge|Hlt].
  - left. split; [exact Hge|]. now apply place_next_letter_done.
  - right. destruct Hc as (Hans & _).
    destruct (nth_error (letter_positions st) (placed_count st)) as [rc|] eqn:Erc;
      [|apply nth_error_None in Erc; lia].
    destruct (nth_error (remove_spaces (answer (quote st))) (placed_count st))
      as [ch|] eqn:Ech; [|apply nth_error_None in Ech; lia].
    exists rc, ch. repeat split. now apply place_next_letter_step.
Qed.

Lemma run_consistent (st0 : GameState) (n : nat) :
  consistent st0 ->
  exists st,
    run n st0 = OK st /\ consistent st /\ same_puzzle st0 st
    /\ placed_count st = Nat.min (placed_count st0 + n) (length (letter_positions st0)).
Proof.
  intros H0. induction n as [|n (st & Hrun & Hc & Hsame & Hpc)]; cbn [run].
  - exists st0. split; [reflexivity|]. split; [exact H0|].
    split; [now repeat split|].
    destruct H0 as (_ & Hle & _). lia.
  - rewrite Hrun; cbn [bind].
    destruct Hsame as (Hq & Hr & Hs & Hlp).
    destruct (place_next_letter_total st Hc) as [[Hge ->]|(rc & ch & Hrc & Hch & ->)];
      simpl.
    + exists st. split; [reflexivity|]. split; [exact Hc|].
      split; [now repeat split|]. rewrite Hlp in Hge. lia.
    + exists (placed st (snd rc) ch). split; [reflexivity|].
      split; [now apply placed_consistent|].
      split; [now repeat split|].
      assert (placed_count st < length (letter_positions st))
        by (apply nth_error_Some; congruence).
      cbn. rewrite Hlp in *. lia.
Qed.

(** *** The state [GameState.__init__] leaves *)

Lemma filter_length_le {A : Type} (f : A -> bool) (l : list A) :
  length (filter f l) <= length l.
Proof. induction l as [|x l IH]; simpl; [lia|]. destruct (f x); simpl; lia. Qed.

Lemma fresh_letter_positions (st : GameState) :
  fresh st -> letter_positions st = letter_cells (rows st).
Proof.
  intros (Hgrid & Hlp & _). rewrite Hlp.
  apply build_letter_positions_cells.
  apply build_grid_count in Hgrid.
  pose proof (filter_length_le is_letter (remove_spaces (answer (quote st)))).
  unfold letters_of in *. lia.
Qed.

Lemma fresh_consistent (st : GameState) : fresh st -> consistent st.
Proof.
  intros Hf. pose proof (fresh_letter_positions st Hf) as Hcells.
  destruct Hf as (Hgrid & Hlp & Hpl & Hpc & Hus).
  unfold consistent. rewrite Hpl, Hpc, Hus, Hcells. simpl.
  repeat split; try lia; try constructor.
  unfold letter_cells. rewrite letter_cells_from_length.
  apply build_grid_count in Hgrid.
  pose proof (filter_length_le is_letter (remove_spaces (answer (quote st)))).
  unfold letters_of in *. lia.
Qed.

(** *** Positions are pairwise distinct *)

Lemma row_letter_cells_In (r k : nat) (row : str) (p : nat * nat) :
  In p (row_letter_cells r k row) -> fst p = r /\ k <= snd p.
Proof.
  unfold row_letter_cells. rewrite in_map_iff.
  intros ([i c] & <- & Hin). apply filter_In in Hin as [Hin _].
  apply enumerate_from_In in Hin as [Hle _]. auto.
Qed.

Lemma row_letter_cells_NoDup (r k : nat) (row : str) :
  NoDup (row_letter_cells r k row).
Proof.
  revert k; induction row as [|c row IH]; intros k; [constructor|].
  unfold row_letter_cells. simpl.
  destruct (is_letter c); simpl; [|apply IH].
  constructor; [|apply IH].
  intros Hin. apply row_letter_cells_In in Hin as [_ Hle]. simpl in Hle. lia.
Qed.

Lemma letter_cells_from_In (r : nat) (rows : list str) (p : nat * nat) :
  In p (letter_cells_from r rows) -> r <= fst p.
Proof.
  unfold letter_cells_from.
  revert r; induction rows as [|row rows IH]; intros r; simpl; [tauto|].
  rewrite in_app_iff. intros [H|H].
  - apply row_letter_cells_In in H as [-> _]. lia.
  - apply IH in H. lia.
Qed.

Lemma letter_cells_from_NoDup (r : nat) (rows : list str) :
  NoDup (letter_cells_from r rows).
Proof.
  revert r; induction rows as [|row rows IH]; intros r; [constructor|].
  unfold letter_cells_from. simpl. apply NoDup_app.
  - apply row_letter_cells_NoDup.
  - apply IH.
  - intros p H1 H2. apply row_letter_cells_In in H1 as [H1 _].
    apply letter_cells_from_In in H2. lia.
Qed.

Lemma index_of_nth (l : list (nat * nat)) (i : nat) (p : nat * nat) :
  NoDup l -> nth_error l i = Some p -> index_of p l = Some i.
Proof.
  revert i; induction l as [|x l IH]; intros [|i] Hnd; simpl; try discriminate.
  - intros [= ->]. now rewrite !Nat.eqb_refl.
  - intros Hn. inversion Hnd as [|? ? Hx Hl]; subst.
    destruct ((fst x =? fst p) && (snd x =? snd p)) eqn:E.
    + apply andb_true_iff in E as [E1 E2]. apply Nat.eqb_eq in E1, E2.
      exfalso. apply Hx. apply nth_error_In in Hn.
      destruct x, p; simpl in *; now subst.
    + now rewrite (IH i Hl Hn).
Qed.

(** After [i + 1] steps the grid shows, at the [i]-th letter position, the
    [i]-th character of the answer without its spaces. *)
Lemma shown_after_steps (st0 : GameState) (i : nat) (rc : nat * nat) :
  fresh st0 ->
  nth_error (letter_positions st0) i = Some rc ->
  exists st ch,
    run (S i) st0 = OK st
    /\ nth_error (remove_spaces (answer (quote st0))) i = Some ch
    /\ get_letter_at_position st (fst rc) (snd rc) = Some ch.
Proof.
  intros Hf Hrc. destruct rc as [r c]. cbn [fst snd].
  pose proof (fresh_letter_positions st0 Hf) as Hcells.
  pose proof (fresh_consistent st0 Hf) as Hc0.
  destruct (run_consistent st0 (S i) Hc0)
    as (st & Hrun & (Hans & _ & Hpl & _) & (Hq & _ & _ & Hlp) & Hpc).
  assert (Hi : i < length (letter_positions st0)) by (apply nth_error_Some; congruence).
  destruct Hf as (_ & _ & _ & Hpc0 & _).
  rewrite Hpc0 in Hpc. simpl Nat.add in Hpc. rewrite Nat.min_l in Hpc by lia.
  rewrite Hq, Hlp in Hans. rewrite Hq in Hpl.
  destruct (nth_error (remove_spaces (answer (quote st0))) i) as [ch|] eqn:Ech;
    [|apply nth_error_None in Ech; lia].
  exists st, ch. split; [exact Hrun|]. split; [reflexivity|].
  unfold get_letter_at_position. rewrite Hlp.
  rewrite (index_of_nth _ i (r, c)); [|rewrite Hcells; apply letter_cells_from_NoDup|].
  - rewrite Hpl, Hpc, length_firstn, Nat.min_l by lia.
    replace (i <? S i) with true by (symmetry; apply Nat.ltb_lt; lia). simpl andb.
    rewrite nth_error_firstn.
    replace (i <? S i) with true by (symmetry; apply Nat.ltb_lt; lia).
    exact Ech.
  - exact Hrc.
Qed.

(** ** The supply before the shuffle *)

Lemma nth_set_nth {A : Type} (l : list A) (k c : nat) (v d : A) :
  k < length l ->
  nth c (set_nth l k v) d = if c =? k then v else nth c l d.
Proof.
  revert k c; induction l as [|x l IH]; intros [|k] [|c] Hk; simpl in *;
    try lia; try reflexivity.
  apply IH. lia.
Qed.

Lemma supply_append_spec (supply : list str) (c : nat) (ch : ascii) :
  c < length supply ->
  supply_append supply c ch = OK (set_nth supply c (nth c supply [] ++ [ch])).
Proof.
  intros Hc. unfold supply_append, getitem.
  destruct (nth_error supply c) as [col|] eqn:E.
  - simpl. now rewrite (nth_error_nth _ _ _ E).
  - apply nth_error_None in E. lia.
Qed.

Lemma cells_for_cons (k : nat) (ch : ascii) (cells : str) (c : nat) :
  cells_for k (ch :: cells) c
  = (if (c =? k) && is_letter ch then [ch] else []) ++ cells_for (S k) cells c.
Proof.
  unfold cells_for.
  destruct (Nat.lt_trichotomy c k) as [Hlt|[->|Hgt]].
  - replace (k <=? c) with false by (symmetry; apply Nat.leb_gt; lia).
    replace (S k <=? c) with false by (symmetry; apply Nat.leb_gt; lia).
    replace (c =? k) with false by (symmetry; apply Nat.eqb_neq; lia).
    simpl. destruct (nth_error _ _), (nth_error _ _); reflexivity.
  - rewrite Nat.sub_diag, Nat.eqb_refl, Nat.leb_refl.
    replace (S k <=? k) with false by (symmetry; apply Nat.leb_gt; lia).
    simpl. destruct (is_letter ch), (nth_error _ _); reflexivity.
  - replace (c - k) with (S (c - S k)) by lia.
    replace (k <=? c) with true by (symmetry; apply Nat.leb_le; lia).
    replace (S k <=? c) with true by (symmetry; apply Nat.leb_le; lia).
    replace (c =? k) with false by (symmetry; apply Nat.eqb_neq; lia).
    reflexivity.
Qed.

Lemma supply_cells_spec (cells : str) (k : nat) (supply : list str) :
  k + length cells <= length supply ->
  exists supply',
    for_each supply_cell (enumerate_from k cells) supply = OK supply'
    /\ length supply' = length supply
    /\ forall c, nth c supply' [] = nth c supply [] ++ cells_for k cells c.
Proof.
  revert k supply; induction cells as [|ch cells IH]; intros k supply Hk; simpl.
  - exists supply. repeat split. intros c. unfold cells_for.
    destruct (c - k); simpl; now rewrite app_nil_r.
  - simpl in Hk. unfold supply_cell at 1; cbn [fst snd].
    destruct (is_letter ch) eqn:El.
    + rewrite supply_append_spec by lia. simpl.
      destruct (IH (S k) (set_nth supply k (nth k supply [] ++ [ch])))
        as (supply' & Hrun & Hlen & Hnth); [rewrite set_nth_length; lia|].
      exists supply'. split; [exact Hrun|]. rewrite set_nth_length in Hlen.
      split; [exact Hlen|]. intros c.
      rewrite Hnth, cells_for_cons, El, andb_true_r, nth_set_nth by lia.
      destruct (c =? k) eqn:E; [apply Nat.eqb_eq in E; subst|];
        now rewrite <- ?app_assoc.
    + destruct (IH (S k) supply) as (supply' & Hrun & Hlen & Hnth); [lia|].
      exists supply'. split; [exact Hrun|]. split; [exact Hlen|]. intros c.
      now rewrite Hnth, cells_for_cons, El, andb_false_r.
Qed.

Lemma cells_for_0 (row : str) (c : nat) :
  cells_for 0 row c = match nth_error row c with
                      | Some ch => if is_letter ch then [ch] else []
                      | None => []
                      end.
Proof. unfold cells_for. now rewrite Nat.sub_0_r. Qed.

Lemma supply_rows_spec (rows : list str) (r : nat) (supply : list str) :
  Forall (fun row => length row <= length supply) rows ->
  exists supply',
    for_each supply_row (enumerate_from r rows) supply = OK supply'
    /\ length supply' = length supply
    /\ forall c, nth c supply' [] = nth c supply [] ++ column_letters c rows.
Proof.
  intros Hrows; revert r supply Hrows.
  induction rows as [|row rows IH]; intros r supply Hrows; simpl.
  - exists supply. repeat split. intros c. now rewrite app_nil_r.
  - inversion Hrows as [|? ? Hrow Hrest]; subst.
    unfold supply_row at 1; cbn [snd]. unfold enumerate.
    destruct (supply_cells_spec row 0 supply) as (s1 & Hrun1 & Hlen1 & Hnth1);
      [simpl; lia|].
    rewrite Hrun1; simpl.
    destruct (IH (S r) s1) as (s2 & Hrun2 & Hlen2 & Hnth2);
      [now rewrite Hlen1|].
    exists s2. split; [exact Hrun2|]. split; [congruence|]. intros c.
    now rewrite Hnth2, Hnth1, cells_for_0, <- app_assoc.
Qed.

(** On rows no wider than the grid the scan ends, and column [c] holds the
    letters of column [c] of the layout in scan order. *)
Lemma collect_supply_spec (rows : list str) :
  Forall (fun row => length row <= GRID_COLS) rows ->
  exists columns,
    collect_supply rows = OK columns
    /\ length columns = GRID_COLS
    /\ forall c, nth c columns [] = column_letters c rows.
Proof.
  intros Hrows. unfold collect_supply, enumerate.
  destruct (supply_rows_spec rows 0 (repeat [] GRID_COLS))
    as (columns & Hrun & Hlen & Hnth); [now rewrite repeat_length|].
  exists columns. split; [exact Hrun|]. rewrite repeat_length in Hlen.
  split; [exact Hlen|]. intros c. rewrite Hnth.
  pose proof (nth_repeat (@nil ascii) GRID_COLS c) as E.
  unfold str in *. now rewrite E.
Qed.

(** ** The shuffle *)

Lemma nth_error_set_nth {A : Type} (l : list A) (k c : nat) (v : A) :
  k < length l ->
  nth_error (set_nth l k v) c = if c =? k then Some v else nth_error l c.
Proof.
  revert k c; induction l as [|x l IH]; intros [|k] [|c] Hk; simpl in *;
    try lia; try reflexivity.
  apply IH. lia.
Qed.

Lemma transpose_injective (i j : nat) : Finite.Injective (transpose i j).
Proof.
  intros x y. unfold transpose.
  destruct (x =? j) eqn:E1, (x =? i) eqn:E2, (y =? j) eqn:E3, (y =? i) eqn:E4;
    rewrite ?Nat.eqb_eq, ?Nat.eqb_neq in *; lia.
Qed.

Section Shuffle.

Context {R : PyRandom}.

Lemma swap_spec {A : Type} (x : list A) (i j : nat) :
  i < length x -> j < length x ->
  exists x', swap x i j = OK x' /\ Permutation x x'.
Proof.
  intros Hi Hj. unfold swap, getitem.
  destruct (nth_error x j) as [b|] eqn:Ej; [|apply nth_error_None in Ej; lia].
  destruct (nth_error x i) as [a|] eqn:Ei; [|apply nth_error_None in Ei; lia].
  simpl. eexists; split; [reflexivity|].
  apply Permutation_nth_error. split; [now rewrite !set_nth_length|].
  exists (transpose i j). split; [apply transpose_injective|].
  intros n. rewrite !nth_error_set_nth by (rewrite ?set_nth_length; lia).
  unfold transpose.
  destruct (n =? j) eqn:E1; [now rewrite Ei|].
  destruct (n =? i) eqn:E2; [now rewrite Ej|reflexivity].
Qed.

Lemma shuffle_from_spec {A : Type} (i : nat) (x : list A) (g : gen) :
  i < length x \/ i = 0 ->
  exists x' g', shuffle_from i x g = OK (x', g') /\ Permutation x x'.
Proof.
  revert x g; induction i as [|i IH]; intros x g Hi; cbn [shuffle_from].
  - exists x, g. split; [reflexivity|apply Permutation_refl].
  - destruct Hi as [Hi|Hi]; [|discriminate].
    pose proof (randbelow_lt (S i + 1) g ltac:(lia)) as Hj.
    destruct (swap_spec x (S i) (fst (randbelow (S i + 1) g))) as (x1 & -> & Hp1);
      [lia|lia|].
    cbn [bind].
    destruct (IH x1 (snd (randbelow (S i + 1) g))) as (x' & g' & -> & Hp2).
    { left. rewrite <- (Permutation_length Hp1). lia. }
    exists x', g'. split; [reflexivity|]. eapply Permutation_trans; eauto.
Qed.

(** [random.shuffle] returns, with a permutation of its argument. *)
Lemma shuffle_spec {A : Type} (x : list A) (g : gen) :
  exists x' g', shuffle x g = OK (x', g') /\ Permutation x x'.
Proof.
  unfold shuffle. apply shuffle_from_spec.
  destruct x; simpl; [right; reflexivity|left; lia].
Qed.

Lemma shuffle_columns_spec (cols : list str) (g : gen) :
  exists cols' g',
    shuffle_columns cols g = OK (cols', g')
    /\ Forall2 (@Permutation ascii) cols cols'.
Proof.
  revert g; induction cols as [|col cols IH]; intros g; cbn [shuffle_columns].
  - exists [], g. split; [reflexivity|constructor].
  - destruct (shuffle_spec col g) as (col' & g1 & -> & Hp). cbn [bind fst snd].
    destruct (IH g1) as (cols' & g2 & -> & Hps). cbn [bind fst snd].
    exists (col' :: cols'), g2. split; [reflexivity|]. now constructor.
Qed.

Lemma Forall2_nth_Permutation (cols cols' : list str) (c : nat) :
  Forall2 (@Permutation ascii) cols cols' ->
  Permutation (nth c cols []) (nth c cols' []).
Proof.
  intros H; revert c; induction H as [|x y l l' Hxy Hl IH]; intros [|c]; simpl;
    auto.
Qed.

(** The supply of a layout: built without error, [GRID_COLS] columns, each
    a permutation of the letters of its column of the layout. *)
Lemma build_supply_spec (rows : list str) (quote_id : Z) (g0 : gen) :
  Forall (fun row => length row <= GRID_COLS) rows ->
  exists supply g,
    _build_supply rows quote_id g0 = OK (supply, g)
    /\ length supply = GRID_COLS
    /\ forall c, Permutation (column_letters c rows) (nth c supply []).
Proof.
  intros Hrows. unfold _build_supply.
  destruct (collect_supply_spec rows Hrows) as (columns & -> & Hlen & Hnth).
  cbn [bind].
  destruct (shuffle_columns_spec columns (seed quote_id)) as (supply & g & -> & Hp).
  exists supply, g. split; [reflexivity|]. split.
  - rewrite <- Hlen. symmetry. eapply Forall2_length; eauto.
  - intros c. rewrite <- Hnth. now apply Forall2_nth_Permutation.
Qed.


Lemma GameState_init_fresh (q : Quote) (g0 : gen) (st : GameState) (g : gen) :
  GameState_init q g0 = OK (st, g) ->
  fresh st /\ quote st = q
  /\ _build_supply (rows st) (id q) g0 = OK (supply st, g).
Proof.
  unfold GameState_init.
  destruct (_build_grid (answer q)) as [rows|e] eqn:Hgrid; cbn [bind]; [|discriminate].
  destruct (_build_supply rows (id q) g0) as [[supply g1]|e] eqn:Hs; cbn [bind fst snd];
    [|discriminate].
  intros [= <- <-]. unfold fresh. cbn. repeat split; auto.
Qed.

End Shuffle.

(** ** Reading the answer back from the layout *)

Lemma split_space_nonempty (s : str) : split_space s <> [].
Proof.
  destruct s as [|c s]; simpl; [discriminate|].
  destruct (Ascii.eqb c " "); [discriminate|].
  destruct (split_space s); discriminate.
Qed.

Lemma split_space_join (s : str) : join_space (split_space s) = s.
Proof.
  induction s as [|c s IH]; [reflexivity|].
  pose proof (split_space_nonempty s) as Hne.
  cbn [split_space]. destruct (Ascii.eqb c " ") eqn:E.
  - apply Ascii.eqb_eq in E. subst c.
    destruct (split_space s) as [|w ws]; [contradiction|].
    cbn [join_space app] in *. now rewrite IH.
  - destruct (split_space s) as [|w ws]; [contradiction|].
    cbn [join_space] in *. destruct ws; simpl; now rewrite <- IH.
Qed.

Lemma join_space_cons (w : str) (ws : list str) :
  join_space (w :: ws) = w ++ concat (map (fun w' => " "%char :: w') ws).
Proof.
  revert w; induction ws as [|v ws IH]; intros w.
  - simpl. now rewrite app_nil_r.
  - change (join_space (w :: v :: ws)) with (w ++ " "%char :: join_space (v :: ws)).
    now rewrite IH.
Qed.

Lemma join_space_snoc (pieces : list str) (w : str) :
  pieces <> [] -> join_space (pieces ++ [w]) = join_space pieces ++ " "%char :: w.
Proof.
  induction pieces as [|x rest IH]; intros Hne; [contradiction|].
  destruct rest as [|y rest]; [reflexivity|].
  change ((x :: y :: rest) ++ [w]) with (x :: ((y :: rest) ++ [w])).
  cbn [join_space app]. cbn [join_space app] in IH.
  rewrite IH by discriminate. now rewrite <- app_assoc.
Qed.

Lemma join_space_snoc_app (pieces : list str) (x y : str) :
  join_space (pieces ++ [x ++ y]) = join_space (pieces ++ [x]) ++ y.
Proof.
  destruct pieces as [|p rest]; [reflexivity|].
  rewrite !join_space_snoc by discriminate.
  now rewrite <- app_assoc, app_comm_cons.
Qed.

Lemma unblock_id (w : str) :
  Forall (fun c => Ascii.eqb c BLOCK = false) w -> map unblock w = w.
Proof.
  induction 1 as [|c w Hc Hw IH]; simpl; [reflexivity|].
  unfold unblock at 1. now rewrite Hc, IH.
Qed.

Lemma head_solid_app (x y : str) : head_solid x -> head_solid (x ++ y).
Proof. destruct x; simpl; [intros []|auto]. Qed.

Lemma word_solid (w : str) :
  w <> [] -> Forall (fun c => Ascii.eqb c BLOCK = false) w -> solid w.
Proof.
  intros Hne Hw. split.
  - destruct w as [|c w]; [contradiction|]. now inversion Hw.
  - apply Forall_rev in Hw. destruct (rev w) as [|c r] eqn:E.
    + apply (f_equal (@rev ascii)) in E. rewrite rev_involutive in E. contradiction.
    + now inversion Hw.
Qed.

Lemma wrap_join (ws : list str) (st : wrap) :
  Forall plain_word ws ->
  current_line st <> [] ->
  join_space (map (map unblock) (close_lines (fold_left wrap_word ws st)))
  = join_space (map (map unblock) (lines st ++ [current_line st]))
    ++ concat (map (fun w => " "%char :: w) ws).
Proof.
  intros Hws; revert st; induction Hws as [|w ws [Hne Hw] Hws IH]; intros st Hcur;
    cbn [fold_left].
  - unfold close_lines. destruct (current_line st); [contradiction|].
    simpl. now rewrite app_nil_r.
  - destruct w as [|c w]; [contradiction|].
    destruct (current_line st) as [|d l] eqn:El; [contradiction|].
    unfold wrap_word. rewrite El.
    destruct (_ <=? GRID_COLS).
    + rewrite IH by (cbn; destruct l; discriminate).
      cbn [lines current_line map concat].
      rewrite !map_app, <- !app_assoc. cbn [map].
      rewrite !map_app. cbn [map].
      change (unblock c :: map unblock w) with (map unblock (c :: w)).
      rewrite (unblock_id (c :: w) Hw).
      change (unblock BLOCK) with " "%char.
      rewrite join_space_snoc_app. rewrite <- app_assoc. reflexivity.
    + rewrite IH by (cbn; discriminate).
      cbn [lines current_line map concat].
      rewrite (map_app _ (lines st ++ [d :: l])).
      change (map (map unblock) [c :: w]) with [map unblock (c :: w)].
      rewrite (unblock_id (c :: w) Hw).
      rewrite join_space_snoc, <- app_assoc; [reflexivity|].
      rewrite map_app. intros H. apply app_eq_nil in H as [_ H]. discriminate.
Qed.

Lemma wrap_solid (ws : list str) (st : wrap) :
  Forall plain_word ws ->
  Forall solid (lines st) ->
  solid (current_line st) ->
  Forall solid (close_lines (fold_left wrap_word ws st)).
Proof.
  intros Hws; revert st; induction Hws as [|w ws [Hne Hw] Hws IH]; intros st Hl Hcur;
    cbn [fold_left].
  - unfold close_lines. destruct (current_line st) eqn:E; [exact Hl|].
    apply Forall_app; split; [exact Hl|]. constructor; [exact Hcur|constructor].
  - destruct w as [|c w]; [contradiction|].
    pose proof (word_solid (c :: w) Hne Hw) as Hsw.
    destruct (current_line st) as [|d l] eqn:El; [destruct Hcur as [[] _]|].
    unfold wrap_word. rewrite El.
    destruct (_ <=? GRID_COLS); apply IH; cbn [lines current_line]; auto.
    + destruct Hcur as [H1 H2], Hsw as [H3 H4]. split.
      * rewrite <- app_assoc. now apply head_solid_app.
      * rewrite !rev_app_distr. now apply head_solid_app.
    + apply Forall_app; split; [exact Hl|]. constructor; [exact Hcur|constructor].
Qed.

Lemma ltrim_blocks_repeat (n : nat) (x : str) :
  ltrim_blocks (repeat BLOCK n ++ x) = ltrim_blocks x.
Proof. induction n; simpl; auto. Qed.

Lemma ltrim_blocks_solid (x : str) : head_solid x -> ltrim_blocks x = x.
Proof. destruct x as [|c x]; simpl; [reflexivity|]. now intros ->. Qed.

Lemma rev_repeat_block (n : nat) : rev (repeat BLOCK n) = repeat BLOCK n.
Proof.
  induction n as [|n IH]; simpl; [reflexivity|].
  rewrite IH. change [BLOCK] with (repeat BLOCK 1).
  rewrite <- repeat_app. now rewrite Nat.add_1_r.
Qed.

Lemma trim_frame_line (l : str) : solid l -> trim_blocks (frame_line l) = l.
Proof.
  intros [Hh Hr]. unfold trim_blocks, frame_line.
  rewrite ltrim_blocks_repeat.
  rewrite (ltrim_blocks_solid (l ++ _)) by now apply head_solid_app.
  rewrite rev_app_distr, rev_repeat_block, ltrim_blocks_repeat.
  rewrite (ltrim_blocks_solid (rev l)) by exact Hr.
  apply rev_involutive.
Qed.

Lemma read_framed_lines (ls : list str) :
  Forall solid ls -> map read_row (map frame_line ls) = map (map unblock) ls.
Proof.
  induction 1 as [|l ls Hl Hls IH]; simpl; [reflexivity|].
  unfold read_row at 1. now rewrite trim_frame_line, IH.
Qed.

Lemma plain_answer_words (a : str) :
  plain_answer a -> Forall plain_word (split_space a) /\ Forall fits (split_space a).
Proof.
  intros [Hws Hnb]. split.
  - apply Forall_forall. intros w Hin.
    rewrite Forall_forall in Hws. split; [now apply Hws|].
    apply Forall_forall. intros c Hc.
    destruct (Ascii.eqb c BLOCK) eqn:E; [|reflexivity].
    apply Ascii.eqb_eq in E. subst c. exfalso. apply Hnb.
    assert (Hcat : In BLOCK (concat (split_space a)))
      by (apply in_concat; eauto).
    rewrite split_space_concat in Hcat.
    now apply filter_In in Hcat.
  - eapply Forall_impl; [|exact Hws]. now intros w [_ H].
Qed.

Lemma build_lines_plain (a : str) :
  plain_answer a ->
  Forall solid (build_lines a)
  /\ join_space (map (map unblock) (build_lines a)) = a.
Proof.
  intros Hp. destruct (plain_answer_words a Hp) as [Hplain Hfit].
  rewrite build_lines_eq.
  pose proof (split_space_join a) as Hjoin.
  pose proof (split_space_nonempty a) as Hnil.
  destruct (split_space a) as [|w ws]; [congruence|].
  inversion Hplain as [|? ? [Hne Hw] Hrest]; subst.
  inversion Hfit as [|? ? Hwfit _]; subst.
  destruct w as [|c w]; [contradiction|].
  cbn [fold_left]. unfold wrap_word at 2 4.
  cbn [current_line current_length lines].
  replace (0 + 0 + length (c :: w) <=? GRID_COLS) with true
    by (symmetry; apply Nat.leb_le; exact Hwfit).
  split.
  - apply wrap_solid; cbn [lines current_line app]; auto.
    now apply word_solid.
  - rewrite wrap_join by (cbn; auto; discriminate).
    cbn [lines current_line app].
    change (map (map unblock) [c :: w]) with [map unblock (c :: w)].
    rewrite (unblock_id (c :: w) Hw).
    symmetry. apply (join_space_cons (c :: w) ws).
Qed.

Lemma filter_all {A : Type} (f : A -> bool) (l : list A) :
  Forall (fun x => f x = true) l -> filter f l = l.
Proof. induction 1 as [|x l Hx Hl IH]; simpl; [reflexivity|]. now rewrite Hx, IH. Qed.

Lemma filter_nothing {A : Type} (f : A -> bool) (l : list A) :
  Forall (fun x => f x = false) l -> filter f l = [].
Proof. induction 1 as [|x l Hx Hl IH]; simpl; [reflexivity|]. now rewrite Hx. Qed.

Lemma filter_none {A : Type} (f : A -> bool) (l : list A) :
  filter f l = [] -> Forall (fun x => f x = false) l.
Proof.
  induction l as [|x l IH]; simpl; [constructor|].
  destruct (f x) eqn:E; [discriminate|]. intros H. constructor; auto.
Qed.

(** Without punctuation in the answer there is none in the layout. *)
Lemma framed_lines_no_punctuation (a : str) :
  Forall (fun c => not_punctuation c = true) a ->
  map (filter not_punctuation) (map frame_line (build_lines a))
  = map frame_line (build_lines a).
Proof.
  intros Ha.
  assert (Hlines : Forall (fun c => in_chars c PUNCTUATION_MARKS = false)
                     (concat (build_lines a))).
  { apply filter_none.
    rewrite (build_lines_filter (fun c => in_chars c PUNCTUATION_MARKS)) by reflexivity.
    apply filter_nothing, Forall_forall. intros c Hc.
    apply filter_In in Hc as [Hc _].
    rewrite Forall_forall in Ha. specialize (Ha c Hc).
    unfold not_punctuation in Ha. now apply negb_true_iff in Ha. }
  induction (build_lines a) as [|l ls IH]; cbn [map]; [reflexivity|].
  cbn [concat] in Hlines. apply Forall_app in Hlines as [Hl Hls].
  rewrite IH by exact Hls. f_equal.
  apply filter_all. unfold frame_line.
  rewrite !Forall_app. repeat split.
  - apply Forall_forall. intros c Hc. apply repeat_spec in Hc. now subst.
  - eapply Forall_impl; [|exact Hl]. intros c Hc. unfold not_punctuation.
    now rewrite Hc.
  - apply Forall_forall. intros c Hc. apply repeat_spec in Hc. now subst.
Qed.

(** ** Signs of the floats of the timeline *)

Module FloatSign.

Import SpecFloat.

Lemma round_aux_nonneg (p e mx ex : Z) (lx : location) :
  sf_nonneg (binary_round_aux p e false mx ex lx) = true.
Proof.
  unfold binary_round_aux.
  destruct (shr_fexp p e mx ex lx) as [mrs' e'].
  destruct (shr_fexp p e _ e' loc_Exact) as [mrs'' e''].
  destruct (shr_m mrs''); [reflexivity| |reflexivity].
  destruct (Z.leb e'' (Z.sub e p)); reflexivity.
Qed.

Lemma round_nonneg (p e : Z) (m : positive) (ex : Z) :
  sf_nonneg (binary_round p e false m ex) = true.
Proof.
  unfold binary_round. destruct (shl_align _ _ _) as [mz ez].
  apply round_aux_nonneg.
Qed.

Lemma normalize_nonneg (p e m ex : Z) :
  (0 <= m)%Z -> sf_nonneg (binary_normalize p e m ex false) = true.
Proof.
  intros Hm. destruct m as [|m|m]; simpl; [reflexivity|apply round_nonneg|lia].
Qed.

Lemma SFmul_nonneg (p e : Z) (x y : spec_float) :
  sf_nonneg x = true -> sf_nonneg y = true -> sf_nonneg (SFmul p e x y) = true.
Proof.
  destruct x as [[]|[]| |[] mx ex], y as [[]|[]| |[] my ey]; simpl;
    try discriminate; try reflexivity.
  intros _ _. apply round_aux_nonneg.
Qed.

Lemma SFadd_nonneg (p e : Z) (x y : spec_float) :
  sf_nonneg x = true -> sf_nonneg y = true -> sf_nonneg (SFadd p e x y) = true.
Proof.
  destruct x as [[]|[]| |[] mx ex], y as [[]|[]| |[] my ey]; simpl;
    try discriminate; try reflexivity.
  intros _ _. apply round_nonneg.
Qed.

Lemma SFdiv_nonneg (p e : Z) (x y : spec_float) :
  sf_nonneg x = true -> sf_nonneg y = true -> sf_nonneg (SFdiv p e x y) = true.
Proof.
  destruct x as [[]|[]| |[] mx ex], y as [[]|[]| |[] my ey]; simpl;
    try discriminate; try reflexivity.
  intros _ _. destruct (SFdiv_core_binary _ _ _ _ _ _) as [[mz ez] lz].
  apply round_aux_nonneg.
Qed.

Lemma SFltb_zero_nonneg (y : spec_float) :
  SFltb (S754_zero false) y = true -> sf_nonneg y = true.
Proof. destruct y as [[]|[]| |[] my ey]; simpl; try discriminate; reflexivity. Qed.

Lemma mul_nonneg (x y : float) : float_nonneg x -> float_nonneg y -> float_nonneg (x * y)%float.
Proof. unfold float_nonneg. rewrite FloatAxioms.mul_spec. apply SFmul_nonneg. Qed.

Lemma add_nonneg (x y : float) : float_nonneg x -> float_nonneg y -> float_nonneg (x + y)%float.
Proof. unfold float_nonneg. rewrite FloatAxioms.add_spec. apply SFadd_nonneg. Qed.

Lemma div_nonneg (x y : float) : float_nonneg x -> float_nonneg y -> float_nonneg (x / y)%float.
Proof. unfold float_nonneg. rewrite FloatAxioms.div_spec. apply SFdiv_nonneg. Qed.

Lemma ltb_zero_nonneg (y : float) : PrimFloat.ltb 0%float y = true -> float_nonneg y.
Proof.
  unfold float_nonneg. rewrite FloatAxioms.ltb_spec.
  change (Prim2SF 0%float) with (S754_zero false).
  apply SFltb_zero_nonneg.
Qed.

Lemma float_of_nat_nonneg (n : nat) : float_nonneg (float_of_nat n).
Proof.
  unfold float_nonneg, float_of_nat. rewrite FloatAxioms.of_uint63_spec.
  apply normalize_nonneg. apply Uint63.to_Z_bounded.
Qed.

Lemma fmax_zero_nonneg (x : float) : float_nonneg (fmax 0%float x).
Proof.
  unfold fmax. destruct (PrimFloat.ltb 0%float x) eqn:E.
  - now apply ltb_zero_nonneg.
  - reflexivity.
Qed.

Lemma fmin_nonneg (x y : float) : float_nonneg x -> float_nonneg y -> float_nonneg (fmin x y).
Proof. unfold fmin. destruct (PrimFloat.ltb y x); auto. Qed.

(** [int] of a float whose sign bit is clear is not negative. *)
Lemma int_of_float_nonneg (x : float) (z : Z) :
  float_nonneg x -> int_of_float x = OK z -> (0 <= z)%Z.
Proof.
  unfold float_nonneg, int_of_float.
  destruct (Prim2SF x) as [b|b| |b m e]; cbn [sf_nonneg]; try discriminate.
  - intros _ [= <-]. lia.
  - intros Hb H. apply negb_true_iff in Hb. subst b.
    assert (Hv : (0 <= (if (0 <=? e)%Z then Z.pos m * 2 ^ e
                        else Z.pos m / 2 ^ (- e)))%Z).
    { destruct (0 <=? e)%Z eqn:E.
      - apply Z.mul_nonneg_nonneg; [lia|]. apply Z.pow_nonneg. lia.
      - apply Z.leb_gt in E. apply Z.div_pos; [lia|]. apply Z.pow_pos_nonneg; lia. }
    injection H as <-. exact Hv.
Qed.

(** Truncation is the floor where the sign bit is clear. *)
Lemma int_is_floor (x : float) :
  float_nonneg x -> int_of_float x = floor_of_float x.
Proof.
  unfold float_nonneg, int_of_float, floor_of_float.
  destruct (Prim2SF x) as [b|b| |b m e]; cbn [sf_nonneg]; try reflexivity.
  intros Hb. apply negb_true_iff in Hb. now subst b.
Qed.

End FloatSign.

Lemma time_per_letter_nonneg (total_letters : nat) :
  float_nonneg (time_per_letter total_letters).
Proof.
  unfold time_per_letter.
  destruct (0 <? total_letters); [|reflexivity].
  destruct (PrimFloat.ltb _ _); [|reflexivity].
  apply FloatSign.fmin_nonneg; [|reflexivity].
  apply FloatSign.div_nonneg;
    [apply FloatSign.fmax_zero_nonneg|apply FloatSign.float_of_nat_nonneg].
Qed.

Lemma solve_duration_nonneg (total_letters : nat) :
  float_nonneg (solve_duration total_letters).
Proof.
  unfold solve_duration. apply FloatSign.add_nonneg; [reflexivity|].
  apply FloatSign.mul_nonneg;
    [apply FloatSign.float_of_nat_nonneg|apply time_per_letter_nonneg].
Qed.

Lemma reveal_hold_duration_nonneg (win_fanfare_duration : option float) :
  float_nonneg (reveal_hold_duration win_fanfare_duration).
Proof.
  destruct win_fanfare_duration as [d|]; simpl; [|reflexivity].
  apply FloatSign.fmax_zero_nonneg.
Qed.

(** The frame count of the code is the one of the specification. *)
Lemma frame_count_floor (duration : float) :
  float_nonneg duration -> frame_count duration = spec_frame_count duration.
Proof.
  intros Hd. unfold frame_count, spec_frame_count. apply FloatSign.int_is_floor.
  apply FloatSign.mul_nonneg; [exact Hd|apply FloatSign.float_of_nat_nonneg].
Qed.

(** A frame count is never negative. *)
Lemma frame_count_nonneg (duration : float) (n : Z) :
  float_nonneg duration -> frame_count duration = OK n -> (0 <= n)%Z.
Proof.
  intros Hd. unfold frame_count. apply FloatSign.int_of_float_nonneg.
  apply FloatSign.mul_nonneg; [exact Hd|apply FloatSign.float_of_nat_nonneg].
Qed.

(** ** The frame loop *)

Lemma same_puzzle_refl (st : GameState) : same_puzzle st st.
Proof. now repeat split. Qed.

Lemma same_puzzle_trans (a b c : GameState) :
  same_puzzle a b -> same_puzzle b c -> same_puzzle a c.
Proof.
  intros (H1 & H2 & H3 & H4) (K1 & K2 & K3 & K4).
  repeat split; congruence.
Qed.

Lemma placed_same_puzzle (st : GameState) (col : nat) (ch : ascii) :
  same_puzzle st (placed st col ch).
Proof. now repeat split. Qed.

(** The fuel of [advance] is enough: the loop is left with the target
    reached, or with every letter placed. *)
Lemma advance_loop_spec (target : Z) (fuel : nat) (st : GameState) :
  consistent st ->
  (target <= Z.of_nat (placed_count st) + Z.of_nat fuel)%Z ->
  exists st',
    advance_loop fuel target st = OK st'
    /\ consistent st' /\ same_puzzle st st'
    /\ placed_count st'
       = Nat.max (placed_count st)
           (Nat.min (Z.to_nat target) (length (letter_positions st))).
Proof.
  revert st; induction fuel as [|fuel IH]; intros st Hc Hfuel; cbn [advance_loop].
  - exists st. split; [reflexivity|]. split; [exact Hc|].
    split; [apply same_puzzle_refl|]. lia.
  - destruct (Z.of_nat (placed_count st) <? target)%Z eqn:E.
    + apply Z.ltb_lt in E.
      destruct (place_next_letter_total st Hc)
        as [[Hge ->]|(rc & ch & Hrc & Hch & ->)]; cbn [bind fst snd].
      * exists st. split; [reflexivity|]. split; [exact Hc|].
        split; [apply same_puzzle_refl|]. lia.
      * assert (Hlt : placed_count st < length (letter_positions st))
          by (apply nth_error_Some; congruence).
        destruct (IH (placed st (snd rc) ch)) as (st' & Hrun & Hc' & Hsame & Hpc).
        { now apply placed_consistent. }
        { cbn [placed placed_count]. lia. }
        exists st'. split; [exact Hrun|]. split; [exact Hc'|].
        split; [eapply same_puzzle_trans; [apply placed_same_puzzle|exact Hsame]|].
        rewrite Hpc. cbn [placed placed_count letter_positions]. lia.
    + apply Z.ltb_ge in E. exists st. split; [reflexivity|]. split; [exact Hc|].
      split; [apply same_puzzle_refl|]. lia.
Qed.

Lemma advance_spec (target : Z) (st : GameState) :
  consistent st ->
  exists st',
    advance target st = OK st'
    /\ consistent st' /\ same_puzzle st st'
    /\ placed_count st'
       = Nat.max (placed_count st)
           (Nat.min (Z.to_nat target) (length (letter_positions st))).
Proof. intros Hc. apply advance_loop_spec; [exact Hc|lia]. Qed.

(** The placement phase over the frames [k], [k+1], ..., [k+n-1]. *)
Lemma solve_phase_spec (solve_frames : Z) (total_letters n k : nat)
  (st st' : GameState) (acc fs : list Frame) :
  consistent st ->
  total_letters = length (letter_positions st) ->
  for_each (solve_frame solve_frames total_letters) (seq k n) (st, acc) = OK (st', fs) ->
  exists new,
    fs = acc ++ new /\ length new = n
    /\ consistent st' /\ same_puzzle st st'
    /\ forall j f, nth_error new j = Some f ->
         frame_no f = k + j
         /\ same_puzzle st (shown f)
         /\ (Z.of_nat (k + j) = (solve_frames - 1)%Z ->
             placed_count (shown f) = total_letters).
Proof.
  revert k st acc; induction n as [|n IH]; intros k st acc Hc HN; cbn [seq for_each].
  - intros [= <- <-]. exists []. rewrite app_nil_r.
    split; [reflexivity|]. split; [reflexivity|]. split; [exact Hc|].
    split; [apply same_puzzle_refl|]. intros [|j] f; discriminate.
  - unfold solve_frame at 1. cbn [fst snd].
    destruct (target_placed solve_frames total_letters k) as [target|e] eqn:Et;
      cbn [bind]; [|discriminate].
    destruct (advance_spec target st Hc) as (st1 & -> & Hc1 & Hsame1 & Hpc1).
    cbn [bind]. intros Hrest.
    apply IH in Hrest as (new & -> & Hlen & Hc' & Hsame' & Hframes);
      [|exact Hc1|destruct Hsame1 as (_ & _ & _ & ->); exact HN].
    exists (mkFrame k st1 0%float :: new). rewrite <- app_assoc.
    split; [reflexivity|]. split; [simpl; lia|]. split; [exact Hc'|].
    split; [eapply same_puzzle_trans; eauto|].
    intros [|j] f; cbn [nth_error].
    + intros [= <-]. cbn [frame_no shown]. split; [lia|]. split; [exact Hsame1|].
      intros Hlast. rewrite Nat.add_0_r in Hlast.
      unfold target_placed in Et. apply Z.eqb_eq in Hlast. rewrite Hlast in Et.
      injection Et as <-. rewrite Hpc1, Nat2Z.id, <- HN.
      destruct Hc as (_ & Hle & _). lia.
    + intros Hj. apply Hframes in Hj as (Hno & Hs & Hlast).
      split; [lia|]. split; [eapply same_puzzle_trans; eauto|].
      intros H. apply Hlast. rewrite <- H. f_equal. lia.
Qed.

(** ** Runs of the simulator *)

Lemma run_succ (n : nat) (st0 : GameState) :
  run (S n) st0 = (st' <- run n st0 ;; r <- place_next_letter st' ;; OK (snd r)).
Proof. reflexivity. Qed.

Lemma run_used_length (st0 : GameState) (n : nat) :
  consistent st0 ->
  length (used_supply_indices st0) = placed_count st0 ->
  (forall k stk, k < n -> run k st0 = OK stk ->
     placed_count stk < get_total_letters stk -> step_found stk) ->
  forall st, run n st0 = OK st ->
  length (used_supply_indices st) = placed_count st.
Proof.
  intros Hc0 H0. induction n as [|n IH]; intros Hfound st.
  - simpl. now intros [= <-].
  - rewrite run_succ.
    destruct (run_consistent st0 n Hc0) as (stn & Hrun & Hc & _ & _).
    rewrite Hrun. cbn [bind].
    assert (Hn : length (used_supply_indices stn) = placed_count stn)
      by (apply IH; [intros k stk Hk; apply Hfound; lia|exact Hrun]).
    destruct (place_next_letter_total stn Hc)
      as [[Hge ->]|(rc & ch & Hrc & Hch & ->)]; cbn [bind snd].
    + now intros [= <-].
    + intros [= <-]. cbn [placed used_supply_indices placed_count].
      destruct (mark_used_cases stn (snd rc) ch) as [[Hnone _]|(i & _ & ->)].
      * exfalso.
        assert (Hlt : placed_count stn < get_total_letters stn)
          by (apply nth_error_Some; unfold get_total_letters; congruence).
        destruct (Hfound n stn (Nat.lt_succ_diag_r n) Hrun Hlt)
          as (rc' & ch' & i & Hrc' & Hch' & Hocc).
        rewrite Hrc in Hrc'. rewrite Hch in Hch'.
        injection Hrc' as <-. injection Hch' as <-.
        exact (Hnone i Hocc).
      * rewrite length_app. simpl. lia.
Qed.

(** ** The quote of the day *)

Lemma same_texts_nth (quotes quotes' : list Quote) (i : nat) :
  same_texts quotes quotes' ->
  match nth_error quotes i, nth_error quotes' i with
  | Some a, Some b => text a = text b /\ author a = author b /\ source a = source b
  | None, None => True
  | _, _ => False
  end.
Proof.
  intros H; revert i; induction H as [|a b l l' Hab Hl IH]; intros [|i]; simpl; auto.
  apply IH.
Qed.

Lemma same_texts_rev (quotes quotes' : list Quote) :
  same_texts quotes quotes' -> same_texts (rev quotes) (rev quotes').
Proof.
  unfold same_texts. induction 1 as [|a b l l' Hab Hl IH]; simpl; [constructor|].
  apply Forall2_app; [exact IH|]. now repeat constructor.
Qed.

(** The stored ids play no part in the selection. *)
Lemma get_daily_quote_ignores_ids (quotes quotes' : list Quote) (d : date) :
  same_texts quotes quotes' -> get_daily_quote quotes' d = get_daily_quote quotes d.
Proof.
  intros H. unfold get_daily_quote.
  pose proof (Forall2_length H) as Hlen.
  destruct (days_since_epoch d <? 0)%Z.
  - unfold last_quote. apply same_texts_rev in H.
    destruct H as [|a b l l' (Ht & Ha & Hs) _]; [reflexivity|].
    cbn [bind]. now rewrite Ht, Ha, Hs.
  - destruct H as [|a b l l' Hab Hl]; [reflexivity|].
    rewrite <- Hlen.
    set (idx := ((days_since_epoch d + LIBRARY_OFFSET)
                 mod Z.of_nat (length (a :: l)))%Z).
    pose proof (same_texts_nth (a :: l) (b :: l') (Z.to_nat idx)
                  (Forall2_cons _ _ Hab Hl)) as Hn.
    unfold getitem.
    destruct (nth_error (a :: l) _) as [x|], (nth_error (b :: l') _) as [y|];
      try contradiction; [|reflexivity].
    destruct Hn as (Ht & Ha & Hs). cbn [bind]. now rewrite Ht, Ha, Hs.
Qed.

(** ** The scenarios of the specification *)

Example scenario_A :
  _build_grid (lit "ABCDE FG") = OK [lit "##ABCDE#FG##"].
Proof. reflexivity. Qed.

Example scenario_B :
  time_per_letter 0 = 0%float /\ solve_duration 0 = pause_before_start.
Proof. split; vm_compute; reflexivity. Qed.

Example scenario_C :
  reveal_hold_duration (Some 3.4%float) = 2.4%float
  /\ reveal_hold_duration None = 1.0%float.
Proof. split; vm_compute; reflexivity. Qed.

(** A word of thirteen characters is centred with [left_pad = -1]: its first
    character is written at index [-1], the last cell, and overwritten by
    the thirteenth; the empty line closed before it gives a row of blocks. *)
Example thirteen_wraps_around :
  _build_grid (lit "ABCDEFGHIJKLM") = OK [lit "############"; lit "BCDEFGHIJKLM"].
Proof. vm_compute. reflexivity. Qed.

(** With a comma in the answer the letters after it are shown one position
    late: the third step writes the comma where the layout has [Y]. *)
Example comma_shifts_letters :
  nth_error (letter_positions comma_state0) 2 = Some (0, 6)
  /\ option_map (fun row => nth 6 row BLOCK) (nth_error (rows comma_state0) 0)
     = Some "Y"%char
  /\ match run 3 comma_state0 with
     | OK st => get_letter_at_position st 0 6
     | Raise _ => None
     end = Some ","%char.
Proof. repeat split; vm_compute; reflexivity. Qed.

(** * The claims *)

(** ** C2: a word wider than the grid *)

(** C2 (the code fails here): a single word of fourteen characters does not
    get a row of its own; centring it computes [left_pad = -1], the write
    at index [-1 + 13 = 12] is out of range and [_build_grid] raises
    [IndexError]. *)
Theorem build_grid_long_word_raises :
  _build_grid (answer (mkQuote 1 (lit "ABCDEFGHIJKLMN") (lit "Anon") None))
  = Raise IndexError.
Proof. vm_compute. reflexivity. Qed.

(** ** C3: reading the answer back *)

(** C3 (as stated, refuted): an answer wrapped over two lines is not what
    the concatenated rows give back, the line break having replaced a
    space. *)
Lemma reconstruct_two_lines_counterexample :
  exists rows,
    _build_grid two_lines = OK rows
    /\ reconstruct rows = lit "HELLO WORLDAGAIN"
    /\ reconstruct rows <> two_lines.
Proof.
  eexists. split; [vm_compute; reflexivity|].
  split; [vm_compute; reflexivity|].
  vm_compute. discriminate.
Qed.

(** C3 (amended): for an answer whose words are separated by single spaces,
    are no wider than the grid and hold no [#], the layout is built, and
    reading each row from its first to its last non-block cell, a block
    in between as a space, and joining the rows with single spaces gives
    the answer back; the same holds with the punctuation cells left out
    when the answer has no punctuation mark. *)
Theorem grid_reconstruction (a : str) :
  plain_answer a ->
  exists rows,
    _build_grid a = OK rows
    /\ join_space (map read_row rows) = a
    /\ (Forall (fun c => not_punctuation c = true) a ->
        join_space (map reconstruct_row rows) = a).
Proof.
  intros Hp. destruct (plain_answer_words a Hp) as [_ Hfit].
  destruct (build_lines_plain a Hp) as [Hsolid Hjoin].
  exists (map frame_line (build_lines a)).
  split; [now apply build_grid_fits|].
  assert (Hread : join_space (map read_row (map frame_line (build_lines a))) = a)
    by now rewrite read_framed_lines.
  split; [exact Hread|].
  intros Hnp. unfold reconstruct_row.
  rewrite <- (map_map (filter not_punctuation) read_row).
  now rewrite framed_lines_no_punctuation.
Qed.

Lemma grid_reconstruction_witness :
  exists rows,
    _build_grid two_lines = OK rows
    /\ join_space (map read_row rows) = two_lines
    /\ (Forall (fun c => not_punctuation c = true) two_lines ->
        join_space (map reconstruct_row rows) = two_lines).
Proof.
  apply (grid_reconstruction two_lines).
  split.
  - vm_compute. repeat constructor; try discriminate.
  - vm_compute. intuition discriminate.
Defined.

(** ** C8: the durations *)

(** C8: the time per letter, the solve duration and the hold duration the
    code computes are those of the specification, in binary64 arithmetic;
    with 50 letters the time per letter is 0.12 and the solve duration
    6.2. *)
Theorem timeline_durations :
  (forall N, time_per_letter N = spec_per_letter_time N)
  /\ (forall N, solve_duration N = spec_solve_duration N)
  /\ (forall fanfare, reveal_hold_duration fanfare = spec_reveal_hold_duration fanfare)
  /\ time_per_letter 50 = 0.12%float
  /\ solve_duration 50 = 6.2%float.
Proof.
  assert (Htpl : forall N, time_per_letter N = spec_per_letter_time N).
  { intros [|N]; [reflexivity|].
    unfold time_per_letter, spec_per_letter_time.
    change (0 <? S N) with true. change (S N =? 0) with false. cbv iota.
    change (PrimFloat.ltb 0%float
              (fmax 0%float (max_solve_time - pause_before_start)%float)) with true.
    reflexivity. }
  split; [exact Htpl|].
  split; [intros N; unfold solve_duration, spec_solve_duration; now rewrite Htpl|].
  split; [intros [d|]; reflexivity|].
  split; vm_compute; reflexivity.
Qed.

Section Claims.

Context {R : PyRandom}.

Lemma shuffle_columns_threaded (cols cols' : list str) (g g' : gen) :
  shuffle_columns cols g = OK (cols', g') -> threaded g cols cols' g'.
Proof.
  revert cols' g; induction cols as [|col cols IH]; intros cols' g; cbn [shuffle_columns].
  - intros [= <- <-]. constructor.
  - destruct (shuffle col g) as [[col1 g1]|e] eqn:E1; cbn [bind fst snd]; [|discriminate].
    destruct (shuffle_columns cols g1) as [[rest g2]|e] eqn:E2; cbn [bind fst snd];
      [|discriminate].
    intros [= <- <-]. econstructor; eauto.
Qed.

Lemma GameState_init_seed (q : Quote) (g0 : gen) (st : GameState) (g : gen) :
  GameState_init q g0 = OK (st, g) ->
  exists columns,
    collect_supply (rows st) = OK columns
    /\ shuffle_columns columns (seed (id q)) = OK (supply st, g).
Proof.
  intros H. apply GameState_init_fresh in H as (_ & _ & H).
  unfold _build_supply in H.
  destruct (collect_supply (rows st)) as [columns|e]; cbn [bind] in H; [|discriminate].
  eauto.
Qed.

(** ** C1: the letter positions *)



(** ** C4: a step that finds no supply letter *)

(** C4: in a state the simulator reaches, with a letter left to place and
    no unused occurrence of its character in the supply column of its
    position, the step returns without an exception, leaves the used
    supply indices as they are, records the character and adds one to the
    count. *)
Theorem step_without_supply (q : Quote) (g0 g : gen) (st0 st : GameState) (n : nat)
  (rc : nat * nat) :
  GameState_init q g0 = OK (st0, g) ->
  run n st0 = OK st ->
  nth_error (letter_positions st) (placed_count st) = Some rc ->
  (forall ch i,
     nth_error (remove_spaces (answer q)) (placed_count st) = Some ch ->
     ~ unused_occurrence st (snd rc) ch i) ->
  exists st' ch,
    nth_error (remove_spaces (answer q)) (placed_count st) = Some ch
    /\ place_next_letter st = OK (true, st')
    /\ used_supply_indices st' = used_supply_indices st
    /\ placed_supply_letters st' = placed_supply_letters st ++ [ch]
    /\ placed_count st' = placed_count st + 1.
Proof.
  intros Hinit Hrun Hrc Hnone.
  apply GameState_init_fresh in Hinit as (Hfresh & Hq & _).
  destruct (run_consistent st0 n (fresh_consistent st0 Hfresh))
    as (st1 & Hrun1 & Hc & (Hq1 & _) & _).
  rewrite Hrun in Hrun1. injection Hrun1 as <-.
  destruct (place_next_letter_total st Hc)
    as [[Hge _]|(rc' & ch & Hrc' & Hch & Hstep)].
  - assert (placed_count st < length (letter_positions st))
      by (apply nth_error_Some; congruence).
    lia.
  - rewrite Hrc in Hrc'. injection Hrc' as <-.
    rewrite Hq1, Hq in Hch.
    exists (placed st (snd rc) ch), ch.
    split; [exact Hch|]. split; [exact Hstep|].
    cbn [placed used_supply_indices placed_supply_letters placed_count].
    split; [|split; reflexivity].
    destruct (mark_used_cases st (snd rc) ch) as [[_ ->]|(i & Hocc & _)];
      [reflexivity|].
    destruct (Hnone ch i Hch Hocc).
Qed.

(** ** C5: the supply of a column *)

(** C5: for every layout of rows [GRID_COLS] wide and every seed, the supply
    is built, and each of its [GRID_COLS] columns is a permutation of the
    [Letter] cells of that column of the layout. *)
Theorem supply_multiset (rows : list str) (quote_id : Z) (g0 : gen) :
  Forall (fun row => length row = GRID_COLS) rows ->
  exists supply g,
    _build_supply rows quote_id g0 = OK (supply, g)
    /\ length supply = GRID_COLS
    /\ forall c, c < GRID_COLS ->
         Permutation (nth c supply []) (column_letters c rows).
Proof.
  intros Hrows.
  destruct (build_supply_spec rows quote_id g0) as (supply & g & Hs & Hlen & Hperm).
  - eapply Forall_impl; [|exact Hrows]. simpl. intros row ->. lia.
  - exists supply, g. split; [exact Hs|]. split; [exact Hlen|].
    intros c _. apply Permutation_sym, Hperm.
Qed.

(** ** C6: the used supply indices *)

(** C6: after any number of steps from the state [GameState.__init__]
    builds, the simulator has not raised, no pair occurs twice in the used
    supply indices, the count is the number of steps capped by the number
    of letters, and when every step that placed a letter found an unused
    occurrence of it there are as many used indices as placed letters. *)
Theorem placement_uniqueness (q : Quote) (g0 g : gen) (st0 : GameState) (n : nat) :
  GameState_init q g0 = OK (st0, g) ->
  exists st,
    run n st0 = OK st
    /\ NoDup (used_supply_indices st)
    /\ placed_count st = Nat.min n (get_total_letters st0)
    /\ ((forall k stk, k < n -> run k st0 = OK stk ->
           placed_count stk < get_total_letters stk -> step_found stk) ->
        length (used_supply_indices st) = placed_count st).
Proof.
  intros Hinit. apply GameState_init_fresh in Hinit as (Hfresh & _).
  pose proof (fresh_consistent st0 Hfresh) as Hc0.
  destruct (run_consistent st0 n Hc0) as (st & Hrun & Hc & _ & Hpc).
  destruct Hfresh as (_ & _ & _ & Hpc0 & Hus0).
  exists st. split; [exact Hrun|].
  split; [now destruct Hc as (_ & _ & _ & Hnd & _)|].
  split; [rewrite Hpc, Hpc0; reflexivity|].
  intros Hfound. apply (run_used_length st0 n Hc0); auto.
  now rewrite Hpc0, Hus0.
Qed.

(** ** C7: the shuffle is a function of the layout and the seed *)

(** C7: whatever the state of the module generator when [_build_supply] is
    entered, the supply of a layout under a seed is the same, and it is
    the one obtained by seeding once and passing the one generator from
    column 0 to column [GRID_COLS - 1] in order. *)
Theorem supply_deterministic (rows : list str) (quote_id : Z) (g1 g2 : gen) :
  _build_supply rows quote_id g1 = _build_supply rows quote_id g2
  /\ forall supply g,
       _build_supply rows quote_id g1 = OK (supply, g) ->
       exists columns,
         collect_supply rows = OK columns
         /\ threaded (seed quote_id) columns supply g.
Proof.
  split; [reflexivity|].
  intros supply g. unfold _build_supply.
  destruct (collect_supply rows) as [columns|e]; cbn [bind]; [|discriminate].
  intros H. exists columns. split; [reflexivity|].
  now apply shuffle_columns_threaded.
Qed.

(** ** C9: the frames *)

(** C9: when [generate_video] returns, each phase has the frame count
    [floor(duration * FPS)] of its own duration, the frames produced are as
    many as the three counts together, and the frame of index
    [solve_frames - 1] shows every letter placed. *)
Theorem frame_coverage (q : Quote) (fanfare : option float) (g0 : gen) (reel : Reel) :
  generate_video q fanfare g0 = OK reel ->
  exists st0 g,
    GameState_init q g0 = OK (st0, g)
    /\ spec_frame_count (solve_duration (get_total_letters st0)) = OK (solve_frames reel)
    /\ spec_frame_count reveal_fade_duration = OK (reveal_fade_frames reel)
    /\ spec_frame_count (reveal_hold_duration fanfare) = OK (reveal_hold_frames reel)
    /\ Z.of_nat (length (frames reel))
       = (solve_frames reel + reveal_fade_frames reel + reveal_hold_frames reel)%Z
    /\ forall j f,
         nth_error (frames reel) j = Some f ->
         Z.of_nat j = (solve_frames reel - 1)%Z ->
         placed_count (shown f) = get_total_letters st0.
Proof.
  unfold generate_video.
  destruct (GameState_init q g0) as [[st0 g]|e] eqn:Hinit; cbn [bind fst]; [|discriminate].
  unfold generate_frames, get_total_letters.
  destruct (frame_count (solve_duration _)) as [sf|e] eqn:Esf; cbn [bind]; [|discriminate].
  destruct (frame_count reveal_fade_duration) as [rff|e] eqn:Erff; cbn [bind];
    [|discriminate].
  destruct (frame_count (reveal_hold_duration fanfare)) as [rhf|e] eqn:Erhf; cbn [bind];
    [|discriminate].
  destruct (for_each _ (range sf) _) as [[st1 fs]|e] eqn:Ephase; cbn [bind fst snd];
    [|discriminate].
  intros [= <-]. cbn [solve_frames reveal_fade_frames reveal_hold_frames frames].
  exists st0, g. split; [reflexivity|].
  split; [now rewrite <- frame_count_floor by apply solve_duration_nonneg|].
  split; [now rewrite <- frame_count_floor by reflexivity|].
  split; [now rewrite <- frame_count_floor by apply reveal_hold_duration_nonneg|].
  apply GameState_init_fresh in Hinit as (Hfresh & _).
  apply frame_count_nonneg in Esf; [|apply solve_duration_nonneg].
  apply frame_count_nonneg in Erff; [|reflexivity].
  apply frame_count_nonneg in Erhf; [|apply reveal_hold_duration_nonneg].
  unfold range in Ephase.
  apply solve_phase_spec in Ephase as (new & Hfs & Hlen & _ & _ & Hframes);
    [|now apply fresh_consistent|reflexivity].
  simpl in Hfs. subst fs. split.
  - rewrite !length_app, !length_map. unfold range. rewrite !length_seq, Hlen. lia.
  - intros j f Hj Hlast.
    rewrite nth_error_app1 in Hj by lia.
    apply Hframes in Hj as (_ & _ & H). apply H. simpl. exact Hlast.
Qed.

(** ** C10: the quote of the day *)

(** C10: from the epoch on, with a library that is not empty, the quote of
    the day is a new record whose [id] is the selected index plus one,
    whatever [id] the library stores: two libraries that differ only in
    their stored ids give the same quote; and the state built from that
    quote shuffles its supply with the generator seeded by the index plus
    one. *)
Theorem daily_quote_id (quotes : list Quote) (d : date) :
  quotes <> [] ->
  (0 <= days_since_epoch d)%Z ->
  let idx := ((days_since_epoch d + LIBRARY_OFFSET) mod Z.of_nat (length quotes))%Z in
  exists q0 today,
    nth_error quotes (Z.to_nat idx) = Some q0
    /\ get_daily_quote quotes d = OK today
    /\ today = mkQuote (idx + 1) (text q0) (author q0) (source q0)
    /\ (forall quotes', same_texts quotes quotes' -> get_daily_quote quotes' d = OK today)
    /\ forall g0 st g,
         GameState_init today g0 = OK (st, g) ->
         exists columns,
           collect_supply (rows st) = OK columns
           /\ shuffle_columns columns (seed (idx + 1)) = OK (supply st, g).
Proof.
  intros Hne Hd idx.
  assert (Hidx : (0 <= idx < Z.of_nat (length quotes))%Z).
  { apply Z.mod_pos_bound. destruct quotes; [contradiction|simpl; lia]. }
  destruct (nth_error quotes (Z.to_nat idx)) as [q0|] eqn:E;
    [|apply nth_error_None in E; lia].
  assert (Hget : get_daily_quote quotes d
                 = OK (mkQuote (idx + 1) (text q0) (author q0) (source q0))).
  { unfold get_daily_quote.
    replace (days_since_epoch d <? 0)%Z with false
      by (symmetry; apply Z.ltb_ge; exact Hd).
    destruct quotes as [|q quotes]; [contradiction|].
    fold idx. unfold getitem. now rewrite E. }
  exists q0, (mkQuote (idx + 1) (text q0) (author q0) (source q0)).
  split; [reflexivity|]. split; [exact Hget|]. split; [reflexivity|]. split.
  - intros quotes' Hsame. now rewrite (get_daily_quote_ignores_ids _ _ _ Hsame).
  - intros g0 st g Hinit. now apply GameState_init_seed in Hinit.
Qed.

End Claims.

Lemma step_without_supply_witness :
  exists st' ch,
    nth_error (remove_spaces (answer comma_quote)) (placed_count comma_state2) = Some ch
    /\ place_next_letter comma_state2 = OK (true, st')
    /\ used_supply_indices st' = used_supply_indices comma_state2
    /\ placed_supply_letters st' = placed_supply_letters comma_state2 ++ [ch]
    /\ placed_count st' = placed_count comma_state2 + 1.
Proof.
  apply (step_without_supply (R := lcg) comma_quote 0%Z comma_gen comma_state0
           comma_state2 2 (0, 6)).
  - vm_compute. reflexivity.
  - vm_compute. reflexivity.
  - vm_compute. reflexivity.
  - intros ch i Hch (column & Hcol & Hi & _).
    vm_compute in Hch. injection Hch as <-.
    vm_compute in Hcol. injection Hcol as <-.
    destruct i as [|i]; [|destruct i]; vm_compute in Hi; discriminate.
Defined.

Lemma supply_multiset_witness :
  exists supply g,
    _build_supply (R := lcg) comma_rows 1%Z 0%Z = OK (supply, g)
    /\ length supply = GRID_COLS
    /\ forall c, c < GRID_COLS ->
         Permutation (nth c supply []) (column_letters c comma_rows).
Proof.
  apply (supply_multiset (R := lcg) comma_rows 1%Z 0%Z).
  repeat constructor.
Defined.

Lemma placement_uniqueness_witness :
  exists st,
    run 5 comma_state0 = OK st
    /\ NoDup (used_supply_indices st)
    /\ placed_count st = Nat.min 5 (get_total_letters comma_state0)
    /\ ((forall k stk, k < 5 -> run k comma_state0 = OK stk ->
           placed_count stk < get_total_letters stk -> step_found stk) ->
        length (used_supply_indices st) = placed_count st).
Proof.
  apply (placement_uniqueness (R := lcg) comma_quote 0%Z comma_gen comma_state0 5).
  vm_compute. reflexivity.
Defined.

Lemma frame_coverage_witness :
  exists st0 g,
    GameState_init (R := lcg) short_quote 0%Z = OK (st0, g)
    /\ spec_frame_count (solve_duration (get_total_letters st0))
       = OK (solve_frames short_reel)
    /\ spec_frame_count reveal_fade_duration = OK (reveal_fade_frames short_reel)
    /\ spec_frame_count (reveal_hold_duration None) = OK (reveal_hold_frames short_reel)
    /\ Z.of_nat (length (frames short_reel))
       = (solve_frames short_reel + reveal_fade_frames short_reel
          + reveal_hold_frames short_reel)%Z
    /\ forall j f,
         nth_error (frames short_reel) j = Some f ->
         Z.of_nat j = (solve_frames short_reel - 1)%Z ->
         placed_count (shown f) = get_total_letters st0.
Proof.
  apply (frame_coverage (R := lcg) short_quote None 0%Z short_reel).
  vm_compute. reflexivity.
Defined.

Lemma daily_quote_id_witness :
  exists q0 today,
    nth_error library 2 = Some q0
    /\ get_daily_quote library (mkDate 2026 11 2) = OK today
    /\ today = mkQuote 3 (text q0) (author q0) (source q0)
    /\ (forall quotes', same_texts library quotes' ->
          get_daily_quote quotes' (mkDate 2026 11 2) = OK today)
    /\ forall g0 st g,
         GameState_init (R := lcg) today g0 = OK (st, g) ->
         exists columns,
           collect_supply (rows st) = OK columns
           /\ shuffle_columns columns 3%Z = OK (supply st, g).
Proof.
  apply (daily_quote_id (R := lcg) library (mkDate 2026 11 2)).
  - discriminate.
  - vm_compute. discriminate.
Defined.

(** * Further properties of the code *)

(** ** The outcome of [_build_grid] *)

Lemma setitem_exn {A : Type} (l : list A) (k : Z) (v : A) (e : exn) :
  setitem l k v = Raise e -> e = IndexError.
Proof.
  unfold setitem. destruct (_ && _); [discriminate|].
  destruct (_ && _); [discriminate|]. now intros [= <-].
Qed.

Lemma setitem_bounds {A : Type} (l l' : list A) (k : Z) (v : A) :
  setitem l k v = OK l' ->
  (- Z.of_nat (length l) <= k < Z.of_nat (length l))%Z.
Proof.
  unfold setitem.
  destruct ((0 <=? k)%Z && (k <? Z.of_nat (length l))%Z) eqn:E1.
  - intros _. apply andb_true_iff in E1 as [H1 H2].
    apply Z.leb_le in H1. apply Z.ltb_lt in H2. lia.
  - destruct ((- Z.of_nat (length l) <=? k)%Z && (k <? 0)%Z) eqn:E2; [|discriminate].
    intros _. apply andb_true_iff in E2 as [H1 H2].
    apply Z.leb_le in H1. apply Z.ltb_lt in H2. lia.
Qed.

Lemma place_chars_exn (left_pad : Z) (ics : list (nat * ascii)) (row : str) (e : exn) :
  for_each (place_char left_pad) ics row = Raise e -> e = IndexError.
Proof.
  revert row; induction ics as [|ic ics IH]; intros row; cbn [for_each]; [discriminate|].
  destruct (place_char left_pad row ic) as [row1|e1] eqn:E; cbn [bind].
  - apply IH.
  - intros [= <-]. unfold place_char in E. now apply setitem_exn in E.
Qed.

Lemma place_chars_bounds (left_pad : Z) (ics : list (nat * ascii)) (row row' : str) :
  for_each (place_char left_pad) ics row = OK row' ->
  Forall (fun ic => (- Z.of_nat (length row) <= left_pad + Z.of_nat (fst ic)
                     < Z.of_nat (length row))%Z) ics.
Proof.
  revert row; induction ics as [|ic ics IH]; intros row; cbn [for_each]; [constructor|].
  destruct (place_char left_pad row ic) as [row1|e1] eqn:E; cbn [bind]; [|discriminate].
  intros H. unfold place_char in E. constructor.
  - now apply setitem_bounds in E.
  - apply setitem_length in E. rewrite <- E. now apply IH.
Qed.

Lemma center_line_exn (line_chars : str) (e : exn) :
  center_line line_chars = Raise e -> e = IndexError.
Proof. unfold center_line. apply place_chars_exn. Qed.

(** A line of fourteen cells or more cannot be centred: its last cell
    falls at index 12 or beyond. *)
Lemma center_line_too_long (line_chars : str) :
  too_long line_chars -> center_line line_chars = Raise IndexError.
Proof.
  unfold too_long. intros Hlen.
  destruct (center_line line_chars) as [row|e] eqn:E;
    [|now rewrite (center_line_exn _ _ E)].
  exfalso. unfold center_line in E. apply place_chars_bounds in E.
  rewrite repeat_length in E.
  destruct (nth_error line_chars (length line_chars - 1)) as [x|] eqn:Ex;
    [|apply nth_error_None in Ex; lia].
  apply (enumerate_from_nth _ 0) in Ex. unfold enumerate in E.
  rewrite Forall_forall in E. specialize (E _ Ex). cbn [fst] in E.
  unfold GRID_COLS in E.
  assert (H2 : (2 * ((Z.of_nat 12 - Z.of_nat (length line_chars)) / 2)
                >= Z.of_nat 12 - Z.of_nat (length line_chars) - 1)%Z).
  { pose proof (Z.mod_pos_bound (Z.of_nat 12 - Z.of_nat (length line_chars)) 2
                  ltac:(lia)).
    pose proof (Z.div_mod (Z.of_nat 12 - Z.of_nat (length line_chars)) 2 ltac:(lia)).
    lia. }
  lia.
Qed.

Lemma place_chars_overwrite (left_pad : Z) (chars old pre post : str) (k : nat) :
  length old = length chars ->
  Z.of_nat (length pre) = (left_pad + Z.of_nat k)%Z ->
  for_each (place_char left_pad) (enumerate_from k chars) (pre ++ old ++ post)
  = OK (pre ++ chars ++ post).
Proof.
  revert old pre k; induction chars as [|c chars IH]; intros old pre k Hlen Hk.
  - destruct old; [reflexivity|discriminate].
  - destruct old as [|o old]; [discriminate|]. cbn [enumerate_from for_each].
    unfold place_char at 1; cbn [fst snd app].
    rewrite <- Hk, setitem_app_here. cbn [bind].
    change (pre ++ c :: old ++ post) with (pre ++ [c] ++ old ++ post).
    rewrite app_assoc, IH.
    + now rewrite <- app_assoc.
    + simpl in Hlen. lia.
    + rewrite length_app. simpl. lia.
Qed.

(** A line of thirteen cells wraps around: its first cell is written last
    in the row and then overwritten. *)
Lemma center_line_13 (c : ascii) (rest : str) :
  length rest = 12 -> center_line (c :: rest) = OK rest.
Proof.
  intros Hlen. unfold center_line, enumerate. cbn [enumerate_from for_each].
  cbn [length]. rewrite Hlen.
  change (place_char _ (repeat BLOCK GRID_COLS) (0, c))
    with (@OK str (repeat BLOCK 11 ++ [c])).
  cbn [bind].
  change ((Z.of_nat GRID_COLS - Z.of_nat 13) / 2)%Z with (-1)%Z.
  pose proof (place_chars_overwrite (-1) rest (repeat BLOCK 11 ++ [c]) [] [] 1) as H.
  cbn [app] in H. rewrite !app_nil_r in H. apply H.
  - rewrite length_app, repeat_length. simpl. lia.
  - reflexivity.
Qed.

Lemma append_rows_exn (ls acc : list str) (e : exn) :
  for_each append_row ls acc = Raise e -> e = IndexError.
Proof.
  revert acc; induction ls as [|l ls IH]; intros acc; cbn [for_each]; [discriminate|].
  unfold append_row at 1.
  destruct (center_line l) as [row|e1] eqn:E; cbn [bind].
  - apply IH.
  - intros [= <-]. now apply center_line_exn in E.
Qed.

Lemma append_rows_raises (ls acc : list str) :
  Exists too_long ls -> for_each append_row ls acc = Raise IndexError.
Proof.
  intros H; revert acc; induction H as [l ls Hl|l ls Hls IH]; intros acc;
    cbn [for_each]; unfold append_row at 1.
  - now rewrite center_line_too_long.
  - destruct (center_line l) as [row|e] eqn:E; cbn [bind]; [apply IH|].
    now rewrite (center_line_exn _ _ E).
Qed.

Lemma append_rows_ok (ls acc : list str) :
  Forall (fun l => length l <= 13) ls ->
  exists rows, for_each append_row ls acc = OK rows /\ length rows = length acc + length ls.
Proof.
  intros H; revert acc; induction H as [|l ls Hl Hls IH]; intros acc; cbn [for_each].
  - exists acc. split; [reflexivity|simpl; lia].
  - unfold append_row at 1.
    assert (Hc : exists row, center_line l = OK row).
    { destruct (Nat.eq_dec (length l) 13) as [E|E].
      - destruct l as [|c rest]; [discriminate|].
        exists rest. apply center_line_13. simpl in E. lia.
      - eexists. apply center_line_fits. unfold GRID_COLS. lia. }
    destruct Hc as [row ->]. cbn [bind].
    destruct (IH (acc ++ [row])) as (rows & -> & Hlen).
    exists rows. split; [reflexivity|].
    rewrite Hlen, length_app. simpl. lia.
Qed.

(** *** Lines against words *)

Lemma wrap_lines_of (words ws : list str) (st : wrap) :
  incl ws words ->
  Forall (line_of words) (lines st) ->
  line_of words (current_line st) ->
  length (current_line st) = current_length st ->
  Forall (line_of words) (close_lines (fold_left wrap_word ws st)).
Proof.
  revert st; induction ws as [|w ws IH]; intros st Hincl Hl Hc Hn; cbn [fold_left].
  - unfold close_lines. destruct (current_line st) eqn:E; [exact Hl|].
    apply Forall_app; split; [exact Hl|]. constructor; [exact Hc|constructor].
  - assert (Hw : In w words) by (apply Hincl; now left).
    assert (Hws : incl ws words) by (intros x Hx; apply Hincl; now right).
    destruct w as [|c w]; [now apply IH|].
    unfold wrap_word. destruct (_ <=? GRID_COLS) eqn:E.
    + apply Nat.leb_le in E.
      destruct (current_line st) as [|d l] eqn:El; apply IH; auto;
        cbn [lines current_line current_length];
        try (left; unfold fits; rewrite ?length_app; cbn [length] in *; lia);
        rewrite ?length_app; cbn [length] in *; lia.
    + apply IH; auto; cbn [lines current_line current_length].
      * apply Forall_app; split; [exact Hl|]. constructor; [exact Hc|constructor].
      * now right.
Qed.

Lemma wrap_keeps_long (w : str) (ws : list str) (st : wrap) :
  GRID_COLS < length w ->
  length (current_line st) = current_length st ->
  In w ws \/ In w (lines st) \/ current_line st = w ->
  In w (close_lines (fold_left wrap_word ws st)).
Proof.
  intros Hw. revert st; induction ws as [|v ws IH]; intros st Hn Hin; cbn [fold_left].
  - unfold close_lines. destruct Hin as [[]|[Hin|Hin]].
    + destruct (current_line st); [exact Hin|]. apply in_or_app. now left.
    + rewrite Hin. destruct w as [|c w]; [simpl in Hw; lia|].
      apply in_or_app. right. now left.
  - destruct v as [|c v].
    + apply IH; [exact Hn|]. destruct Hin as [[Hin|Hin]|Hin]; auto.
      subst w. simpl in Hw. lia.
    + unfold wrap_word. destruct (_ <=? GRID_COLS) eqn:E.
      * apply Nat.leb_le in E.
        assert (Hv : w <> c :: v) by (intros ->; lia).
        assert (Hcur : current_line st <> w) by (intros H; rewrite H in Hn; lia).
        destruct (current_line st) as [|d l] eqn:El; apply IH;
          cbn [lines current_line current_length];
          try (rewrite ?length_app; cbn [length] in *; lia);
          destruct Hin as [[Hin|Hin]|[Hin|Hin]]; auto; congruence.
      * apply IH; cbn [lines current_line current_length]; [reflexivity|].
        destruct Hin as [[Hin|Hin]|[Hin|Hin]]; auto.
        -- right. left. apply in_or_app. now left.
        -- right. left. apply in_or_app. right. now left.
Qed.

(** X1: [_build_grid] raises [IndexError] exactly when the answer has a
    word of fourteen characters or more; otherwise it returns one row per
    line of the wrap, each [GRID_COLS] cells wide. *)
Theorem build_grid_outcome (a : str) :
  (Exists too_long (split_space a) -> _build_grid a = Raise IndexError)
  /\ (Forall (fun w => length w <= 13) (split_space a) ->
      exists rows,
        _build_grid a = OK rows
        /\ length rows = length (build_lines a)
        /\ Forall (fun row => length row = GRID_COLS) rows).
Proof.
  split.
  - intros Hex. unfold _build_grid. apply append_rows_raises.
    apply Exists_exists in Hex as (w & Hin & Hlong).
    apply Exists_exists. exists w. split; [|exact Hlong].
    rewrite build_lines_eq. apply wrap_keeps_long; auto.
    unfold too_long in Hlong. unfold GRID_COLS. lia.
  - intros Hall.
    assert (Hlines : Forall (fun l => length l <= 13) (build_lines a)).
    { assert (H : Forall (line_of (split_space a)) (build_lines a)).
      { rewrite build_lines_eq. apply wrap_lines_of; cbn; auto.
        - apply incl_refl.
        - left. unfold fits. simpl. lia. }
      eapply Forall_impl; [|exact H]. intros l [Hl|Hl].
      - unfold fits, GRID_COLS in Hl. lia.
      - rewrite Forall_forall in Hall. now apply Hall. }
    destruct (append_rows_ok (build_lines a) [] Hlines) as (rows & Hrows & Hlen).
    exists rows. split; [exact Hrows|]. split; [exact Hlen|].
    now apply (build_grid_row_length a).
Qed.

(** ** The supply against the letters still to place *)

Lemma tagged_row_cons (r k : nat) (ch : ascii) (row : str) :
  tagged_row r k (ch :: row)
  = (if is_letter ch then [((r, k), ch)] else []) ++ tagged_row r (S k) row.
Proof. unfold tagged_row. simpl. now destruct (is_letter ch). Qed.

Lemma tagged_row_cells (r k : nat) (row : str) :
  map fst (tagged_row r k row) = row_letter_cells r k row.
Proof. unfold tagged_row, row_letter_cells. now rewrite map_map. Qed.

Lemma tagged_from_cells (r : nat) (rows : list str) :
  map fst (tagged_from r rows) = letter_cells_from r rows.
Proof.
  unfold tagged_from, letter_cells_from.
  revert r; induction rows as [|row rows IH]; intros r; simpl; [reflexivity|].
  now rewrite map_app, tagged_row_cells, IH.
Qed.

Lemma tagged_row_letters (r k : nat) (row : str) :
  map snd (tagged_row r k row) = letters_of row.
Proof.
  revert k; induction row as [|ch row IH]; intros k; [reflexivity|].
  rewrite tagged_row_cons, map_app, IH. unfold letters_of. simpl.
  now destruct (is_letter ch).
Qed.

Lemma tagged_from_letters (r : nat) (rows : list str) :
  map snd (tagged_from r rows) = letters_of (concat rows).
Proof.
  unfold tagged_from.
  revert r; induction rows as [|row rows IH]; intros r; simpl; [reflexivity|].
  rewrite map_app, tagged_row_letters, IH. unfold letters_of. now rewrite filter_app.
Qed.

Lemma in_column_app (c : nat) (l1 l2 : list ((nat * nat) * ascii)) :
  in_column c (l1 ++ l2) = in_column c l1 ++ in_column c l2.
Proof. unfold in_column. now rewrite filter_app, map_app. Qed.

Lemma tagged_row_column (r k : nat) (row : str) (c : nat) :
  in_column c (tagged_row r k row) = cells_for k row c.
Proof.
  revert k; induction row as [|ch row IH]; intros k.
  - unfold cells_for. now destruct (c - k).
  - rewrite tagged_row_cons, in_column_app, IH, cells_for_cons. f_equal.
    unfold in_column. rewrite (Nat.eqb_sym c k).
    destruct (is_letter ch); simpl; [|now rewrite andb_false_r].
    rewrite andb_true_r. now destruct (k =? c).
Qed.

Lemma tagged_from_column (r : nat) (rows : list str) (c : nat) :
  in_column c (tagged_from r rows) = column_letters c rows.
Proof.
  unfold tagged_from, column_letters.
  revert r; induction rows as [|row rows IH]; intros r; simpl; [reflexivity|].
  now rewrite in_column_app, tagged_row_column, cells_for_0, IH.
Qed.

Lemma combine_fst_snd_id {A B : Type} (l : list (A * B)) :
  combine (map fst l) (map snd l) = l.
Proof. induction l as [|[a b] l IH]; simpl; congruence. Qed.

Lemma skipn_nth_error {A : Type} (l : list A) (n : nat) (x : A) :
  nth_error l n = Some x -> skipn n l = x :: skipn (S n) l.
Proof.
  revert n; induction l as [|a l IH]; intros [|n]; simpl; try discriminate.
  - now intros [= ->].
  - apply IH.
Qed.

Lemma nth_error_combine {A B : Type} (l1 : list A) (l2 : list B) (n : nat) (a : A) (b : B) :
  nth_error l1 n = Some a -> nth_error l2 n = Some b ->
  nth_error (combine l1 l2) n = Some (a, b).
Proof.
  revert l2 n; induction l1 as [|x l1 IH]; intros [|y l2] [|n]; simpl; try discriminate.
  - now intros [= ->] [= ->].
  - apply IH.
Qed.

Lemma already_used_app (used : list (nat * nat)) (c j col i : nat) :
  already_used (used ++ [(c, j)]) col i
  = already_used used col i || ((c =? col) && (j =? i)).
Proof. unfold already_used. rewrite existsb_app. simpl. now rewrite orb_false_r. Qed.

(** Marking index [k + j] used takes its letter, and only it, out of the
    available letters of the column. *)
Lemma available_remove (used : list (nat * nat)) (c : nat) (column : str)
  (k j : nat) (ch : ascii) :
  nth_error column j = Some ch ->
  already_used used c (k + j) = false ->
  Permutation
    (map snd (filter (fun il => negb (already_used used c (fst il)))
                     (enumerate_from k column)))
    (ch :: map snd (filter (fun il => negb (already_used (used ++ [(c, k + j)]) c (fst il)))
                           (enumerate_from k column))).
Proof.
  revert k j; induction column as [|x column IH]; intros k [|j]; simpl; try discriminate.
  - intros [= ->] Hu. rewrite Nat.add_0_r in *.
    rewrite Hu, already_used_app, !Nat.eqb_refl, orb_true_r. simpl.
    constructor. apply Permutation_refl'. f_equal.
    apply filter_ext_in. intros [i y] Hin. cbn [fst].
    apply enumerate_from_In in Hin as [Hle _].
    rewrite already_used_app.
    replace (k =? i) with false by (symmetry; apply Nat.eqb_neq; lia).
    now rewrite andb_false_r, orb_false_r.
  - intros Hj Hu.
    replace (k + S j) with (S k + j) in * by lia.
    specialize (IH (S k) j Hj Hu).
    rewrite already_used_app.
    replace (S k + j =? k) with false by (symmetry; apply Nat.eqb_neq; lia).
    rewrite andb_false_r, orb_false_r.
    destruct (already_used used c k); simpl; [exact IH|].
    eapply Permutation_trans; [apply perm_skip, IH|apply perm_swap].
Qed.

Lemma available_other (st : GameState) (c c' j : nat) (column : str) :
  c' <> c ->
  filter (fun il => negb (already_used (used_supply_indices st ++ [(c, j)]) c' (fst il)))
         (enumerate column)
  = filter (fun il => negb (already_used (used_supply_indices st) c' (fst il)))
           (enumerate column).
Proof.
  intros Hc. apply filter_ext. intros il. rewrite already_used_app.
  replace (c =? c') with false by (symmetry; apply Nat.eqb_neq; lia).
  now rewrite orb_false_r.
Qed.

Lemma pending_step (st : GameState) (rc : nat * nat) (ch : ascii) (c : nat) :
  nth_error (letter_positions st) (placed_count st) = Some rc ->
  nth_error (remove_spaces (answer (quote st))) (placed_count st) = Some ch ->
  pending st c
  = (if snd rc =? c then [ch] else []) ++ pending (placed st (snd rc) ch) c.
Proof.
  intros Hrc Hch. unfold pending. cbn [placed placed_count letter_positions quote].
  rewrite (skipn_nth_error _ _ _ (nth_error_combine _ _ _ _ _ Hrc Hch)).
  rewrite Nat.add_1_r. unfold in_column. simpl.
  now destruct (snd rc =? c).
Qed.

(** A step from a tracking state finds its letter and leaves a tracking
    state. *)
Lemma tracking_step (st : GameState) :
  tracking st ->
  placed_count st < length (letter_positions st) ->
  exists (rc : nat * nat) (ch : ascii),
    place_next_letter st = OK (true, placed st (snd rc) ch)
    /\ step_found st
    /\ tracking (placed st (snd rc) ch).
Proof.
  intros (Hc & Hperm & Hlen) Hlt.
  destruct (place_next_letter_total st Hc) as [[Hge _]|(rc & ch & Hrc & Hch & Hstep)];
    [lia|].
  exists rc, ch. split; [exact Hstep|].
  set (c := snd rc).
  pose proof (pending_step st rc ch c Hrc Hch) as Hpend.
  fold c in Hpend. rewrite Nat.eqb_refl in Hpend. cbn [app] in Hpend.
  assert (Hin : In ch (available st c)).
  { eapply Permutation_in; [apply Permutation_sym, Hperm|]. rewrite Hpend. now left. }
  unfold available in Hin. apply in_map_iff in Hin as ([j x] & Hx & Hin).
  cbn [snd] in Hx. subst x.
  unfold available_letters in Hin. apply filter_In in Hin as [Hin Hun].
  cbn [fst] in Hun. apply negb_true_iff in Hun.
  apply enumerate_from_In in Hin as [_ Hj]. rewrite Nat.sub_0_r in Hj.
  assert (Hcol : nth_error (supply st) c = Some (nth c (supply st) [])).
  { destruct (nth_error (supply st) c) as [col|] eqn:E.
    - now rewrite (nth_error_nth _ _ _ E).
    - apply nth_error_None in E. rewrite (nth_overflow _ _ E) in Hj.
      destruct j; discriminate. }
  assert (Hocc : unused_occurrence st c ch j).
  { exists (nth c (supply st) []). repeat split; auto.
    now apply already_used_not_In. }
  destruct (mark_used_cases st c ch) as [[Hnone _]|(i & Hocci & Hmark)];
    [destruct (Hnone j Hocc)|].
  split; [exists rc, ch, j; auto|].
  split; [now apply placed_consistent|]. split.
  - intros c'. unfold available, available_letters.
    cbn [placed supply used_supply_indices]. fold c. rewrite Hmark.
    destruct (Nat.eq_dec c' c) as [->|Hne].
    + destruct Hocci as (col & Hcol' & Hi & Hu).
      rewrite Hcol in Hcol'. injection Hcol' as <-.
      apply already_used_not_In in Hu.
      pose proof (available_remove (used_supply_indices st) c
                    (nth c (supply st) []) 0 i ch Hi Hu) as Hrem.
      cbn [Nat.add] in Hrem.
      apply (Permutation_cons_inv (a := ch)).
      eapply Permutation_trans; [apply Permutation_sym, Hrem|].
      rewrite <- Hpend. apply Hperm.
    + rewrite available_other by exact Hne.
      pose proof (Hperm c') as Hp'.
      rewrite (pending_step st rc ch c' Hrc Hch) in Hp'.
      fold c in Hp'.
      replace (c =? c') with false in Hp' by (symmetry; apply Nat.eqb_neq; lia).
      exact Hp'.
  - cbn [placed used_supply_indices placed_count]. fold c. rewrite Hmark, length_app.
    simpl. lia.
Qed.

Lemma run_tracking (st0 : GameState) (n : nat) :
  tracking st0 ->
  exists st,
    run n st0 = OK st /\ tracking st /\ same_puzzle st0 st
    /\ placed_count st = Nat.min (placed_count st0 + n) (length (letter_positions st0)).
Proof.
  intros H0. induction n as [|n (st & Hrun & Ht & Hsame & Hpc)]; cbn [run].
  - exists st0. split; [reflexivity|]. split; [exact H0|].
    split; [apply same_puzzle_refl|].
    destruct H0 as ((_ & Hle & _) & _). lia.
  - rewrite Hrun. cbn [bind].
    pose proof Hsame as (_ & _ & _ & Hlp).
    destruct (Nat.le_gt_cases (length (letter_positions st)) (placed_count st))
      as [Hge|Hlt].
    + rewrite place_next_letter_done by exact Hge. cbn [bind snd].
      exists st. split; [reflexivity|]. split; [exact Ht|]. split; [exact Hsame|].
      rewrite Hlp in Hge. lia.
    + destruct (tracking_step st Ht Hlt) as (rc & ch & -> & _ & Ht').
      cbn [bind snd]. exists (placed st (snd rc) ch).
      split; [reflexivity|]. split; [exact Ht'|].
      split; [eapply same_puzzle_trans; [exact Hsame|apply placed_same_puzzle]|].
      cbn [placed placed_count]. rewrite Hlp in Hlt. lia.
Qed.

Lemma available_fresh (st : GameState) (c : nat) :
  used_supply_indices st = [] -> available st c = nth c (supply st) [].
Proof.
  intros Hu. unfold available, available_letters. rewrite Hu.
  rewrite filter_all by (apply Forall_forall; reflexivity).
  apply enumerate_from_snd.
Qed.

(** *** All the columns together *)

Lemma firstn_succ_nth {A : Type} (l : list A) (n : nat) :
  firstn (S n) l
  = firstn n l ++ match nth_error l n with Some x => [x] | None => [] end.
Proof.
  revert n; induction l as [|a l IH]; intros [|n]; try reflexivity.
  change (firstn (S (S n)) (a :: l)) with (a :: firstn (S n) l).
  rewrite IH. reflexivity.
Qed.

Lemma cells_for_concat (row : str) (n : nat) :
  concat (map (cells_for 0 row) (seq 0 n)) = letters_of (firstn n row).
Proof.
  induction n as [|n IH]; [reflexivity|].
  rewrite seq_S, map_app, concat_app, IH, firstn_succ_nth. cbn [Nat.add map concat].
  unfold letters_of. rewrite filter_app, app_nil_r, cells_for_0.
  destruct (nth_error row n) as [x|]; [|reflexivity].
  simpl. now destruct (is_letter x).
Qed.

Lemma concat_map_app_perm {A B : Type} (f g : A -> list B) (l : list A) :
  Permutation (concat (map (fun c => f c ++ g c) l))
              (concat (map f l) ++ concat (map g l)).
Proof.
  induction l as [|a l IH]; simpl; [constructor|].
  rewrite <- !app_assoc. apply Permutation_app_head.
  eapply Permutation_trans; [apply Permutation_app_head, IH|].
  rewrite !app_assoc. apply Permutation_app_tail, Permutation_app_comm.
Qed.

Lemma concat_map_perm {A B : Type} (f g : A -> list B) (l : list A) :
  (forall c, Permutation (f c) (g c)) ->
  Permutation (concat (map f l)) (concat (map g l)).
Proof.
  intros H. induction l as [|a l IH]; simpl; [constructor|].
  now apply Permutation_app.
Qed.

Lemma concat_nils {A B : Type} (l : list A) :
  concat (map (fun _ => @nil B) l) = [].
Proof. induction l; simpl; auto. Qed.

Lemma column_letters_cons (c : nat) (row : str) (rows : list str) :
  column_letters c (row :: rows) = cells_for 0 row c ++ column_letters c rows.
Proof. unfold column_letters. simpl. now rewrite cells_for_0. Qed.

(** The columns of a layout, one after the other, hold the letters of the
    layout. *)
Lemma columns_are_letters (rows : list str) (n : nat) :
  Forall (fun row => length row <= n) rows ->
  Permutation (concat (map (fun c => column_letters c rows) (seq 0 n)))
              (letters_of (concat rows)).
Proof.
  induction 1 as [|row rows Hrow Hrows IH].
  - rewrite (map_ext _ (fun _ => @nil ascii)) by reflexivity.
    rewrite concat_nils. constructor.
  - rewrite (map_ext _ (fun c => cells_for 0 row c ++ column_letters c rows))
      by (intros c; apply column_letters_cons).
    unfold letters_of. cbn [concat]. rewrite filter_app.
    eapply Permutation_trans; [apply concat_map_app_perm|].
    apply Permutation_app; [|exact IH].
    rewrite cells_for_concat, firstn_all2 by exact Hrow.
    apply Permutation_refl.
Qed.

Lemma list_as_map_nth {A : Type} (l : list A) (d : A) :
  l = map (fun c => nth c l d) (seq 0 (length l)).
Proof.
  induction l as [|a l IH]; [reflexivity|].
  cbn [length seq map nth]. f_equal.
  rewrite <- seq_shift, map_map. exact IH.
Qed.

Lemma flat_map_nothing {A B : Type} (f : A -> list B) (l : list A) :
  (forall a, In a l -> f a = []) -> flat_map f l = [].
Proof.
  induction l as [|a l IH]; intros H; simpl; [reflexivity|].
  rewrite (H a) by now left. apply IH. intros b Hb. apply H. now right.
Qed.

Section SupplyTracking.

Context {R : PyRandom}.

Lemma GameState_init_supply (q : Quote) (g0 : gen) (st : GameState) (g : gen) :
  GameState_init q g0 = OK (st, g) ->
  length (supply st) = GRID_COLS
  /\ forall c, Permutation (column_letters c (rows st)) (nth c (supply st) []).
Proof.
  intros Hinit. apply GameState_init_fresh in Hinit as ((Hgrid & _) & _ & Hsup).
  destruct (build_supply_spec (rows st) (id q) g0) as (supply' & g' & Hs & Hlen & Hperm).
  - apply build_grid_row_length in Hgrid.
    eapply Forall_impl; [|exact Hgrid]. simpl. intros row ->. lia.
  - rewrite Hsup in Hs. injection Hs as <- <-. auto.
Qed.

Lemma tracking_init (q : Quote) (g0 : gen) (st0 : GameState) (g : gen) :
  Forall fits (split_space (answer q)) ->
  letters_only (answer q) ->
  GameState_init q g0 = OK (st0, g) ->
  tracking st0.
Proof.
  intros Hfit Hlet Hinit.
  destruct (GameState_init_supply q g0 st0 g Hinit) as [_ Hperm].
  apply GameState_init_fresh in Hinit as (Hfresh & Hq & _).
  pose proof (fresh_letter_positions st0 Hfresh) as Hcells.
  pose proof (fresh_consistent st0 Hfresh) as Hc.
  destruct Hfresh as (Hgrid & _ & _ & Hpc & Hus).
  split; [exact Hc|]. split; [|now rewrite Hus, Hpc].
  intros c. rewrite available_fresh by exact Hus.
  unfold pending. rewrite Hpc, Hcells, Hq. cbn [skipn].
  assert (Hans : remove_spaces (answer q) = letters_of (concat (rows st0))).
  { rewrite Hq, (build_grid_fits _ Hfit) in Hgrid. injection Hgrid as <-.
    rewrite framed_lines_letters. unfold letters_of.
    rewrite (build_lines_filter is_letter _ is_letter_block).
    symmetry. apply filter_all. exact Hlet. }
  rewrite Hans. unfold letter_cells.
  rewrite <- (tagged_from_cells 0), <- (tagged_from_letters 0), combine_fst_snd_id.
  rewrite tagged_from_column. apply Permutation_sym, Hperm.
Qed.

(** X2: for an answer of letters and spaces whose words fit the grid, after
    any number of steps the supply letters still available in a column are,
    up to their order, the letters of the positions of that column still to
    be placed. *)
Theorem supply_tracks_pending (q : Quote) (g0 g : gen) (st0 st : GameState) (n : nat) :
  Forall fits (split_space (answer q)) ->
  letters_only (answer q) ->
  GameState_init q g0 = OK (st0, g) ->
  run n st0 = OK st ->
  forall c, Permutation (map snd (available_letters st c (nth c (supply st) [])))
                        (pending st c).
Proof.
  intros Hfit Hlet Hinit Hrun.
  destruct (run_tracking st0 n (tracking_init q g0 st0 g Hfit Hlet Hinit))
    as (st' & Hrun' & (_ & Hperm & _) & _).
  rewrite Hrun in Hrun'. injection Hrun' as <-. exact Hperm.
Qed.

(** X3: for such an answer no step ever misses its supply letter: every
    state reached with a letter left to place holds an unused occurrence of
    the wanted character in the column of the position, and there are as
    many used supply indices as placed letters. *)
Theorem no_supply_mismatch (q : Quote) (g0 g : gen) (st0 st : GameState) (n : nat) :
  Forall fits (split_space (answer q)) ->
  letters_only (answer q) ->
  GameState_init q g0 = OK (st0, g) ->
  run n st0 = OK st ->
  length (used_supply_indices st) = placed_count st
  /\ (placed_count st < get_total_letters st -> step_found st).
Proof.
  intros Hfit Hlet Hinit Hrun.
  destruct (run_tracking st0 n (tracking_init q g0 st0 g Hfit Hlet Hinit))
    as (st' & Hrun' & Ht & _).
  rewrite Hrun in Hrun'. injection Hrun' as <-.
  split; [now destruct Ht as (_ & _ & Hlen)|].
  intros Hlt. now destruct (tracking_step st Ht Hlt) as (rc & ch & _ & Hfound & _).
Qed.

(** X4: for such an answer, once as many steps as there are letters have
    been made every letter is placed and the supply is used up:
    [_draw_supply] draws no cell. *)
Theorem supply_consumed (q : Quote) (g0 g : gen) (st0 st : GameState) (n : nat)
  (x y : Z) :
  Forall fits (split_space (answer q)) ->
  letters_only (answer q) ->
  GameState_init q g0 = OK (st0, g) ->
  get_total_letters st0 <= n ->
  run n st0 = OK st ->
  placed_count st = get_total_letters st0 /\ _draw_supply st x y = [].
Proof.
  intros Hfit Hlet Hinit Hn Hrun.
  pose proof (tracking_init q g0 st0 g Hfit Hlet Hinit) as Ht0.
  destruct (run_tracking st0 n Ht0) as (st' & Hrun' & (Hc & Hperm & _) & Hsame & Hpc).
  rewrite Hrun in Hrun'. injection Hrun' as <-.
  destruct Ht0 as ((_ & Hle0 & _) & _).
  unfold get_total_letters in *.
  assert (Hdone : placed_count st = length (letter_positions st0)) by lia.
  split; [exact Hdone|].
  destruct Hsame as (_ & _ & _ & Hlp).
  unfold _draw_supply. apply flat_map_nothing. intros [c column] Hin.
  apply enumerate_from_In in Hin as [_ Hcol]. rewrite Nat.sub_0_r in Hcol.
  specialize (Hperm c). unfold pending in Hperm.
  rewrite skipn_all2 in Hperm by (rewrite length_combine, Hlp; lia).
  apply Permutation_sym, Permutation_nil in Hperm.
  unfold available in Hperm. rewrite (nth_error_nth _ _ _ Hcol) in Hperm.
  apply map_eq_nil in Hperm.
  unfold draw_supply_column. cbn [fst snd]. now rewrite Hperm.
Qed.

End SupplyTracking.

(** ** Runs: what grows and what stays *)

Lemma run_add (n k : nat) (st0 : GameState) :
  run (n + k) st0 = (st <- run n st0 ;; run k st).
Proof.
  induction k as [|k IH].
  - rewrite Nat.add_0_r. cbn [run]. now destruct (run n st0).
  - rewrite Nat.add_succ_r. cbn [run]. rewrite IH.
    destruct (run n st0) as [st|e]; reflexivity.
Qed.

Lemma run_from (st : GameState) (k : nat) :
  consistent st ->
  exists st',
    run k st = OK st' /\ consistent st'
    /\ placed_count st <= placed_count st'
    /\ (exists more, placed_supply_letters st' = placed_supply_letters st ++ more)
    /\ (exists more, used_supply_indices st' = used_supply_indices st ++ more)
    /\ (length (letter_positions st) <= placed_count st -> st' = st).
Proof.
  intros Hc. induction k as [|k (st1 & Hrun & Hc1 & Hle & [p Hp] & [u Hu] & Hdone)];
    cbn [run].
  - exists st. split; [reflexivity|]. split; [exact Hc|]. split; [lia|].
    split; [exists []; now rewrite app_nil_r|].
    split; [exists []; now rewrite app_nil_r|reflexivity].
  - rewrite Hrun. cbn [bind].
    destruct (place_next_letter_total st1 Hc1)
      as [[Hge ->]|(rc & ch & Hrc & Hch & ->)]; cbn [bind snd].
    + exists st1. split; [reflexivity|]. split; [exact Hc1|]. split; [exact Hle|].
      split; [now exists p|]. split; [now exists u|exact Hdone].
    + exists (placed st1 (snd rc) ch). split; [reflexivity|].
      split; [now apply placed_consistent|].
      cbn [placed placed_count placed_supply_letters used_supply_indices].
      split; [lia|].
      split; [exists (p ++ [ch]); now rewrite Hp, app_assoc|]. split.
      * destruct (mark_used_cases st1 (snd rc) ch) as [[_ ->]|(i & _ & ->)].
        -- now exists u.
        -- exists (u ++ [(snd rc, i)]). now rewrite Hu, app_assoc.
      * intros Hfull. specialize (Hdone Hfull). subst st1.
        assert (placed_count st < length (letter_positions st))
          by (apply nth_error_Some; congruence).
        lia.
Qed.

Lemma index_of_lt (p : nat * nat) (l : list (nat * nat)) (i : nat) :
  index_of p l = Some i -> i < length l.
Proof.
  revert i; induction l as [|x l IH]; intros i; simpl; [discriminate|].
  destruct (_ && _); [intros [= <-]; lia|].
  destruct (index_of p l) as [j|]; simpl; [|discriminate].
  intros [= <-]. specialize (IH j eq_refl). lia.
Qed.

Lemma index_of_absent (p : nat * nat) (l : list (nat * nat)) :
  ~ In p l -> index_of p l = None.
Proof.
  induction l as [|x l IH]; intros Hin; simpl; [reflexivity|].
  destruct ((fst x =? fst p) && (snd x =? snd p)) eqn:E.
  - apply andb_true_iff in E as [E1 E2]. apply Nat.eqb_eq in E1, E2.
    exfalso. apply Hin. left. destruct x, p; simpl in *; now subst.
  - rewrite IH; [reflexivity|]. intros H. apply Hin. now right.
Qed.

Section Runs.

Context {R : PyRandom}.

(** X5: the supply as a whole is a rearrangement of the letter cells of the
    layout, with one supply letter for every letter position; when the
    words of the answer fit the grid it is a rearrangement of the letter
    characters of the answer. *)
Theorem supply_is_rearrangement (q : Quote) (g0 g : gen) (st : GameState) :
  GameState_init q g0 = OK (st, g) ->
  Permutation (concat (supply st)) (letters_of (concat (rows st)))
  /\ length (concat (supply st)) = length (letter_positions st)
  /\ (Forall fits (split_space (answer q)) ->
      Permutation (concat (supply st)) (letters_of (remove_spaces (answer q)))).
Proof.
  intros Hinit.
  destruct (GameState_init_supply q g0 st g Hinit) as [Hlen Hperm].
  apply GameState_init_fresh in Hinit as (Hfresh & Hq & _).
  pose proof (fresh_letter_positions st Hfresh) as Hcells.
  destruct Hfresh as (Hgrid & _).
  assert (Hall : Permutation (concat (supply st)) (letters_of (concat (rows st)))).
  { rewrite (list_as_map_nth (supply st) []) at 1. rewrite Hlen.
    eapply Permutation_trans;
      [apply (concat_map_perm _ (fun c => column_letters c (rows st)));
       intros c; apply Permutation_sym, Hperm|].
    apply columns_are_letters. apply build_grid_row_length in Hgrid.
    eapply Forall_impl; [|exact Hgrid]. simpl. intros row ->. lia. }
  split; [exact Hall|]. split.
  - rewrite (Permutation_length Hall), Hcells. unfold letter_cells.
    now rewrite letter_cells_from_length.
  - intros Hfit. rewrite Hq, (build_grid_fits _ Hfit) in Hgrid.
    injection Hgrid as Hrows. rewrite <- Hrows in Hall.
    rewrite framed_lines_letters in Hall. unfold letters_of in *.
    now rewrite (build_lines_filter is_letter _ is_letter_block) in Hall.
Qed.

(** X6: along a run the count of placed letters never decreases and never
    exceeds the number of letter positions, the placed letters and the
    used supply indices only grow at their end, and once every letter is
    placed further steps change nothing. *)
Theorem run_grows (q : Quote) (g0 g : gen) (st0 stn stm : GameState) (n m : nat) :
  GameState_init q g0 = OK (st0, g) ->
  n <= m ->
  run n st0 = OK stn ->
  run m st0 = OK stm ->
  placed_count stn <= placed_count stm <= get_total_letters st0
  /\ (exists more, placed_supply_letters stm = placed_supply_letters stn ++ more)
  /\ (exists more, used_supply_indices stm = used_supply_indices stn ++ more)
  /\ (get_total_letters st0 <= n -> stm = stn).
Proof.
  intros Hinit Hnm Hn Hm.
  apply GameState_init_fresh in Hinit as (Hfresh & _).
  pose proof (fresh_consistent st0 Hfresh) as Hc0.
  destruct (run_consistent st0 n Hc0) as (st1 & Hn1 & Hc1 & (_ & _ & _ & Hlp1) & Hpc1).
  rewrite Hn in Hn1. injection Hn1 as <-.
  destruct (run_consistent st0 m Hc0) as (st2 & Hm2 & Hc2 & (_ & _ & _ & Hlp2) & Hpc2).
  rewrite Hm in Hm2. injection Hm2 as <-.
  replace m with (n + (m - n)) in Hm by lia.
  rewrite run_add, Hn in Hm. cbn [bind] in Hm.
  destruct (run_from stn (m - n) Hc1) as (st' & Hrun & _ & Hle & Hp & Hu & Hdone).
  rewrite Hm in Hrun. injection Hrun as <-.
  destruct Hfresh as (_ & _ & _ & Hpc0 & _). unfold get_total_letters.
  split; [lia|]. split; [exact Hp|]. split; [exact Hu|].
  intros Hfull. apply Hdone. rewrite Hlp1. lia.
Qed.

(** X7: after [n] steps [get_letter_at_position] gives, at the [i]-th letter
    position, the [i]-th character of the answer without its spaces when
    [i < n] and nothing otherwise, and nothing at a cell that is no letter
    position. *)
Theorem letter_at_after_steps (q : Quote) (g0 g : gen) (st0 st : GameState)
  (n r c : nat) :
  GameState_init q g0 = OK (st0, g) ->
  run n st0 = OK st ->
  (forall i, nth_error (letter_positions st0) i = Some (r, c) ->
     get_letter_at_position st r c
     = if i <? n then nth_error (remove_spaces (answer q)) i else None)
  /\ (~ In (r, c) (letter_positions st0) -> get_letter_at_position st r c = None).
Proof.
  intros Hinit Hrun.
  apply GameState_init_fresh in Hinit as (Hfresh & Hq & _).
  pose proof (fresh_letter_positions st0 Hfresh) as Hcells.
  destruct (run_consistent st0 n (fresh_consistent st0 Hfresh))
    as (st1 & Hrun1 & (Hans & Hle & Hpl & _) & (Hq1 & _ & _ & Hlp) & Hpc).
  rewrite Hrun in Hrun1. injection Hrun1 as <-.
  destruct Hfresh as (_ & _ & _ & Hpc0 & _). rewrite Hpc0 in Hpc. cbn [Nat.add] in Hpc.
  rewrite Hq1, Hq in Hans, Hpl. rewrite Hlp in Hans, Hle.
  unfold get_letter_at_position. rewrite Hlp. split.
  - intros i Hi.
    assert (Hlt : i < length (letter_positions st0)) by (apply nth_error_Some; congruence).
    rewrite (index_of_nth _ i (r, c));
      [|rewrite Hcells; apply letter_cells_from_NoDup|exact Hi].
    rewrite Hpl, length_firstn, nth_error_firstn.
    replace (Nat.min (placed_count st) (length (remove_spaces (answer q))))
      with (placed_count st) by lia.
    rewrite andb_diag.
    destruct (i <? n) eqn:E1, (i <? placed_count st) eqn:E2; try reflexivity;
      rewrite ?Nat.ltb_lt, ?Nat.ltb_ge in *; lia.
  - intros Hout. now rewrite index_of_absent.
Qed.

End Runs.

(** ** [Quote.answer] *)

Lemma lstrip_split (s : str) : exists sp, spaces sp /\ s = sp ++ lstrip s.
Proof.
  induction s as [|c s (sp & Hsp & IH)]; [exists []; split; [constructor|reflexivity]|].
  simpl. destruct (isspace c) eqn:E.
  - exists (c :: sp). split; [now constructor|]. simpl. now rewrite <- IH.
  - exists []. split; [constructor|reflexivity].
Qed.

Lemma lstrip_no_lead (s : str) : no_lead (lstrip s).
Proof.
  induction s as [|c s IH]; simpl; [exact I|].
  destruct (isspace c) eqn:E; [exact IH|exact E].
Qed.

Lemma no_lead_lstrip (s : str) : no_lead s -> lstrip s = s.
Proof. destruct s as [|c s]; simpl; [reflexivity|]. now intros ->. Qed.

Lemma spaces_rev (s : str) : spaces s -> spaces (rev s).
Proof. apply Forall_rev. Qed.

Lemma rstrip_split (s : str) : exists sp, spaces sp /\ s = rstrip s ++ sp.
Proof.
  unfold rstrip. destruct (lstrip_split (rev s)) as (sp & Hsp & H).
  exists (rev sp). split; [now apply spaces_rev|].
  rewrite <- rev_app_distr, <- H. symmetry. apply rev_involutive.
Qed.

Lemma rstrip_no_lead (s : str) : no_lead s -> no_lead (rstrip s).
Proof.
  intros Hs. destruct (rstrip_split s) as (sp & _ & H).
  destruct (rstrip s) as [|c r]; [exact I|].
  rewrite H in Hs. exact Hs.
Qed.

Lemma rstrip_no_trail (s : str) : no_lead (rev (rstrip s)).
Proof. unfold rstrip. rewrite rev_involutive. apply lstrip_no_lead. Qed.

Lemma strip_fixed (s : str) : no_lead s -> no_lead (rev s) -> strip s = s.
Proof.
  intros H1 H2. unfold strip, rstrip.
  rewrite (no_lead_lstrip s H1), (no_lead_lstrip (rev s) H2).
  apply rev_involutive.
Qed.

Lemma strip_trimmed (s : str) : no_lead (strip s) /\ no_lead (rev (strip s)).
Proof.
  unfold strip. split.
  - apply rstrip_no_lead, lstrip_no_lead.
  - apply rstrip_no_trail.
Qed.

Lemma strip_split (s : str) :
  exists sp1 sp2, spaces sp1 /\ spaces sp2 /\ s = sp1 ++ strip s ++ sp2.
Proof.
  destruct (lstrip_split s) as (sp1 & H1 & E1).
  destruct (rstrip_split (lstrip s)) as (sp2 & H2 & E2).
  exists sp1, sp2. split; [exact H1|]. split; [exact H2|].
  unfold strip. now rewrite <- E2.
Qed.

(** X8: the answer of a quote neither starts nor ends with whitespace, and
    it is the text without the whitespace around it and without at most
    one sentence-ending mark (and the whitespace before that mark). *)
Theorem answer_is_trimmed_text (q : Quote) :
  strip (answer q) = answer q
  /\ no_lead (answer q) /\ no_lead (rev (answer q))
  /\ exists pre sp1 mark sp2,
       text q = pre ++ answer q ++ sp1 ++ mark ++ sp2
       /\ spaces pre /\ spaces sp1 /\ end_mark mark /\ spaces sp2.
Proof.
  assert (Htrim : no_lead (answer q) /\ no_lead (rev (answer q))).
  { unfold answer. destruct (rev (strip (text q))) as [|last init_rev];
      [apply strip_trimmed|].
    destruct (in_chars last _); apply strip_trimmed. }
  split; [now apply strip_fixed|]. split; [apply Htrim|]. split; [apply Htrim|].
  destruct (strip_split (text q)) as (a & b & Ha & Hb & Htext).
  unfold answer. destruct (rev (strip (text q))) as [|last init_rev] eqn:E.
  - exists a, [], [], b.
    split; [exact Htext|]. split; [exact Ha|]. split; [constructor|].
    split; [now left|exact Hb].
  - destruct (in_chars last ["."; "!"; "?"]%char) eqn:Em.
    + apply (f_equal (@rev ascii)) in E. rewrite rev_involutive in E. simpl in E.
      destruct (strip_split (rev init_rev)) as (a' & b' & Ha' & Hb' & Hinit).
      exists (a ++ a'), b', [last], b.
      split; [|split; [apply Forall_app; auto|split; [exact Hb'|split; [|exact Hb]]]].
      * rewrite Htext, E, Hinit at 1. now rewrite <- !app_assoc.
      * right. now exists last.
    + exists a, [], [], b.
      split; [exact Htext|]. split; [exact Ha|]. split; [constructor|].
      split; [now left|exact Hb].
Qed.

(** ** The library *)

(** X9: on an empty library the selection raises, [IndexError] before the
    epoch and [ZeroDivisionError] from it on; on any other it returns a
    quote that copies the text, author and source of a record of the
    library and whose [id] lies between 0 and the size of the library,
    being 0 exactly before the epoch, where the record is the last one. *)
Theorem get_daily_quote_outcome (quotes : list Quote) (d : date) :
  (quotes = [] ->
   get_daily_quote quotes d
   = Raise (if (days_since_epoch d <? 0)%Z then IndexError else ZeroDivisionError))
  /\ (quotes <> [] ->
      exists q0 today,
        In q0 quotes
        /\ get_daily_quote quotes d = OK today
        /\ text today = text q0 /\ author today = author q0 /\ source today = source q0
        /\ (0 <= id today <= Z.of_nat (length quotes))%Z
        /\ (id today = 0%Z <-> (days_since_epoch d < 0)%Z)
        /\ ((days_since_epoch d < 0)%Z ->
            nth_error quotes (length quotes - 1) = Some q0)).
Proof.
  split.
  - intros ->. unfold get_daily_quote. now destruct (days_since_epoch d <? 0)%Z.
  - intros Hne. unfold get_daily_quote.
    destruct (days_since_epoch d <? 0)%Z eqn:E.
    + apply Z.ltb_lt in E. unfold last_quote.
      destruct (rev quotes) as [|q0 r] eqn:Er.
      { apply (f_equal (@rev Quote)) in Er. rewrite rev_involutive in Er. contradiction. }
      cbn [bind]. exists q0, (mkQuote 0 (text q0) (author q0) (source q0)).
      assert (Hq : quotes = rev r ++ [q0]).
      { apply (f_equal (@rev Quote)) in Er. now rewrite rev_involutive in Er. }
      split; [rewrite Hq; apply in_or_app; right; now left|].
      split; [reflexivity|]. cbn. repeat split; try lia; auto.
      rewrite Hq, length_app. simpl.
      replace (length (rev r) + 1 - 1) with (length (rev r)) by lia.
      now rewrite nth_error_app2, Nat.sub_diag by lia.
    + apply Z.ltb_ge in E.
      destruct quotes as [|q quotes]; [contradiction|].
      set (idx := ((days_since_epoch d + LIBRARY_OFFSET)
                   mod Z.of_nat (length (q :: quotes)))%Z).
      assert (Hidx : (0 <= idx < Z.of_nat (length (q :: quotes)))%Z)
        by (apply Z.mod_pos_bound; simpl; lia).
      unfold getitem.
      destruct (nth_error (q :: quotes) (Z.to_nat idx)) as [q0|] eqn:En;
        [|apply nth_error_None in En; lia].
      cbn [bind]. exists q0, (mkQuote (idx + 1) (text q0) (author q0) (source q0)).
      split; [eapply nth_error_In; eauto|]. split; [reflexivity|].
      cbn [text author source id]. repeat split; try lia.
Qed.

(** X10: the library is gone through in a cycle: from the epoch on, two
    dates whose day numbers differ by a multiple of the size of the
    library get the same quote. *)
Theorem daily_quote_cycle (quotes : list Quote) (d1 d2 : date) :
  (0 <= days_since_epoch d1)%Z ->
  (0 <= days_since_epoch d2)%Z ->
  ((days_since_epoch d2 - days_since_epoch d1) mod Z.of_nat (length quotes) = 0)%Z ->
  get_daily_quote quotes d2 = get_daily_quote quotes d1.
Proof.
  intros H1 H2 Hmod. unfold get_daily_quote.
  replace (days_since_epoch d1 <? 0)%Z with false by (symmetry; apply Z.ltb_ge; lia).
  replace (days_since_epoch d2 <? 0)%Z with false by (symmetry; apply Z.ltb_ge; lia).
  destruct quotes as [|q quotes]; [reflexivity|].
  set (n := Z.of_nat (length (q :: quotes))) in *.
  assert (Hn : (0 < n)%Z) by (unfold n; simpl; lia).
  assert (Hidx : ((days_since_epoch d2 + LIBRARY_OFFSET) mod n
                  = (days_since_epoch d1 + LIBRARY_OFFSET) mod n)%Z).
  { apply Z.mod_divide in Hmod; [|lia]. destruct Hmod as [k Hk].
    replace (days_since_epoch d2 + LIBRARY_OFFSET)%Z
      with (days_since_epoch d1 + LIBRARY_OFFSET + k * n)%Z by lia.
    apply Z_mod_plus_full. }
  now rewrite Hidx.
Qed.

(** ** The layout on the canvas *)

Lemma fold_max_ge (l : list str) (m : Z) :
  (m <= fold_left (fun m c => Z.max m (Z.of_nat (length c))) l m)%Z
  /\ Forall (fun c => (Z.of_nat (length c)
                       <= fold_left (fun m c => Z.max m (Z.of_nat (length c))) l m)%Z) l.
Proof.
  revert m; induction l as [|c l IH]; intros m; cbn [fold_left].
  - split; [lia|constructor].
  - destruct (IH (Z.max m (Z.of_nat (length c)))) as [H1 H2].
    split; [lia|]. constructor; [lia|exact H2].
Qed.

Lemma fold_max_le (l : list str) (m B : Z) :
  (m <= B)%Z ->
  Forall (fun c => (Z.of_nat (length c) <= B)%Z) l ->
  (fold_left (fun m c => Z.max m (Z.of_nat (length c))) l m <= B)%Z.
Proof.
  intros Hm H; revert m Hm; induction H as [|c l Hc Hl IH]; intros m Hm;
    cbn [fold_left]; [exact Hm|].
  apply IH. lia.
Qed.

(** No column is higher than [max_supply_height]. *)
Lemma max_supply_height_ge (supply : list str) :
  (0 <= max_supply_height supply)%Z
  /\ Forall (fun c => (Z.of_nat (length c) <= max_supply_height supply)%Z) supply.
Proof.
  destruct supply as [|col rest]; cbn [max_supply_height]; [split; [lia|constructor]|].
  destruct (fold_max_ge rest (Z.of_nat (length col))) as [H1 H2].
  split; [lia|]. constructor; [exact H1|exact H2].
Qed.

Lemma max_supply_height_le (supply : list str) (B : nat) :
  Forall (fun c => length c <= B) supply ->
  (max_supply_height supply <= Z.of_nat B)%Z.
Proof.
  intros H. destruct H as [|col rest Hc Hrest]; cbn [max_supply_height]; [lia|].
  apply fold_max_le; [lia|].
  eapply Forall_impl; [|exact Hrest]. simpl. intros c Hle. lia.
Qed.

Lemma column_letters_length (c : nat) (rows : list str) :
  length (column_letters c rows) <= length rows.
Proof.
  unfold column_letters. induction rows as [|row rows IH]; simpl; [lia|].
  rewrite length_app.
  destruct (nth_error row c) as [ch|]; [destruct (is_letter ch)|]; simpl; lia.
Qed.

Section Canvas.

Context {R : PyRandom}.

(** A supply column is no higher than the layout has rows. *)
Lemma supply_height_rows (q : Quote) (g0 g : gen) (st : GameState) :
  GameState_init q g0 = OK (st, g) ->
  (max_supply_height (supply st) <= Z.of_nat (length (rows st)))%Z.
Proof.
  intros Hinit. destruct (GameState_init_supply q g0 st g Hinit) as [Hlen Hperm].
  apply max_supply_height_le. apply Forall_forall. intros col Hin.
  apply In_nth_error in Hin as [c Hc].
  pose proof (Permutation_length (Hperm c)) as Hl.
  rewrite (nth_error_nth _ _ _ Hc) in Hl. rewrite <- Hl.
  apply column_letters_length.
Qed.

(** X11: for every state of a game whose layout has at most fourteen rows,
    the puzzle lies on the 1080 by 1920 canvas: the supply starts at or
    below the top edge, the grid ends at or above the bottom edge, the
    grid is centred horizontally with equal margins and the puzzle is
    centred vertically within one pixel. *)
Theorem puzzle_on_screen (q : Quote) (g0 g : gen) (st0 st : GameState) (n : nat) :
  GameState_init q g0 = OK (st0, g) ->
  run n st0 = OK st ->
  length (rows st) <= 14 ->
  let L := _calculate_layout st in
  (0 <= puzzle_start_y st
   /\ grid_y L + grid_height L <= HEIGHT
   /\ 0 <= grid_x L
   /\ grid_x L + grid_width L = WIDTH - grid_x L
   /\ supply_bottom_y L = puzzle_start_y st + supply_height st + 10
   /\ grid_y L = supply_bottom_y L + 10
   /\ 0 <= HEIGHT - (grid_y L + grid_height L) - puzzle_start_y st <= 1)%Z.
Proof.
  intros Hinit Hrun Hrows L.
  pose proof (supply_height_rows q g0 g st0 Hinit) as Hmax.
  destruct (max_supply_height_ge (supply st0)) as [Hpos _].
  apply GameState_init_fresh in Hinit as (Hfresh & _).
  destruct (run_consistent st0 n (fresh_consistent st0 Hfresh))
    as (st1 & Hrun1 & _ & (_ & Hr & Hs & _) & _).
  rewrite Hrun in Hrun1. injection Hrun1 as <-.
  rewrite <- Hs in Hmax, Hpos. rewrite <- Hr in Hmax.
  subst L. unfold _calculate_layout, puzzle_start_y, supply_height.
  cbn [grid_x grid_y grid_width grid_height supply_bottom_y].
  unfold HEIGHT, WIDTH, CELL_SIZE, GAP, SUPPLY_CELL_SIZE, SUPPLY_GAP_Y, GRID_COLS.
  set (k := Z.of_nat (length (rows st))) in *.
  set (m := max_supply_height (supply st)) in *.
  assert (Hk : (0 <= k <= 14)%Z) by (unfold k; lia).
  change ((1080 - (Z.of_nat 12 * 80 + (Z.of_nat 12 - 1) * 2)) / 2)%Z with 49%Z.
  change (Z.of_nat 12 * 80 + (Z.of_nat 12 - 1) * 2)%Z with 982%Z.
  pose proof (Z.div_mod (1920 - (m * (48 + 2) + 20 + (k * 80 + (k - 1) * 2))) 2
                ltac:(lia)) as Hdiv.
  pose proof (Z.mod_pos_bound (1920 - (m * (48 + 2) + 20 + (k * 80 + (k - 1) * 2))) 2
                ltac:(lia)) as Hmod.
  repeat split; lia.
Qed.

End Canvas.

(** X12: every supply cell that [_draw_supply] draws at the place
    [_calculate_layout] gives shows a letter of the supply whose index is
    not used, sits within the width of the grid column of its supply
    column, and lies between the top of the puzzle and the line ten
    pixels above the grid. *)
Theorem supply_cells_in_band (st : GameState) (cell : SupplyCell) :
  let L := _calculate_layout st in
  In cell (_draw_supply st (grid_x L) (supply_bottom_y L)) ->
  exists c column,
    nth_error (supply st) c = Some column
    /\ nth_error column (sc_index cell) = Some (sc_letter cell)
    /\ ~ In (c, sc_index cell) (used_supply_indices st)
    /\ (grid_x L + Z.of_nat c * (CELL_SIZE + GAP) <= sc_x cell
        /\ sc_x cell + SUPPLY_CELL_SIZE
           <= grid_x L + Z.of_nat c * (CELL_SIZE + GAP) + CELL_SIZE)%Z
    /\ (puzzle_start_y st + 10 <= sc_y cell
        /\ sc_y cell + SUPPLY_CELL_SIZE + SUPPLY_GAP_Y <= supply_bottom_y L)%Z.
Proof.
  intros L Hin. unfold _draw_supply in Hin.
  apply in_flat_map in Hin as ([c column] & Hcol & Hin).
  apply enumerate_from_In in Hcol as [_ Hcol]. rewrite Nat.sub_0_r in Hcol.
  unfold draw_supply_column in Hin. cbn [fst snd] in Hin.
  apply in_map_iff in Hin as ([disp [orig letter]] & <- & Hin).
  cbn [fst snd sc_x sc_y sc_letter sc_index].
  apply enumerate_from_In in Hin as [_ Hdisp]. rewrite Nat.sub_0_r in Hdisp.
  assert (Hlt : disp < length (available_letters st c column)).
  { rewrite <- length_rev. apply nth_error_Some. congruence. }
  apply nth_error_In, in_rev in Hdisp.
  unfold available_letters in Hdisp, Hlt.
  apply filter_In in Hdisp as [Horig Hun]. cbn [fst] in Hun.
  apply negb_true_iff, already_used_not_In in Hun.
  apply enumerate_from_In in Horig as [_ Horig]. rewrite Nat.sub_0_r in Horig.
  exists c, column. split; [exact Hcol|]. split; [exact Horig|]. split; [exact Hun|].
  pose proof (filter_length_le
                (fun il => negb (already_used (used_supply_indices st) c (fst il)))
                (enumerate column)) as Hfl.
  unfold enumerate in Hfl, Hlt. rewrite enumerate_from_length in Hfl.
  destruct (max_supply_height_ge (supply st)) as [_ Hall].
  rewrite Forall_forall in Hall. specialize (Hall column (nth_error_In _ _ Hcol)).
  subst L. unfold _calculate_layout, supply_height.
  cbn [grid_x grid_y supply_bottom_y].
  unfold CELL_SIZE, GAP, SUPPLY_CELL_SIZE, SUPPLY_GAP_Y in *.
  change ((80 - 48) / 2)%Z with 16%Z.
  split; [lia|]. nia.
Qed.

(** ** The picture of a reveal progress *)

Module FloatOrder.

Import SpecFloat.

Lemma SFcompare_antisym (x y : spec_float) :
  SFcompare y x = option_map CompOpp (SFcompare x y).
Proof.
  destruct x as [[]|[]| |[] m1 e1], y as [[]|[]| |[] m2 e2]; simpl; try reflexivity;
    rewrite (Z.compare_antisym e1 e2); destruct (e1 ?= e2)%Z; simpl; try reflexivity;
    f_equal.
  - rewrite CompOpp_involutive, Pos.compare_cont_antisym. reflexivity.
  - rewrite Pos.compare_cont_antisym. reflexivity.
Qed.

Lemma ltb_leb_false (x y : float) :
  PrimFloat.ltb x y = true -> PrimFloat.leb y x = false.
Proof.
  rewrite FloatAxioms.ltb_spec, FloatAxioms.leb_spec. unfold SFltb, SFleb.
  rewrite (SFcompare_antisym (Prim2SF x) (Prim2SF y)).
  destruct (SFcompare (Prim2SF x) (Prim2SF y)) as [[]|]; simpl; congruence.
Qed.

End FloatOrder.

(** X13: [render_reveal] blends exactly when the progress lies strictly
    between 0 and 1, with the progress itself as weight; it gives the
    gameplay picture when the progress is below 1 but not above 0, and the
    revealed picture in every other case, a NaN included. *)
Theorem render_reveal_decision (st : GameState) (p : float) :
  render_reveal st p
  = if PrimFloat.ltb p 1.0%float
    then if PrimFloat.ltb 0.0%float p then Blend st p else Gameplay st
    else Won st.
Proof.
  unfold render_reveal, fmin, fmax.
  destruct (PrimFloat.ltb p 1.0%float) eqn:E1.
  - destruct (PrimFloat.ltb 0.0%float p) eqn:E2.
    + now rewrite (FloatOrder.ltb_leb_false _ _ E2), (FloatOrder.ltb_leb_false _ _ E1).
    + reflexivity.
  - reflexivity.
Qed.

(** ** The frames of a reel *)

Lemma fade_progress_kind (i : nat) :
  i < 30 ->
  let p := (float_of_nat (i + 1) / float_of_nat (Z.to_nat (Z.max 30 1)))%float in
  PrimFloat.ltb p 1.0%float = (i <? 29) /\ PrimFloat.ltb 0.0%float p = true.
Proof.
  intros Hi.
  do 30 (destruct i as [|i]; [vm_compute; split; reflexivity|]).
  lia.
Qed.

(** What [generate_frames] returns: the frames of the placement phase, then
    thirty fade frames and the hold frames, all three on the state the
    placement phase ends in. *)
Lemma generate_frames_structure (st : GameState) (fanfare : option float) (reel : Reel) :
  generate_frames st fanfare = OK reel ->
  exists fs,
    frames reel
    = fs ++ map (fade_frame (Z.to_nat (solve_frames reel)) 30 (final_state reel)) (seq 0 30)
         ++ map (hold_frame (Z.to_nat (solve_frames reel) + 30) (final_state reel))
                (range (reveal_hold_frames reel))
    /\ reveal_fade_frames reel = 30%Z
    /\ (0 <= solve_frames reel)%Z
    /\ for_each (solve_frame (solve_frames reel) (length (letter_positions st)))
                (seq 0 (Z.to_nat (solve_frames reel))) (st, [])
       = OK (final_state reel, fs).
Proof.
  unfold generate_frames.
  destruct (frame_count (solve_duration _)) as [sf|e] eqn:Esf; cbn [bind]; [|discriminate].
  change (frame_count reveal_fade_duration) with (@OK Z 30%Z). cbn [bind].
  destruct (frame_count (reveal_hold_duration fanfare)) as [rhf|e] eqn:Erhf; cbn [bind];
    [|discriminate].
  destruct (for_each _ (range sf) _) as [[st1 fs]|e] eqn:Ephase; cbn [bind fst snd];
    [|discriminate].
  intros [= <-].
  cbn [solve_frames reveal_fade_frames reveal_hold_frames frames final_state].
  exists fs. split; [reflexivity|]. split; [reflexivity|].
  split; [|exact Ephase].
  apply frame_count_nonneg in Esf; [exact Esf|apply solve_duration_nonneg].
Qed.

Lemma run_one (st : GameState) (rc : nat * nat) (ch : ascii) :
  place_next_letter st = OK (true, placed st (snd rc) ch) ->
  run 1 st = OK (placed st (snd rc) ch).
Proof. intros H. cbn [run bind]. now rewrite H. Qed.

(** The loop of a frame only makes steps of the simulator. *)
Lemma advance_loop_run (target : Z) (fuel : nat) (st st' : GameState) :
  consistent st ->
  advance_loop fuel target st = OK st' ->
  exists m, run m st = OK st'.
Proof.
  revert st; induction fuel as [|fuel IH]; intros st Hc; cbn [advance_loop].
  - intros [= <-]. now exists 0.
  - destruct (Z.of_nat (placed_count st) <? target)%Z; [|intros [= <-]; now exists 0].
    destruct (place_next_letter_total st Hc)
      as [[_ ->]|(rc & ch & Hrc & Hch & Hstep)]; cbn [bind fst snd].
    + intros [= <-]. now exists 0.
    + rewrite Hstep. cbn [bind fst snd]. intros H.
      apply IH in H as [m Hm]; [|now apply placed_consistent].
      exists (1 + m). now rewrite run_add, (run_one st rc ch Hstep).
Qed.

(** The placement phase from a state [st]: every frame shows a state that
    steps from [st] reach, and the counts never decrease. *)
Lemma solve_phase_runs (solve_frames : Z) (total_letters n k : nat)
  (st st' : GameState) (acc fs : list Frame) :
  consistent st ->
  for_each (solve_frame solve_frames total_letters) (seq k n) (st, acc) = OK (st', fs) ->
  exists new,
    fs = acc ++ new
    /\ (exists m, run m st = OK st')
    /\ placed_count st <= placed_count st'
    /\ (forall j f, nth_error new j = Some f ->
          (exists m, run m st = OK (shown f))
          /\ placed_count st <= placed_count (shown f) <= placed_count st'
          /\ progress f = 0.0%float)
    /\ (forall j1 j2 f1 f2, j1 <= j2 ->
          nth_error new j1 = Some f1 -> nth_error new j2 = Some f2 ->
          placed_count (shown f1) <= placed_count (shown f2)).
Proof.
  revert k st acc; induction n as [|n IH]; intros k st acc Hc; cbn [seq for_each].
  - intros [= <- <-]. exists []. rewrite app_nil_r.
    split; [reflexivity|]. split; [now exists 0|]. split; [lia|].
    split; intros [|j]; intros; discriminate.
  - unfold solve_frame at 1. cbn [fst snd].
    destruct (target_placed solve_frames total_letters k) as [target|e]; cbn [bind];
      [|discriminate].
    destruct (advance_spec target st Hc) as (st1 & Hadv & Hc1 & _ & Hpc1).
    rewrite Hadv. cbn [bind]. intros Hrest.
    destruct (advance_loop_run _ _ _ _ Hc Hadv) as [m1 Hm1].
    apply IH in Hrest as (new & -> & [m Hm] & Hle & Hframes & Hmono); [|exact Hc1].
    assert (Hle1 : placed_count st <= placed_count st1) by lia.
    exists (mkFrame k st1 0%float :: new). rewrite <- app_assoc.
    split; [reflexivity|].
    split; [exists (m1 + m); now rewrite run_add, Hm1|]. split; [lia|]. split.
    + intros [|j] f; cbn [nth_error].
      * intros [= <-]. cbn [shown progress]. split; [now exists m1|]. split; [lia|].
        reflexivity.
      * intros Hj. apply Hframes in Hj as ([mf Hmf] & Hb & Hp).
        split; [exists (m1 + mf); now rewrite run_add, Hm1|]. split; [lia|exact Hp].
    + intros [|j1] [|j2] f1 f2 Hj; cbn [nth_error]; try lia.
      * intros [= <-] [= <-]. lia.
      * intros [= <-] H2. apply Hframes in H2 as (_ & Hb & _). cbn [shown]. lia.
      * apply Hmono. lia.
Qed.

(** A state reached by steps is the one reached by as many steps as it has
    placed letters. *)
Lemma run_canonical (st0 st : GameState) (m : nat) :
  consistent st0 -> placed_count st0 = 0 ->
  run m st0 = OK st -> run (placed_count st) st0 = OK st.
Proof.
  intros Hc0 H0 Hrun.
  destruct (run_consistent st0 m Hc0) as (st1 & Hrun1 & _ & _ & Hpc).
  rewrite Hrun in Hrun1. injection Hrun1 as <-. rewrite H0 in Hpc. cbn [Nat.add] in Hpc.
  destruct (Nat.le_gt_cases m (length (letter_positions st0))) as [Hle|Hgt].
  - rewrite Hpc, Nat.min_l by exact Hle. exact Hrun.
  - rewrite Hpc, Nat.min_r by lia.
    destruct (run_consistent st0 (length (letter_positions st0)) Hc0)
      as (stN & HrunN & HcN & (_ & _ & _ & Hlp) & HpcN).
    rewrite H0 in HpcN. cbn [Nat.add] in HpcN. rewrite Nat.min_id in HpcN.
    replace m with (length (letter_positions st0) + (m - length (letter_positions st0)))
      in Hrun by lia.
    rewrite run_add, HrunN in Hrun. cbn [bind] in Hrun.
    destruct (run_from stN (m - length (letter_positions st0)) HcN)
      as (st' & Hrun' & _ & _ & _ & _ & Hdone).
    rewrite Hrun in Hrun'. injection Hrun' as <-.
    assert (E : st = stN) by (apply Hdone; rewrite Hlp; lia).
    rewrite E. exact HrunN.
Qed.

Lemma reveal_frame_at (off : nat) (fin : GameState) (rhf : Z) (i : nat) (f : Frame) :
  nth_error (map (fade_frame off 30 fin) (seq 0 30)
             ++ map (hold_frame (off + 30) fin) (range rhf)) i = Some f ->
  (i < 30 /\ f = fade_frame off 30 fin i)
  \/ (30 <= i /\ f = hold_frame (off + 30) fin (i - 30)).
Proof.
  rewrite nth_error_app, length_map, length_seq.
  destruct (i <? 30) eqn:E.
  - apply Nat.ltb_lt in E. rewrite nth_error_map, nth_error_seq.
    replace (i <? 30) with true by (symmetry; apply Nat.ltb_lt; exact E).
    cbn [option_map Nat.add]. intros [= <-]. left. auto.
  - apply Nat.ltb_ge in E. unfold range. rewrite nth_error_map, nth_error_seq.
    destruct (i - 30 <? Z.to_nat rhf); cbn [option_map Nat.add]; [|discriminate].
    intros [= <-]. right. auto.
Qed.

Section Reel.

Context {R : PyRandom}.

(** X14: in a reel that [generate_video] returns the frames are numbered
    0, 1, 2, ... without a gap; the frames of the placement phase are
    gameplay pictures, the fade has thirty frames, of which the first
    twenty-nine blend with weight (i + 1) / 30 and the thirtieth is already
    the revealed picture, and every hold frame is the revealed picture. *)
Theorem reel_pictures (q : Quote) (fanfare : option float) (g0 : gen) (reel : Reel) :
  generate_video q fanfare g0 = OK reel ->
  reveal_fade_frames reel = 30%Z
  /\ forall j f,
       nth_error (frames reel) j = Some f ->
       frame_no f = j
       /\ saved_picture reel j f
          = let i := (Z.of_nat j - solve_frames reel)%Z in
            if (i <? 0)%Z then Gameplay (shown f)
            else if (i <? 29)%Z
                 then Blend (final_state reel)
                        (float_of_nat (Z.to_nat i + 1) / float_of_nat 30)%float
                 else Won (final_state reel).
Proof.
  unfold generate_video.
  destruct (GameState_init q g0) as [[st0 g]|e] eqn:Hinit; cbn [bind fst]; [|discriminate].
  intros Hgen.
  destruct (generate_frames_structure st0 fanfare reel Hgen)
    as (fs & Hframes & Hrff & Hsf & Hphase).
  split; [exact Hrff|].
  apply GameState_init_fresh in Hinit as (Hfresh & _).
  apply solve_phase_spec in Hphase as (new & Hfs & Hlen & _ & _ & Hnew);
    [|now apply fresh_consistent|reflexivity].
  cbn [app] in Hfs. subst new.
  intros j f Hj. rewrite Hframes, nth_error_app in Hj. unfold saved_picture.
  destruct (j <? length fs) eqn:E.
  - apply Nat.ltb_lt in E. apply Hnew in Hj as (Hno & _).
    split; [exact Hno|].
    replace (Z.of_nat j <? solve_frames reel)%Z with true
      by (symmetry; apply Z.ltb_lt; lia).
    cbv zeta.
    replace (Z.of_nat j - solve_frames reel <? 0)%Z with true
      by (symmetry; apply Z.ltb_lt; lia).
    reflexivity.
  - apply Nat.ltb_ge in E.
    replace (Z.of_nat j <? solve_frames reel)%Z with false
      by (symmetry; apply Z.ltb_ge; lia).
    cbv zeta.
    replace (Z.of_nat j - solve_frames reel <? 0)%Z with false
      by (symmetry; apply Z.ltb_ge; lia).
    replace (Z.to_nat (Z.of_nat j - solve_frames reel)) with (j - length fs) by lia.
    replace (Z.of_nat j - solve_frames reel <? 29)%Z with (j - length fs <? 29).
    2:{ destruct (j - length fs <? 29) eqn:E29; symmetry.
        - apply Nat.ltb_lt in E29. apply Z.ltb_lt. lia.
        - apply Nat.ltb_ge in E29. apply Z.ltb_ge. lia. }
    apply reveal_frame_at in Hj as [[Hi ->]|[Hi ->]].
    + unfold fade_frame. cbn [frame_no shown progress].
      split; [lia|]. rewrite render_reveal_decision.
      destruct (fade_progress_kind (j - length fs) Hi) as [H1 H2].
      cbv zeta in H1, H2. rewrite H1, H2. reflexivity.
    + unfold hold_frame. cbn [frame_no shown progress].
      split; [lia|]. rewrite render_reveal_decision.
      replace (j - length fs <? 29) with false by (symmetry; apply Nat.ltb_ge; lia).
      reflexivity.
Qed.

(** X15: every frame of a returned reel shows a state of the simulator's
    run, the one reached after as many steps as the frame shows letters;
    the number of letters shown never decreases from one frame to the
    next; the two reveal phases show the state the placement phase ends
    in. *)
Theorem frames_follow_run (q : Quote) (fanfare : option float) (g0 : gen) (reel : Reel) :
  generate_video q fanfare g0 = OK reel ->
  exists st0 g,
    GameState_init q g0 = OK (st0, g)
    /\ (forall j f, nth_error (frames reel) j = Some f ->
          run (placed_count (shown f)) st0 = OK (shown f))
    /\ (forall j1 j2 f1 f2, j1 <= j2 ->
          nth_error (frames reel) j1 = Some f1 ->
          nth_error (frames reel) j2 = Some f2 ->
          placed_count (shown f1) <= placed_count (shown f2))
    /\ (forall j f, nth_error (frames reel) j = Some f ->
          (solve_frames reel <= Z.of_nat j)%Z -> shown f = final_state reel).
Proof.
  unfold generate_video.
  destruct (GameState_init q g0) as [[st0 g]|e] eqn:Hinit; cbn [bind fst]; [|discriminate].
  intros Hgen. exists st0, g. split; [reflexivity|].
  destruct (generate_frames_structure st0 fanfare reel Hgen)
    as (fs & Hframes & Hrff & Hsf & Hphase).
  apply GameState_init_fresh in Hinit as (Hfresh & _).
  pose proof (fresh_consistent st0 Hfresh) as Hc0.
  destruct Hfresh as (_ & _ & _ & Hpc0 & _).
  pose proof Hphase as Hphase'.
  apply solve_phase_spec in Hphase' as (new' & Hfs' & Hlen & _); [|exact Hc0|reflexivity].
  cbn [app] in Hfs'. subst new'.
  apply solve_phase_runs in Hphase as (new & Hfs & [mfin Hfin] & _ & Hnew & Hmono);
    [|exact Hc0].
  cbn [app] in Hfs. subst new.
  assert (Hlater : forall j f, nth_error (frames reel) j = Some f ->
                     length fs <= j -> shown f = final_state reel).
  { intros j f Hj Hle. rewrite Hframes, nth_error_app2 in Hj by exact Hle.
    apply reveal_frame_at in Hj as [[_ ->]|[_ ->]]; reflexivity. }
  assert (Hearly : forall j f, nth_error (frames reel) j = Some f ->
                     j < length fs -> nth_error fs j = Some f).
  { intros j f Hj Hlt. now rewrite Hframes, nth_error_app1 in Hj by exact Hlt. }
  split; [|split].
  - intros j f Hj. destruct (Nat.lt_ge_cases j (length fs)) as [Hlt|Hge].
    + apply Hearly in Hj; [|exact Hlt]. apply Hnew in Hj as ([m Hm] & _).
      now apply (run_canonical st0 _ m).
    + rewrite (Hlater j f Hj Hge). now apply (run_canonical st0 _ mfin).
  - intros j1 j2 f1 f2 Hle H1 H2.
    destruct (Nat.lt_ge_cases j2 (length fs)) as [Hlt2|Hge2].
    + apply (Hmono j1 j2); auto; apply Hearly; auto; lia.
    + rewrite (Hlater j2 f2 H2 Hge2).
      destruct (Nat.lt_ge_cases j1 (length fs)) as [Hlt1|Hge1].
      * apply Hearly in H1; [|exact Hlt1]. apply Hnew in H1 as (_ & Hb & _). lia.
      * rewrite (Hlater j1 f1 H1 Hge1). lia.
  - intros j f Hj Hle. apply (Hlater j f Hj). lia.
Qed.

End Reel.

(** ** The cells of the grid *)


Section GridCells.

Context {R : PyRandom}.


End GridCells.

(** ** The pause before the first letter *)

Lemma advance_zero (st : GameState) : advance 0 st = OK st.
Proof.
  unfold advance.
  replace (Z.to_nat (0 - Z.of_nat (placed_count st))) with 0 by lia.
  reflexivity.
Qed.

(** Up to frame 6 the time is at most [pause_before_start]: the target is
    no letter, unless the frame is the last of the phase. *)
Lemma target_in_pause (solve_frames : Z) (total_letters frame : nat) :
  frame <= 6 ->
  Z.of_nat frame <> (solve_frames - 1)%Z ->
  target_placed solve_frames total_letters frame = OK 0%Z.
Proof.
  intros Hf Hlast. unfold target_placed.
  replace (Z.of_nat frame =? solve_frames - 1)%Z with false
    by (symmetry; apply Z.eqb_neq; exact Hlast).
  do 7 (destruct frame as [|frame]; [reflexivity|]).
  lia.
Qed.

Lemma pause_phase (solve_frames : Z) (total_letters n k : nat) (st : GameState)
  (acc : list Frame) :
  k + n <= 7 ->
  (Z.of_nat (k + n) <= solve_frames - 1)%Z ->
  for_each (solve_frame solve_frames total_letters) (seq k n) (st, acc)
  = OK (st, acc ++ map (fun j => mkFrame j st 0.0%float) (seq k n)).
Proof.
  revert k acc; induction n as [|n IH]; intros k acc Hk Hsf; cbn [seq for_each map].
  - now rewrite app_nil_r.
  - unfold solve_frame at 1. cbn [fst snd].
    rewrite target_in_pause by lia. cbn [bind].
    rewrite advance_zero. cbn [bind].
    rewrite IH by lia. now rewrite <- app_assoc.
Qed.

Section Pause.

Context {R : PyRandom}.

(** X17: a reel starts with the pause: every frame up to frame 6 that comes
    before the last frame of the placement phase shows the state
    [GameState.__init__] built, with no letter placed and the whole supply
    on display. *)
Theorem initial_pause (q : Quote) (fanfare : option float) (g0 : gen) (reel : Reel)
  (j : nat) (f : Frame) :
  generate_video q fanfare g0 = OK reel ->
  j <= 6 ->
  (Z.of_nat j < solve_frames reel - 1)%Z ->
  nth_error (frames reel) j = Some f ->
  exists st0 g,
    GameState_init q g0 = OK (st0, g)
    /\ shown f = st0
    /\ placed_count (shown f) = 0
    /\ used_supply_indices (shown f) = [].
Proof.
  unfold generate_video.
  destruct (GameState_init q g0) as [[st0 g]|e] eqn:Hinit; cbn [bind fst]; [|discriminate].
  intros Hgen Hj Hlast Hnth. exists st0, g. split; [reflexivity|].
  destruct (generate_frames_structure st0 fanfare reel Hgen)
    as (fs & Hframes & _ & Hsf & Hphase).
  apply GameState_init_fresh in Hinit as (Hfresh & _).
  pose proof (fresh_consistent st0 Hfresh) as Hc0.
  replace (Z.to_nat (solve_frames reel))
    with (S j + (Z.to_nat (solve_frames reel) - S j)) in Hphase by lia.
  rewrite seq_app, for_each_app, pause_phase in Hphase by lia.
  cbn [bind app] in Hphase.
  apply solve_phase_spec in Hphase as (new & Hfs & _); [|exact Hc0|reflexivity].
  assert (Hf : f = mkFrame j st0 0.0%float).
  { rewrite Hframes, Hfs, <- !app_assoc in Hnth.
    rewrite nth_error_app1 in Hnth by (rewrite length_map, length_seq; lia).
    rewrite nth_error_map, nth_error_seq in Hnth.
    replace (j <? S j) with true in Hnth by (symmetry; apply Nat.ltb_lt; lia).
    cbn [option_map Nat.add] in Hnth. now injection Hnth as <-. }
  subst f. cbn [shown].
  destruct Hfresh as (_ & _ & _ & Hpc & Hus). auto.
Qed.

End Pause.

(** ** What the gameplay grid shows *)

Lemma tagged_row_In (r k : nat) (row : str) (r' c : nat) (ch : ascii) :
  In ((r', c), ch) (tagged_row r k row)
  <-> r' = r /\ k <= c /\ nth_error row (c - k) = Some ch /\ is_letter ch = true.
Proof.
  unfold tagged_row. rewrite in_map_iff. split.
  - intros ([c0 ch0] & [= <- <- <-] & Hin). apply filter_In in Hin as [Hin Hl].
    apply enumerate_from_In in Hin as [Hle Hn]. auto.
  - intros (-> & Hle & Hn & Hl). exists (c, ch). split; [reflexivity|].
    apply filter_In. split; [|exact Hl].
    replace c with (k + (c - k)) at 1 by lia. now apply enumerate_from_nth.
Qed.

Lemma tagged_from_In (rows : list str) (r c : nat) (ch : ascii) :
  In ((r, c), ch) (tagged_from 0 rows)
  <-> exists row,
        nth_error rows r = Some row /\ nth_error row c = Some ch
        /\ is_letter ch = true.
Proof.
  unfold tagged_from. rewrite in_flat_map. split.
  - intros ([r0 row] & Hrow & Hin). cbn [fst snd] in Hin.
    apply tagged_row_In in Hin as (-> & _ & Hn & Hl).
    apply enumerate_from_In in Hrow as [_ Hrow].
    rewrite Nat.sub_0_r in Hrow, Hn. now exists row.
  - intros (row & Hrow & Hn & Hl). exists (r, row). split.
    + now apply (enumerate_from_nth rows 0 r).
    + cbn [fst snd]. apply tagged_row_In. rewrite Nat.sub_0_r.
      split; [reflexivity|]. split; [lia|]. now split.
Qed.

Lemma repeat_block_filter (f : ascii -> bool) (n : nat) :
  f BLOCK = false -> filter f (repeat BLOCK n) = [].
Proof. intros Hf. induction n; simpl; [reflexivity|]. now rewrite Hf. Qed.

Lemma framed_lines_filter (f : ascii -> bool) (ls : list str) :
  f BLOCK = false ->
  filter f (concat (map frame_line ls)) = filter f (concat ls).
Proof.
  intros Hf. induction ls as [|l ls IH]; simpl; [reflexivity|].
  rewrite !filter_app, IH. f_equal. unfold frame_line.
  now rewrite !filter_app, !repeat_block_filter, app_nil_r.
Qed.

(** The cells of a layout built from letters and spaces: blocks and letters. *)
Lemma letters_only_rows (a : str) (rows : list str) (row : str) (ch : ascii) :
  Forall fits (split_space a) ->
  letters_only a ->
  _build_grid a = OK rows ->
  In row rows -> In ch row ->
  Ascii.eqb ch BLOCK = false -> is_letter ch = true.
Proof.
  intros Hfit Hlet Hgrid Hrow Hch Hnb.
  rewrite (build_grid_fits _ Hfit) in Hgrid. injection Hgrid as <-.
  set (nb := fun c : ascii => negb (Ascii.eqb c BLOCK)).
  assert (Hin : In ch (filter nb (concat (map frame_line (build_lines a))))).
  { apply filter_In. split.
    - apply in_concat. now exists row.
    - unfold nb. now rewrite Hnb. }
  rewrite framed_lines_filter, build_lines_filter in Hin by reflexivity.
  apply filter_In in Hin as [Hin _].
  unfold letters_only in Hlet. rewrite Forall_forall in Hlet. now apply Hlet.
Qed.

Lemma get_letter_after_run (st0 st : GameState) (n i r c : nat) :
  fresh st0 ->
  run n st0 = OK st ->
  nth_error (letter_positions st0) i = Some (r, c) ->
  get_letter_at_position st r c
  = if i <? n then nth_error (remove_spaces (answer (quote st0))) i else None.
Proof.
  intros Hfresh Hrun Hi.
  pose proof (fresh_letter_positions st0 Hfresh) as Hcells.
  destruct (run_consistent st0 n (fresh_consistent st0 Hfresh))
    as (st1 & Hrun1 & (Hans & Hle & Hpl & _) & (Hq1 & _ & _ & Hlp) & Hpc).
  rewrite Hrun in Hrun1. injection Hrun1 as <-.
  destruct Hfresh as (_ & _ & _ & Hpc0 & _). rewrite Hpc0 in Hpc. cbn [Nat.add] in Hpc.
  rewrite Hq1 in Hans, Hpl. rewrite Hlp in Hans, Hle.
  unfold get_letter_at_position. rewrite Hlp.
  assert (Hlt : i < length (letter_positions st0)).
  { apply nth_error_Some. rewrite Hi. discriminate. }
  rewrite (index_of_nth _ i (r, c));
    [|rewrite Hcells; apply letter_cells_from_NoDup|exact Hi].
  rewrite Hpl, length_firstn, nth_error_firstn.
  replace (Nat.min (placed_count st) (length (remove_spaces (answer (quote st0)))))
    with (placed_count st) by lia.
  rewrite andb_diag.
  destruct (i <? n) eqn:E1, (i <? placed_count st) eqn:E2; try reflexivity;
    rewrite ?Nat.ltb_lt, ?Nat.ltb_ge in *; lia.
Qed.

Section GridLetters.

Context {R : PyRandom}.

(** X18: for an answer of letters and spaces whose words fit the grid, the
    gameplay grid never shows a wrong letter.  After [n] steps every cell
    that [_draw_grid] draws is the cell of a place [(r, c)] of the layout;
    it is a block cell where the layout has [#], and otherwise the letter
    cell of a letter position, the [i]-th say, which shows the character
    the layout has at [(r, c)] when [i < n] and is empty when not. *)
Theorem grid_shows_layout (q : Quote) (g0 g : gen) (st0 st : GameState) (n : nat)
  (x y : Z) (cell : GridCell) :
  Forall fits (split_space (answer q)) ->
  letters_only (answer q) ->
  GameState_init q g0 = OK (st0, g) ->
  run n st0 = OK st ->
  In cell (_draw_grid st x y) ->
  exists r c row ch,
    nth_error (rows st0) r = Some row /\ nth_error row c = Some ch
    /\ cell = draw_grid_cell st x y r (c, ch)
    /\ ((ch = BLOCK /\ gc_kind cell = BlockCell)
        \/ (ch <> BLOCK
            /\ exists i,
                 nth_error (letter_positions st0) i = Some (r, c)
                 /\ gc_kind cell = LetterCell (if i <? n then Some ch else None))).
Proof.
  intros Hfit Hlet Hinit Hrun Hin.
  apply GameState_init_fresh in Hinit as (Hfresh & Hq & _).
  pose proof (fresh_letter_positions st0 Hfresh) as Hcells.
  destruct (run_consistent st0 n (fresh_consistent st0 Hfresh))
    as (st1 & Hrun1 & _ & (_ & Hr & _) & _).
  rewrite Hrun in Hrun1. injection Hrun1 as <-.
  pose proof Hfresh as (Hgrid & _). rewrite Hq in Hgrid.
  assert (Hans : remove_spaces (answer q) = letters_of (concat (rows st0))).
  { pose proof Hgrid as Hg. rewrite (build_grid_fits _ Hfit) in Hg. injection Hg as <-.
    rewrite framed_lines_letters. unfold letters_of.
    rewrite (build_lines_filter is_letter _ is_letter_block).
    symmetry. apply filter_all. exact Hlet. }
  unfold _draw_grid, enumerate in Hin. rewrite Hr in Hin.
  apply in_flat_map in Hin as ([r row] & Hrow & Hin).
  apply enumerate_from_In in Hrow as [_ Hrow]. rewrite Nat.sub_0_r in Hrow.
  cbn [fst snd] in Hin. apply in_map_iff in Hin as ([c ch] & <- & Hin).
  apply enumerate_from_In in Hin as [_ Hc]. rewrite Nat.sub_0_r in Hc.
  exists r, c, row, ch. split; [exact Hrow|]. split; [exact Hc|].
  split; [reflexivity|].
  unfold draw_grid_cell. cbn [fst snd gc_kind].
  destruct (Ascii.eqb ch BLOCK) eqn:Hb.
  - left. apply Ascii.eqb_eq in Hb. now split.
  - right. split; [now apply Ascii.eqb_neq|].
    assert (Hl : is_letter ch = true).
    { apply (letters_only_rows (answer q) (rows st0) row ch); auto.
      - now apply nth_error_In with r.
      - now apply nth_error_In with c. }
    assert (Hp : in_chars ch PUNCTUATION_MARKS = false).
    { unfold is_letter in Hl. apply andb_true_iff in Hl as [_ Hl].
      now apply negb_true_iff in Hl. }
    rewrite Hp.
    assert (HT : In ((r, c), ch) (tagged_from 0 (rows st0))).
    { apply tagged_from_In. now exists row. }
    apply In_nth_error in HT as [i Hi]. exists i.
    assert (Hpos : nth_error (letter_positions st0) i = Some (r, c)).
    { rewrite Hcells. unfold letter_cells. rewrite <- (tagged_from_cells 0).
      now rewrite nth_error_map, Hi. }
    split; [exact Hpos|]. f_equal.
    rewrite (get_letter_after_run st0 st n i r c Hfresh Hrun Hpos).
    rewrite Hq, Hans, <- (tagged_from_letters 0), nth_error_map, Hi.
    reflexivity.
Qed.

End GridLetters.

(** ** What the revealed grid shows *)

Lemma won_row_chars (x y : Z) (r k : nat) (row : str) :
  map wt_char (flat_map (draw_won_cell x y r) (enumerate_from k row))
  = filter not_block row.
Proof.
  revert k; induction row as [|ch row IH]; intros k; cbn [enumerate_from flat_map filter];
    [reflexivity|].
  rewrite map_app, IH. unfold draw_won_cell, not_block. cbn [fst snd].
  now destruct (Ascii.eqb ch BLOCK).
Qed.

Lemma won_rows_chars (x y : Z) (k : nat) (rows : list str) :
  map wt_char
    (flat_map (fun rr => flat_map (draw_won_cell x y (fst rr)) (enumerate (snd rr)))
              (enumerate_from k rows))
  = filter not_block (concat rows).
Proof.
  revert k; induction rows as [|row rows IH]; intros k;
    cbn [enumerate_from flat_map concat]; [reflexivity|].
  rewrite map_app, filter_app, IH. cbn [fst snd]. unfold enumerate.
  now rewrite won_row_chars.
Qed.

Lemma won_row_corners (st : GameState) (x y : Z) (r k : nat) (row : str) :
  map won_corner (flat_map (draw_won_cell x y r) (enumerate_from k row))
  = map grid_corner
      (filter (fun cell => negb (is_block_cell cell))
              (map (draw_grid_cell st x y r) (enumerate_from k row))).
Proof.
  revert k; induction row as [|ch row IH]; intros k;
    cbn [enumerate_from flat_map map filter]; [reflexivity|].
  rewrite map_app, IH.
  assert (Hb : is_block_cell (draw_grid_cell st x y r (k, ch)) = Ascii.eqb ch BLOCK).
  { unfold is_block_cell, draw_grid_cell. cbn [fst snd gc_kind].
    destruct (Ascii.eqb ch BLOCK); [reflexivity|].
    now destruct (in_chars ch PUNCTUATION_MARKS). }
  rewrite Hb. unfold draw_won_cell at 1. cbn [fst snd].
  destruct (Ascii.eqb ch BLOCK); reflexivity.
Qed.

Lemma won_rows_corners (st : GameState) (x y : Z) (k : nat) (rows : list str) :
  map won_corner
    (flat_map (fun rr => flat_map (draw_won_cell x y (fst rr)) (enumerate (snd rr)))
              (enumerate_from k rows))
  = map grid_corner
      (filter (fun cell => negb (is_block_cell cell))
         (flat_map (fun rr => map (draw_grid_cell st x y (fst rr)) (enumerate (snd rr)))
                   (enumerate_from k rows))).
Proof.
  revert k; induction rows as [|row rows IH]; intros k;
    cbn [enumerate_from flat_map]; [reflexivity|].
  rewrite map_app, filter_app, map_app, IH. cbn [fst snd]. unfold enumerate.
  now rewrite (won_row_corners st).
Qed.

Lemma strip_length (s : str) : length (strip s) <= length s.
Proof.
  destruct (strip_split s) as (sp1 & sp2 & _ & _ & E).
  rewrite E at 2. rewrite !length_app. lia.
Qed.

(** Whether the trimmed text ends in a mark decides whether the answer is
    the trimmed text. *)
Lemma answer_drops_mark (q : Quote) :
  match rev (strip (text q)) with
  | last :: _ =>
      if in_chars last ["."; "!"; "?"]%char
      then answer q <> strip (text q)
      else answer q = strip (text q)
  | [] => answer q = strip (text q)
  end.
Proof.
  unfold answer. destruct (rev (strip (text q))) as [|last init_rev] eqn:E;
    [reflexivity|].
  destruct (in_chars last ["."; "!"; "?"]%char); [|reflexivity].
  intros H. apply (f_equal (@length ascii)) in H.
  assert (Hl : length (strip (text q)) = S (length init_rev)).
  { rewrite <- (length_rev (strip (text q))), E. reflexivity. }
  assert (Hs : length (strip (rev init_rev)) <= length init_rev).
  { rewrite <- (length_rev init_rev). apply strip_length. }
  lia.
Qed.

Section WonGrid.

Context {R : PyRandom}.

(** X19: for every state of a built game [_draw_won_grid] does not raise.
    It writes the characters of the layout that are no blocks, in reading
    order, one in each cell that [_draw_grid] draws as no block cell.  The
    sentence-ending mark is written exactly when the answer is not the
    whole trimmed text and there is a letter position; it is the last
    character of the trimmed text and it is put after the cell of the
    last letter position, measured from the letter the layout has
    there. *)
Theorem won_grid_content (q : Quote) (g0 g : gen) (st0 st : GameState) (n : nat)
  (x y : Z) :
  GameState_init q g0 = OK (st0, g) ->
  run n st0 = OK st ->
  exists wg,
    _draw_won_grid st x y = OK wg
    /\ map wt_char (won_texts wg) = filter not_block (concat (rows st))
    /\ map won_corner (won_texts wg)
       = map grid_corner
           (filter (fun cell => negb (is_block_cell cell)) (_draw_grid st x y))
    /\ (won_mark wg <> None
        <-> answer q <> strip (text q) /\ letter_positions st <> [])
    /\ forall m, won_mark wg = Some m ->
         exists pre before r c row,
           strip (text q) = pre ++ [tm_char m]
           /\ letter_positions st = before ++ [(r, c)]
           /\ nth_error (rows st) r = Some row
           /\ nth_error row c = Some (tm_letter m)
           /\ is_letter (tm_letter m) = true
           /\ tm_cell_x m = (x + Z.of_nat c * (CELL_SIZE + GAP))%Z
           /\ tm_cell_y m = (y + Z.of_nat r * (CELL_SIZE + GAP))%Z.
Proof.
  intros Hinit Hrun.
  apply GameState_init_fresh in Hinit as (Hfresh & Hq & _).
  pose proof (fresh_letter_positions st0 Hfresh) as Hcells.
  destruct (run_consistent st0 n (fresh_consistent st0 Hfresh))
    as (st1 & Hrun1 & _ & (Hq1 & Hr & _ & Hlp) & _).
  rewrite Hrun in Hrun1. injection Hrun1 as <-.
  rewrite <- Hlp, <- Hr in Hcells. rewrite Hq in Hq1.
  pose proof (answer_drops_mark q) as Hans.
  unfold _draw_won_grid, trailing_mark. rewrite Hq1.
  assert (Htexts : forall mark,
            map wt_char (won_texts (mkWonGrid
              (flat_map (fun rr => flat_map (draw_won_cell x y (fst rr))
                                            (enumerate (snd rr)))
                        (enumerate (rows st))) mark))
            = filter not_block (concat (rows st))
            /\ map won_corner (won_texts (mkWonGrid
              (flat_map (fun rr => flat_map (draw_won_cell x y (fst rr))
                                            (enumerate (snd rr)))
                        (enumerate (rows st))) mark))
               = map grid_corner
                   (filter (fun cell => negb (is_block_cell cell))
                           (_draw_grid st x y))).
  { intros mark. cbn [won_texts]. unfold enumerate at 2 4, _draw_grid.
    split; [apply won_rows_chars|apply won_rows_corners]. }
  destruct (rev (strip (text q))) as [|mark_char init_rev] eqn:Et.
  - cbn [bind]. eexists. split; [reflexivity|].
    destruct (Htexts None) as [H1 H2].
    split; [exact H1|]. split; [exact H2|]. cbn [won_mark].
    split; [|discriminate]. split; [congruence|tauto].
  - destruct (in_chars mark_char ["."; "!"; "?"]%char) eqn:Em.
    + destruct (rev (letter_positions st)) as [|[r c] before_rev] eqn:El.
      * cbn [bind]. eexists. split; [reflexivity|].
        destruct (Htexts None) as [H1 H2].
        split; [exact H1|]. split; [exact H2|]. cbn [won_mark].
        split; [|discriminate]. split; [congruence|].
        intros [_ Hne]. exfalso. apply Hne.
        rewrite <- (rev_involutive (letter_positions st)), El. reflexivity.
      * assert (Hl : letter_positions st = rev before_rev ++ [(r, c)]).
        { rewrite <- (rev_involutive (letter_positions st)), El. reflexivity. }
        assert (Hin : In (r, c) (letter_cells (rows st))).
        { rewrite <- Hcells, Hl. apply in_or_app. right. now left. }
        unfold letter_cells in Hin. rewrite <- (tagged_from_cells 0) in Hin.
        apply in_map_iff in Hin as ([rc ch] & Hrc & Hin). cbn [fst] in Hrc. subst rc.
        apply tagged_from_In in Hin as (row & Hrow & Hch & Hletter).
        unfold getitem. unfold str in *. rewrite Hrow. cbn [bind]. rewrite Hch.
        cbn [bind]. eexists. split; [reflexivity|].
        destruct (Htexts (Some (mkTrailingMark mark_char
                                  (x + Z.of_nat c * (CELL_SIZE + GAP))
                                  (y + Z.of_nat r * (CELL_SIZE + GAP)) ch)))
          as [H1 H2].
        split; [exact H1|]. split; [exact H2|]. cbn [won_mark].
        split; [split|].
        -- intros _. split; [exact Hans|]. rewrite Hl.
           intros H. now apply app_eq_nil in H as [_ H].
        -- discriminate.
        -- intros m [= <-]. cbn [tm_char tm_letter tm_cell_x tm_cell_y].
           exists (rev init_rev), (rev before_rev), r, c, row.
           split; [|auto 10].
           rewrite <- (rev_involutive (strip (text q))), Et. reflexivity.
    + cbn [bind]. eexists. split; [reflexivity|].
      destruct (Htexts None) as [H1 H2].
      split; [exact H1|]. split; [exact H2|]. cbn [won_mark].
      split; [|discriminate]. split; [congruence|].
      intros [Hne _]. exfalso. now apply Hne.
Qed.

End WonGrid.

(** ** The wrap is greedy *)

Lemma adjacent_snoc {A : Type} (P : A -> A -> Prop) (l : list A) (a b : A) :
  adjacent P (l ++ [a]) -> P a b -> adjacent P ((l ++ [a]) ++ [b]).
Proof.
  intros H Hab i x y Hx Hy.
  assert (Hlen : length (l ++ [a]) = S (length l)) by (rewrite length_app; simpl; lia).
  assert (Hi : S i < length ((l ++ [a]) ++ [b])).
  { apply nth_error_Some. rewrite Hy. discriminate. }
  rewrite length_app in Hi. cbn [length] in Hi.
  destruct (Nat.eq_dec (S i) (length (l ++ [a]))) as [E|E].
  - rewrite nth_error_app2 in Hy by lia. rewrite E, Nat.sub_diag in Hy.
    injection Hy as <-.
    rewrite nth_error_app1 in Hx by lia.
    rewrite nth_error_app2 in Hx by lia.
    replace (i - length l) with 0 in Hx by lia. injection Hx as <-. exact Hab.
  - rewrite nth_error_app1 in Hx, Hy by lia. exact (H i x y Hx Hy).
Qed.

Lemma adjacent_last {A : Type} (P : A -> A -> Prop) (l : list A) (a a' : A) :
  adjacent P (l ++ [a]) -> (forall x, P x a -> P x a') -> adjacent P (l ++ [a']).
Proof.
  intros H Himp i x y Hx Hy.
  assert (Hi : S i < length (l ++ [a'])).
  { apply nth_error_Some. rewrite Hy. discriminate. }
  rewrite length_app in Hi. cbn [length] in Hi.
  rewrite nth_error_app1 in Hx by lia.
  destruct (Nat.eq_dec (S i) (length l)) as [E|E].
  - rewrite nth_error_app2 in Hy by lia. rewrite E, Nat.sub_diag in Hy.
    injection Hy as <-. apply Himp. apply (H i).
    + rewrite nth_error_app1 by lia. exact Hx.
    + rewrite nth_error_app2 by lia. now rewrite E, Nat.sub_diag.
  - rewrite nth_error_app1 in Hy by lia. apply (H i).
    + rewrite nth_error_app1 by lia. exact Hx.
    + rewrite nth_error_app1 by lia. exact Hy.
Qed.

Lemma join_block_one (w : str) : join_block [w] = w.
Proof. cbn [join_block map concat]. apply app_nil_r. Qed.

Lemma join_block_snoc (cur : list str) (w : str) :
  cur <> [] -> join_block (cur ++ [w]) = (join_block cur ++ [BLOCK]) ++ w.
Proof.
  destruct cur as [|c cs]; [congruence|]. intros _.
  cbn [app join_block]. rewrite map_app, concat_app. cbn [map concat].
  rewrite app_nil_r, <- !app_assoc. reflexivity.
Qed.

Lemma join_block_empty (cur : list str) :
  Forall (fun w => w <> []) cur -> join_block cur = [] -> cur = [].
Proof.
  destruct cur as [|c cs]; [reflexivity|]. intros Hw H.
  apply Forall_inv in Hw. cbn [join_block] in H.
  apply app_eq_nil in H as [H _]. contradiction.
Qed.

Lemma wrap_word_grouped (st : wrap) (done : list (list str)) (cur : list str)
  (w : str) :
  grouped st done cur ->
  exists done' cur',
    grouped (wrap_word st w) done' cur'
    /\ concat done' ++ cur' = (concat done ++ cur) ++ filter is_word [w].
Proof.
  intros (Hlines & Hline & Hlen & Hwords & Hfirst & Hadj & Hnarrow).
  destruct w as [|c w].
  { exists done, cur. cbn [wrap_word filter]. rewrite app_nil_r.
    split; [|reflexivity]. repeat (split; [assumption|]). assumption. }
  cbn [filter is_word]. unfold wrap_word.
  set (word := c :: w) in *.
  assert (Hword : word <> []) by discriminate.
  destruct (current_length st
            + match current_line st with [] => 0 | _ :: _ => 1 end
            + length word <=? GRID_COLS) eqn:Hfit.
  - apply Nat.leb_le in Hfit.
    destruct (current_line st) as [|l0 ls] eqn:Hcl.
    + (* the line is empty: the word opens it *)
      assert (Hcur : cur = []) by (apply join_block_empty; [exact Hwords|now symmetry]).
      assert (Hdone : done = []) by auto. subst cur done.
      exists [], [word]. split; [|reflexivity].
      unfold grouped. cbn [lines current_line current_length app].
      split; [exact Hlines|]. split; [now rewrite join_block_one|].
      split; [rewrite Hlen; reflexivity|].
      split; [now constructor|]. split; [reflexivity|]. split.
      * intros i a b Ha Hb. destruct i; discriminate.
      * constructor; [|constructor]. right. now exists word.
    + (* the word goes after a block *)
      assert (Hcur : cur <> []).
      { intros ->. cbn [join_block] in Hline. discriminate. }
      exists done, (cur ++ [word]). split.
      * unfold grouped. cbn [lines current_line current_length].
        split; [exact Hlines|].
        split; [rewrite join_block_snoc by exact Hcur; now rewrite <- Hline|].
        split; [rewrite Hlen, !length_app; cbn [length]; lia|].
        split; [apply Forall_app; split; [exact Hwords|now constructor]|].
        split; [intros H; now apply app_eq_nil in H as [H _]|]. split.
        -- apply (adjacent_last _ _ cur); [exact Hadj|].
           intros x (w0 & rest & -> & Hc). exists w0, (rest ++ [word]).
           split; [reflexivity|exact Hc].
        -- apply Forall_app in Hnarrow as [Hd _]. apply Forall_app.
           split; [exact Hd|]. constructor; [|constructor]. left.
           rewrite join_block_snoc by exact Hcur. rewrite <- Hline.
           rewrite !length_app. cbn [length]. rewrite Hlen in Hfit.
           cbn [length] in Hfit. lia.
      * now rewrite app_assoc.
  - apply Nat.leb_gt in Hfit.
    exists (done ++ [cur]), [word]. split.
    + unfold grouped. cbn [lines current_line current_length].
      split; [rewrite map_app, Hlines, Hline; reflexivity|].
      split; [now rewrite join_block_one|].
      split; [reflexivity|].
      split; [now constructor|]. split; [discriminate|]. split.
      * apply adjacent_snoc; [exact Hadj|].
        exists word, []. split; [reflexivity|].
        unfold cost_after. rewrite <- Hline, <- Hlen. exact Hfit.
      * apply Forall_app. split; [exact Hnarrow|].
        constructor; [|constructor]. right. now exists word.
    + rewrite concat_app. cbn [concat]. now rewrite app_nil_r.
Qed.

Lemma wrap_words_grouped (ws : list str) (st : wrap) (done : list (list str))
  (cur : list str) :
  grouped st done cur ->
  exists done' cur',
    grouped (fold_left wrap_word ws st) done' cur'
    /\ concat done' ++ cur' = (concat done ++ cur) ++ filter is_word ws.
Proof.
  revert st done cur; induction ws as [|w ws IH]; intros st done cur Hg;
    cbn [fold_left filter].
  - exists done, cur. split; [exact Hg|]. now rewrite app_nil_r.
  - destruct (wrap_word_grouped st done cur w Hg) as (d1 & c1 & Hg1 & E1).
    destruct (IH _ d1 c1 Hg1) as (d2 & c2 & Hg2 & E2).
    exists d2, c2. split; [exact Hg2|].
    rewrite E2, E1, <- app_assoc. f_equal.
    cbn [filter]. now destruct (is_word w).
Qed.

(** X20: the wrap of [_build_grid] is greedy.  The lines are the words of
    the answer in their order, grouped without splitting a word and put
    together with one [#] between two words; the word that opens a line
    after the first did not fit on the line before it; and a line wider
    than the grid holds a single word. *)
Theorem wrap_is_greedy (a : str) :
  exists groups : list (list str),
    build_lines a = map join_block groups
    /\ concat groups = words_of a
    /\ (forall i g next,
          nth_error groups i = Some g -> nth_error groups (S i) = Some next ->
          exists w rest,
            next = w :: rest /\ GRID_COLS < cost_after (join_block g) w)
    /\ forall g, In g groups ->
         length (join_block g) <= GRID_COLS \/ exists w, g = [w].
Proof.
  assert (H0 : grouped (mkWrap [] [] 0) [] []).
  { cbn. split; [reflexivity|]. split; [reflexivity|]. split; [reflexivity|].
    split; [constructor|]. split; [reflexivity|]. split.
    - intros i x y Hx Hy. destruct i; discriminate.
    - constructor; [|constructor]. left. cbn. unfold GRID_COLS. lia. }
  destruct (wrap_words_grouped (split_space a) _ _ _ H0)
    as (done & cur & (Hlines & Hline & _ & Hwords & Hfirst & Hadj & Hnarrow) & Hcat).
  cbn [concat app] in Hcat. fold (words_of a) in Hcat.
  unfold build_lines. rewrite Hlines, Hline.
  destruct cur as [|c cs].
  - rewrite (Hfirst eq_refl) in *. exists []. cbn [join_block map].
    split; [reflexivity|]. split; [exact Hcat|]. split.
    + intros i g next Hg. destruct i; discriminate.
    + intros g [].
  - assert (Hne : join_block (c :: cs) <> []).
    { intros H. apply join_block_empty in H; [discriminate|exact Hwords]. }
    exists (done ++ [c :: cs]).
    destruct (join_block (c :: cs)) as [|l0 ls] eqn:Hj; [congruence|].
    split; [rewrite map_app; cbn [map]; now rewrite Hj|].
    split; [rewrite concat_app; cbn [concat]; now rewrite app_nil_r|].
    split; [exact Hadj|].
    intros g Hg. rewrite Forall_forall in Hnarrow. now apply Hnarrow.
Qed.

(** ** The command line of the encoder *)

Lemma aligned_push (m : Mix) (input part label body : str) :
  aligned m ->
  part = lit "[" ++ str_of_nat (input_index m) ++ lit ":a]" ++ body
         ++ lit "[" ++ label ++ lit "]" ->
  aligned (mkMix (audio_inputs m ++ [input]) (filter_parts m ++ [part])
                 (labels m ++ [label]) (input_index m + 1)).
Proof.
  intros (Hidx & Hin & Hfp & Hw) Hpart. unfold aligned.
  cbn [audio_inputs filter_parts labels input_index].
  rewrite !length_app. cbn [length].
  split; [lia|]. split; [lia|]. split; [lia|].
  intros i l Hl.
  destruct (Nat.lt_ge_cases i (length (labels m))) as [Hlt|Hge].
  - rewrite nth_error_app1 in Hl by exact Hlt.
    rewrite nth_error_app1 by lia. now apply Hw.
  - assert (Hi : i < length (labels m ++ [label])).
    { apply nth_error_Some. unfold str in *. rewrite Hl. discriminate. }
    rewrite length_app in Hi. cbn [length] in Hi.
    assert (Ei : i = length (labels m)) by lia. subst i.
    rewrite nth_error_app2, Nat.sub_diag in Hl by lia. injection Hl as <-.
    exists part. split.
    + rewrite <- Hfp at 1. rewrite nth_error_app2, Nat.sub_diag by lia. reflexivity.
    + exists body. now rewrite <- Hidx.
Qed.

Section EncodeStreams.

Context {host : Host}.

Lemma add_music_aligned (reveal_start : float) (m : Mix) :
  aligned m ->
  aligned (add_music reveal_start m)
  /\ length (labels (add_music reveal_start m))
     = length (labels m) + Nat.b2n background_music_exists.
Proof.
  intros Hm. unfold add_music.
  destruct background_music_exists; cbn [Nat.b2n].
  - split; [|cbn [labels]; rewrite length_app; reflexivity].
    destruct (PrimFloat.ltb 0 reveal_start).
    + eapply aligned_push; [exact Hm|].
      instantiate (1 := lit "volume=1.2,afade=t=out:st=" ++ format_3f reveal_start
                        ++ lit ":d=1.0,atrim=0:" ++ format_3f (reveal_start + 1.0)).
      cbn [lit list_ascii_of_string app].
    repeat first [rewrite <- app_assoc | progress cbn [app]]. reflexivity.
    + eapply aligned_push; [exact Hm|].
      instantiate (1 := lit "volume=1.2"). reflexivity.
  - split; [exact Hm|lia].
Qed.

Lemma add_sfx_aligned (m : Mix) :
  aligned m ->
  aligned (add_sfx m)
  /\ length (labels (add_sfx m)) = length (labels m) + Nat.b2n letter_sfx_exists.
Proof.
  intros Hm. unfold add_sfx.
  destruct letter_sfx_exists; cbn [Nat.b2n].
  - split; [|cbn [labels]; rewrite length_app; reflexivity].
    eapply aligned_push; [exact Hm|].
    instantiate (1 := lit "volume=0.08"). reflexivity.
  - split; [exact Hm|lia].
Qed.

Lemma add_win_aligned (win_delay : float) (m m' : Mix) :
  aligned m ->
  add_win win_delay m = OK m' ->
  aligned m'
  /\ length (labels m') = length (labels m) + Nat.b2n win_fanfare_exists.
Proof.
  intros Hm. unfold add_win.
  destruct win_fanfare_exists; cbn [Nat.b2n].
  - destruct (int_of_float _) as [d|ex]; cbn [bind]; [|discriminate].
    intros [= <-].
    split; [|cbn [labels]; rewrite length_app; reflexivity].
    eapply aligned_push; [exact Hm|].
    instantiate (1 := lit "adelay=" ++ str_of_Z (Z.max 0 d) ++ lit "|"
                      ++ str_of_Z (Z.max 0 d) ++ lit ",volume=0.7").
    cbn [lit list_ascii_of_string app].
    repeat first [rewrite <- app_assoc | progress cbn [app]]. reflexivity.
  - intros [= <-]. split; [exact Hm|lia].
Qed.

(** X21: in the command that [_encode] builds every audio asset that
    exists is one input, one label and one filter, and the filter of the
    [i]-th label reads input [i + 1] and gives the stream of the label.
    The video is always mapped; with one asset its stream is mapped, with
    more the [amix] of all of them, which is then the last filter; ["1:a"]
    is never mapped.  The command has [-filter_complex] exactly when an
    asset exists. *)
Theorem encode_streams (output_path : str) (duration : float) (total_letters : nat)
  (letter_time start_delay win_delay reveal_start : float) (e : Encoding) :
  _encode output_path duration total_letters letter_time start_delay win_delay
          reveal_start = OK e ->
  length (audio_inputs (mix e)) = assets
  /\ length (labels (mix e)) = assets
  /\ (forall i label,
        nth_error (labels (mix e)) i = Some label ->
        exists part,
          nth_error (filter_parts (mix e)) i = Some part /\ wired i label part)
  /\ stream_map e
     = lit "0:v" :: match labels (mix e) with
                    | [] => []
                    | [label] => [lit "[" ++ label ++ lit "]"]
                    | _ :: _ :: _ => [lit "[aout]"]
                    end
  /\ ~ In (lit "1:a") (stream_map e)
  /\ length (filter_parts (mix e)) = (if 1 <? assets then assets + 1 else assets)
  /\ (1 < assets ->
      nth_error (filter_parts (mix e)) assets
      = Some (concat (map (fun label => lit "[" ++ label ++ lit "]") (labels (mix e)))
              ++ lit "amix=inputs=" ++ str_of_nat assets ++ lit "[aout]"))
  /\ cmd e
     = [lit "ffmpeg"; lit "-y"; lit "-framerate"; lit "30";
        lit "-i"; lit "tmp/frames/frame%05d.png"]
       ++ flat_map (fun audio => [lit "-i"; audio]) (audio_inputs (mix e))
       ++ (if 0 <? assets
           then [lit "-filter_complex"; str_join (lit ";") (filter_parts (mix e))]
           else [])
       ++ flat_map (fun s => [lit "-map"; s]) (stream_map e)
       ++ [lit "-c:v"; lit "libx264"; lit "-preset"; lit "slow";
           lit "-crf"; lit "18"; lit "-pix_fmt"; lit "yuv420p";
           lit "-c:a"; lit "aac"; lit "-b:a"; lit "192k";
           lit "-ar"; lit "48000"; lit "-shortest"; output_path].
Proof.
  unfold _encode.
  assert (H0 : aligned (mkMix [] [] [] 1)).
  { unfold aligned. cbn. repeat split; try reflexivity.
    intros i label Hl. destruct i; discriminate. }
  destruct (add_music_aligned reveal_start _ H0) as [H1 L1].
  destruct (add_sfx_aligned _ H1) as [H2 L2].
  destruct (add_win win_delay (add_sfx (add_music reveal_start (mkMix [] [] [] 1))))
    as [m3|ex] eqn:Hwin; cbn [bind]; [|discriminate].
  destruct (add_win_aligned _ _ _ H2 Hwin) as [H3 L3].
  assert (Hk : length (labels m3) = assets).
  { rewrite L3, L2, L1. cbn [labels length]. unfold assets. lia. }
  clear H0 H1 H2 L1 L2 L3 Hwin.
  destruct H3 as (_ & Hin & Hfp & Hw).
  change (str_of_nat FPS) with (lit "30").
  destruct (filter_parts m3) as [|p0 parts] eqn:Efp.
  - (* no audio at all *)
    cbn [length] in Hfp. rewrite <- Hfp in Hin.
    assert (Hl : labels m3 = []) by (destruct (labels m3); [reflexivity|discriminate]).
    assert (Ha : audio_inputs m3 = [])
      by (destruct (audio_inputs m3); [reflexivity|discriminate]).
    rewrite Ha. intros [= <-]. cbn [mix stream_map cmd].
    rewrite <- Hk, Hl, Ha, Efp. cbn [length Nat.ltb Nat.leb flat_map app].
    split; [reflexivity|]. split; [reflexivity|].
    split; [intros i label Hi; destruct i; discriminate|].
    split; [reflexivity|].
    split; [intros [E|[]]; discriminate|].
    split; [reflexivity|]. split; [lia|]. reflexivity.
  - assert (Hpos : 0 < length (labels m3)) by (rewrite <- Hfp; cbn [length]; lia).
    rewrite <- Efp in *. clear Efp p0 parts.
    destruct (1 <? length (labels m3)) eqn:Emany.
    + (* several assets: their mix *)
      intros [= <-]. cbn [mix stream_map cmd fst snd audio_inputs labels filter_parts].
      rewrite <- Hk, Emany.
      split; [exact Hin|]. split; [reflexivity|].
      split.
      { intros i label Hi. destruct (Hw i label Hi) as (part & Hp & Hwired).
        exists part. split; [|exact Hwired].
        rewrite nth_error_app1; [exact Hp|].
        apply nth_error_Some. unfold str in *. rewrite Hp. discriminate. }
      apply Nat.ltb_lt in Emany.
      split.
      { destruct (labels m3) as [|l1 [|l2 ls]]; cbn [length] in Emany;
          [lia|lia|reflexivity]. }
      split; [intros [E|[E|[]]]; discriminate|].
      split; [rewrite length_app; cbn [length]; lia|].
      split.
      { intros _. rewrite nth_error_app2 by lia.
        now rewrite Hfp, Nat.sub_diag. }
      replace (0 <? length (labels m3)) with true
        by (symmetry; apply Nat.ltb_lt; lia).
      rewrite <- !app_assoc. reflexivity.
    + (* one asset: its stream *)
      apply Nat.ltb_ge in Emany.
      assert (Hone : length (labels m3) = 1) by lia.
      destruct (labels m3) as [|label [|l2 ls]] eqn:El; cbn [length] in Hone;
        try discriminate.
      intros [= <-]. cbn [mix stream_map cmd fst snd].
      rewrite El, <- Hk. cbn [length Nat.ltb Nat.leb].
      split; [exact Hin|]. split; [reflexivity|].
      split; [exact Hw|].
      split; [reflexivity|].
      split.
      { intros [E|[E|[]]]; [discriminate|].
        cbn [lit list_ascii_of_string app] in E. discriminate. }
      split; [exact Hfp|]. split; [lia|].
      rewrite <- !app_assoc. reflexivity.
Qed.

End EncodeStreams.

(** ** How many supply cells are drawn *)

Lemma flat_map_length {A B : Type} (f : A -> list B) (l : list A) :
  length (flat_map f l) = list_sum (map (fun a => length (f a)) l).
Proof.
  induction l as [|a l IH]; cbn [flat_map map list_sum]; [reflexivity|].
  now rewrite length_app, IH.
Qed.

Lemma draw_supply_count (st : GameState) (x y : Z) :
  length (_draw_supply st x y)
  = unused_count (used_supply_indices st) 0 (supply st).
Proof.
  unfold _draw_supply, unused_count, enumerate. rewrite flat_map_length.
  f_equal. apply map_ext. intros [c column].
  unfold draw_supply_column, available_letters, enumerate. cbn [fst snd].
  now rewrite length_map, enumerate_from_length, length_rev.
Qed.

Lemma unused_count_cons (used : list (nat * nat)) (k : nat) (column : str)
  (supply : list str) :
  unused_count used k (column :: supply)
  = length (filter (fun il => negb (already_used used k (fst il))) (enumerate column))
    + unused_count used (S k) supply.
Proof. reflexivity. Qed.

Lemma unused_count_fresh (k : nat) (supply : list str) :
  unused_count [] k supply = length (concat supply).
Proof.
  revert k; induction supply as [|column supply IH]; intros k; [reflexivity|].
  rewrite unused_count_cons, IH. cbn [concat]. rewrite length_app. f_equal.
  cbn [already_used existsb negb]. unfold enumerate.
  rewrite filter_all by (apply Forall_forall; reflexivity).
  apply enumerate_from_length.
Qed.

Lemma unused_count_other (used : list (nat * nat)) (col i k : nat) (supply : list str) :
  col < k ->
  unused_count (used ++ [(col, i)]) k supply = unused_count used k supply.
Proof.
  revert k; induction supply as [|column supply IH]; intros k Hk; [reflexivity|].
  rewrite !unused_count_cons, IH by lia. f_equal. f_equal.
  apply filter_ext. intros il. rewrite already_used_app.
  replace (col =? k) with false by (symmetry; apply Nat.eqb_neq; lia).
  now rewrite orb_false_r.
Qed.

Lemma unused_count_mark (used : list (nat * nat)) (col i k : nat) (supply : list str)
  (column : str) (ch : ascii) :
  k <= col ->
  nth_error supply (col - k) = Some column ->
  nth_error column i = Some ch ->
  already_used used col i = false ->
  unused_count (used ++ [(col, i)]) k supply + 1 = unused_count used k supply.
Proof.
  revert k; induction supply as [|first supply IH]; intros k Hk Hcol Hi Hu.
  - destruct (col - k); discriminate.
  - rewrite !unused_count_cons.
    destruct (Nat.eq_dec col k) as [->|Hne].
    + rewrite Nat.sub_diag in Hcol. injection Hcol as ->.
      rewrite unused_count_other by lia.
      pose proof (available_remove used k column 0 i ch Hi Hu) as Hperm.
      apply Permutation_length in Hperm. cbn [Nat.add length] in Hperm.
      rewrite !length_map in Hperm. unfold enumerate. lia.
    + replace (col - k) with (S (col - S k)) in Hcol by lia. cbn [nth_error] in Hcol.
      rewrite <- (IH (S k)) by (auto; lia).
      assert (E : filter (fun il => negb (already_used (used ++ [(col, i)]) k (fst il)))
                         (enumerate first)
                  = filter (fun il => negb (already_used used k (fst il)))
                           (enumerate first)).
      { apply filter_ext. intros il. rewrite already_used_app.
        replace (col =? k) with false by (symmetry; apply Nat.eqb_neq; lia).
        now rewrite orb_false_r. }
      rewrite E. lia.
Qed.

Lemma placed_accounted (st : GameState) (col : nat) (ch : ascii) :
  accounted st -> accounted (placed st col ch).
Proof.
  unfold accounted. cbn [placed used_supply_indices supply]. intros Hacc.
  destruct (mark_used_cases st col ch) as [[_ ->]|(i & (column & Hcol & Hi & Hu) & ->)];
    [exact Hacc|].
  rewrite length_app. cbn [length].
  pose proof (unused_count_mark (used_supply_indices st) col i 0 (supply st) column ch)
    as Hstep.
  rewrite Nat.sub_0_r in Hstep.
  specialize (Hstep (Nat.le_0_l col) Hcol Hi).
  rewrite <- Hacc, <- Hstep by (now apply already_used_not_In). lia.
Qed.

Lemma run_accounted (st0 : GameState) (n : nat) :
  consistent st0 -> accounted st0 ->
  forall st, run n st0 = OK st -> accounted st.
Proof.
  intros Hc0 Ha0. induction n as [|n IH]; intros st; cbn [run].
  - now intros [= <-].
  - destruct (run_consistent st0 n Hc0) as (stn & Hrun & Hc & _).
    rewrite Hrun. cbn [bind]. specialize (IH stn Hrun).
    destruct (place_next_letter_total stn Hc) as [[_ ->]|(rc & ch & _ & _ & ->)];
      cbn [bind snd]; intros [= <-]; [exact IH|now apply placed_accounted].
Qed.

Section SupplyCount.

Context {R : PyRandom}.

Lemma supply_size (q : Quote) (g0 g : gen) (st : GameState) :
  GameState_init q g0 = OK (st, g) ->
  length (concat (supply st)) = length (letter_positions st).
Proof.
  intros Hinit.
  destruct (GameState_init_supply q g0 st g Hinit) as [Hlen Hperm].
  apply GameState_init_fresh in Hinit as (Hfresh & _).
  rewrite (fresh_letter_positions st Hfresh).
  destruct Hfresh as (Hgrid & _).
  unfold letter_cells. rewrite letter_cells_from_length.
  apply Permutation_length.
  rewrite (list_as_map_nth (supply st) []) at 1. rewrite Hlen.
  eapply Permutation_trans;
    [apply (concat_map_perm _ (fun c => column_letters c (rows st)));
     intros c; apply Permutation_sym, Hperm|].
  apply columns_are_letters. apply build_grid_row_length in Hgrid.
  eapply Forall_impl; [|exact Hgrid]. simpl. intros row ->. lia.
Qed.

(** X22: in every state of a built game the supply cells that
    [_draw_supply] draws and the used supply indices add up to the number
    of letter positions: a step takes one cell from the display exactly
    when it finds its letter.  For an answer of letters and spaces whose
    words fit the grid the cells drawn are as many as the letters still to
    be placed. *)
Theorem supply_cells_count (q : Quote) (g0 g : gen) (st0 st : GameState) (n : nat)
  (x y : Z) :
  GameState_init q g0 = OK (st0, g) ->
  run n st0 = OK st ->
  length (_draw_supply st x y) + length (used_supply_indices st)
  = get_total_letters st0
  /\ (Forall fits (split_space (answer q)) ->
      letters_only (answer q) ->
      length (_draw_supply st x y) = get_total_letters st0 - placed_count st).
Proof.
  intros Hinit Hrun.
  pose proof (supply_size q g0 g st0 Hinit) as Hsize.
  pose proof Hinit as Hinit'.
  apply GameState_init_fresh in Hinit' as (Hfresh & _).
  pose proof (fresh_consistent st0 Hfresh) as Hc0.
  assert (Ha0 : accounted st0).
  { unfold accounted. destruct Hfresh as (_ & _ & _ & _ & ->).
    rewrite unused_count_fresh. cbn [length]. lia. }
  pose proof (run_accounted st0 n Hc0 Ha0 st Hrun) as Ha.
  destruct (run_consistent st0 n Hc0) as (st1 & Hrun1 & _ & (_ & _ & Hs & _) & _).
  rewrite Hrun in Hrun1. injection Hrun1 as <-.
  unfold get_total_letters.
  assert (Hsum : length (_draw_supply st x y) + length (used_supply_indices st)
                 = length (letter_positions st0)).
  { rewrite draw_supply_count. unfold accounted in Ha. rewrite Ha, Hs. exact Hsize. }
  split; [exact Hsum|].
  intros Hfit Hlet.
  destruct (run_tracking st0 n (tracking_init q g0 st0 g Hfit Hlet Hinit))
    as (st2 & Hrun2 & (_ & _ & Hused) & _).
  rewrite Hrun in Hrun2. injection Hrun2 as <-. lia.
Qed.

End SupplyCount.

(** ** The stack of a supply column *)

Lemma enumerate_from_nth_error {A : Type} (xs : list A) (k d : nat) :
  nth_error (enumerate_from k xs) d
  = option_map (fun x => (k + d, x)) (nth_error xs d).
Proof.
  revert k d; induction xs as [|x xs IH]; intros k [|d]; cbn [enumerate_from nth_error];
    try reflexivity.
  - cbn [option_map]. now rewrite Nat.add_0_r.
  - rewrite IH. destruct (nth_error xs d); cbn [option_map]; [|reflexivity].
    do 2 f_equal. lia.
Qed.

(** The indices of the letters kept by a filter go up. *)
Lemma filter_enumerate_increasing {A : Type} (p : nat * A -> bool) (xs : list A)
  (k e1 e2 : nat) (a b : nat * A) :
  e1 < e2 ->
  nth_error (filter p (enumerate_from k xs)) e1 = Some a ->
  nth_error (filter p (enumerate_from k xs)) e2 = Some b ->
  fst a < fst b.
Proof.
  revert k e1 e2; induction xs as [|x xs IH]; intros k e1 e2 Hlt Ha Hb;
    cbn [enumerate_from filter] in Ha, Hb.
  - destruct e1; discriminate.
  - destruct (p (k, x)).
    + destruct e2 as [|e2]; [lia|]. cbn [nth_error] in Hb.
      destruct e1 as [|e1].
      * injection Ha as <-. cbn [fst].
        apply nth_error_In, filter_In in Hb as [Hb _].
        destruct b as [i y]. apply enumerate_from_In in Hb as [Hle _].
        cbn [fst]. lia.
      * cbn [nth_error] in Ha. apply (IH (S k) e1 e2); [lia|exact Ha|exact Hb].
    + apply (IH (S k) e1 e2); assumption.
Qed.

(** X23: the cells of a supply column are a stack without gaps that rests
    on the line above the grid: the cell at place [d], counted from the
    bottom, has its top at [(d + 1)] cell pitches above that line.  It
    shows a letter of the column at an index that is not used, and the
    higher a cell lies in the stack the smaller its index in the column
    is. *)
Theorem supply_stack (st : GameState) (x b : Z) (c : nat) (column : str) (d : nat)
  (cell : SupplyCell) :
  nth_error (draw_supply_column st x b (c, column)) d = Some cell ->
  sc_y cell = (b - (Z.of_nat d + 1) * (SUPPLY_CELL_SIZE + SUPPLY_GAP_Y))%Z
  /\ nth_error column (sc_index cell) = Some (sc_letter cell)
  /\ ~ In (c, sc_index cell) (used_supply_indices st)
  /\ forall d' cell',
       d < d' ->
       nth_error (draw_supply_column st x b (c, column)) d' = Some cell' ->
       sc_index cell' < sc_index cell /\ (sc_y cell' < sc_y cell)%Z.
Proof.
  unfold draw_supply_column. cbn [fst snd].
  set (avail := available_letters st c column).
  assert (Hcell : forall e w,
            nth_error
              (map (fun dl =>
                      mkSupplyCell (x + Z.of_nat c * (CELL_SIZE + GAP)
                                    + (CELL_SIZE - SUPPLY_CELL_SIZE) / 2)
                        (b - (Z.of_nat (fst dl) + 1) * (SUPPLY_CELL_SIZE + SUPPLY_GAP_Y))
                        (snd (snd dl)) (fst (snd dl)))
                   (enumerate (rev avail))) e = Some w ->
            e < length avail
            /\ sc_y w = (b - (Z.of_nat e + 1) * (SUPPLY_CELL_SIZE + SUPPLY_GAP_Y))%Z
            /\ nth_error avail (length avail - S e) = Some (sc_index w, sc_letter w)).
  { intros e w He. rewrite nth_error_map in He. unfold enumerate in He.
    rewrite enumerate_from_nth_error, nth_error_rev in He.
    destruct (e <? length avail) eqn:Elt; [|discriminate].
    apply Nat.ltb_lt in Elt.
    destruct (nth_error avail (length avail - S e)) as [[i letter]|]; [|discriminate].
    cbn [option_map Nat.add fst snd] in He. injection He as <-.
    cbn [sc_y sc_index sc_letter]. auto. }
  intros Hd. destruct (Hcell d cell Hd) as (Hlt & Hy & Hn).
  split; [exact Hy|].
  pose proof (nth_error_In _ _ Hn) as Hin.
  unfold avail, available_letters in Hin. apply filter_In in Hin as [Hin Hun].
  cbn [fst] in Hun. apply negb_true_iff, already_used_not_In in Hun.
  apply enumerate_from_In in Hin as [_ Hin]. rewrite Nat.sub_0_r in Hin.
  split; [exact Hin|]. split; [exact Hun|].
  intros d' cell' Hdd Hd'. destruct (Hcell d' cell' Hd') as (Hlt' & Hy' & Hn').
  split.
  - unfold avail, available_letters, enumerate in Hn, Hn'.
    apply (filter_enumerate_increasing _ _ _ _ _ _ _
             (ltac:(lia) : length avail - S d' < length avail - S d) Hn' Hn).
  - rewrite Hy, Hy'. unfold SUPPLY_CELL_SIZE, SUPPLY_GAP_Y. lia.
Qed.

(** ** A word of thirteen characters *)

Lemma append_rows_13 (ls acc : list str) :
  Forall (fun l => length l <= 13) ls ->
  for_each append_row ls acc = OK (acc ++ map row_of_line ls).
Proof.
  intros Hls. revert acc.
  induction Hls as [|l ls Hl Hls IH]; intros acc; cbn [for_each map].
  - now rewrite app_nil_r.
  - unfold append_row at 1, row_of_line at 1.
    destruct (length l <=? GRID_COLS) eqn:Hfit.
    + apply Nat.leb_le in Hfit. rewrite (center_line_fits l Hfit). cbn [bind].
      rewrite IH, <- app_assoc. reflexivity.
    + apply Nat.leb_gt in Hfit. unfold GRID_COLS in Hfit.
      destruct l as [|c rest]; cbn [length] in *; [lia|].
      rewrite center_line_13 by lia. cbn [bind tl].
      rewrite IH, <- app_assoc. reflexivity.
Qed.

(** X24: when no word of the answer has more than thirteen characters,
    [_build_grid] gives for every line of the wrap its centred row, except
    that a line of thirteen characters gives the row of its last twelve:
    a word of thirteen characters is a line of its own and its first
    character is not in the layout. *)
Theorem build_grid_thirteen (a : str) :
  Forall (fun w => length w <= 13) (split_space a) ->
  exists rows,
    _build_grid a = OK rows
    /\ rows = map row_of_line (build_lines a)
    /\ forall c rest,
         In (c :: rest) (split_space a) -> length rest = 12 ->
         In (c :: rest) (build_lines a) /\ In rest rows.
Proof.
  intros Hall.
  assert (Hlines : Forall (fun l => length l <= 13) (build_lines a)).
  { assert (H : Forall (line_of (split_space a)) (build_lines a)).
    { rewrite build_lines_eq. apply wrap_lines_of; cbn; auto.
      - apply incl_refl.
      - left. unfold fits. simpl. lia. }
    eapply Forall_impl; [|exact H]. intros l [Hl|Hl].
    - unfold fits, GRID_COLS in Hl. lia.
    - rewrite Forall_forall in Hall. now apply Hall. }
  exists (map row_of_line (build_lines a)).
  split; [unfold _build_grid; now rewrite append_rows_13|].
  split; [reflexivity|].
  intros c rest Hin Hlen.
  assert (Hline : In (c :: rest) (build_lines a)).
  { rewrite build_lines_eq. apply wrap_keeps_long; auto.
    cbn [length]. unfold GRID_COLS. lia. }
  split; [exact Hline|].
  apply in_map_iff. exists (c :: rest). split; [|exact Hline].
  unfold row_of_line. cbn [length]. rewrite Hlen. reflexivity.
Qed.

(** ** The further properties on concrete games *)

Lemma supply_tracks_pending_witness :
  letters_only (answer short_quote)
  /\ forall c,
       Permutation
         (map snd (available_letters short_state1 c (nth c (supply short_state1) [])))
         (pending short_state1 c).
Proof.
  split; [vm_compute; repeat constructor|].
  apply (supply_tracks_pending (R := lcg) short_quote 0%Z short_gen short_state0
           short_state1 1).
  - vm_compute. repeat constructor.
  - vm_compute. repeat constructor.
  - vm_compute. reflexivity.
  - vm_compute. reflexivity.
Defined.

Lemma no_supply_mismatch_witness :
  length (used_supply_indices short_state1) = placed_count short_state1
  /\ (placed_count short_state1 < get_total_letters short_state1 ->
      step_found short_state1).
Proof.
  apply (no_supply_mismatch (R := lcg) short_quote 0%Z short_gen short_state0
           short_state1 1).
  - vm_compute. repeat constructor.
  - vm_compute. repeat constructor.
  - vm_compute. reflexivity.
  - vm_compute. reflexivity.
Defined.

Lemma supply_consumed_witness :
  placed_count short_state2 = get_total_letters short_state0
  /\ _draw_supply short_state2 0 0 = [].
Proof.
  apply (supply_consumed (R := lcg) short_quote 0%Z short_gen short_state0
           short_state2 2 0%Z 0%Z).
  - vm_compute. repeat constructor.
  - vm_compute. repeat constructor.
  - vm_compute. reflexivity.
  - vm_compute. lia.
  - vm_compute. reflexivity.
Defined.

Lemma supply_is_rearrangement_witness :
  Permutation (concat (supply comma_state0)) (letters_of (concat (rows comma_state0)))
  /\ length (concat (supply comma_state0)) = length (letter_positions comma_state0)
  /\ (Forall fits (split_space (answer comma_quote)) ->
      Permutation (concat (supply comma_state0))
                  (letters_of (remove_spaces (answer comma_quote)))).
Proof.
  apply (supply_is_rearrangement (R := lcg) comma_quote 0%Z comma_gen comma_state0).
  vm_compute. reflexivity.
Defined.

Lemma run_grows_witness :
  placed_count short_state1 <= placed_count short_state2
                            <= get_total_letters short_state0
  /\ (exists more,
        placed_supply_letters short_state2 = placed_supply_letters short_state1 ++ more)
  /\ (exists more,
        used_supply_indices short_state2 = used_supply_indices short_state1 ++ more)
  /\ (get_total_letters short_state0 <= 1 -> short_state2 = short_state1).
Proof.
  apply (run_grows (R := lcg) short_quote 0%Z short_gen short_state0 short_state1
           short_state2 1 2).
  - vm_compute. reflexivity.
  - lia.
  - vm_compute. reflexivity.
  - vm_compute. reflexivity.
Defined.

Lemma letter_at_after_steps_witness :
  (forall i, nth_error (letter_positions comma_state0) i = Some (0, 6) ->
     get_letter_at_position comma_state2 0 6
     = if i <? 2 then nth_error (remove_spaces (answer comma_quote)) i else None)
  /\ (~ In (0, 6) (letter_positions comma_state0) ->
      get_letter_at_position comma_state2 0 6 = None).
Proof.
  apply (letter_at_after_steps (R := lcg) comma_quote 0%Z comma_gen comma_state0
           comma_state2 2 0 6).
  - vm_compute. reflexivity.
  - vm_compute. reflexivity.
Defined.

Lemma daily_quote_cycle_witness :
  get_daily_quote library (mkDate 2026 3 4) = get_daily_quote library (mkDate 2026 3 1).
Proof.
  apply (daily_quote_cycle library (mkDate 2026 3 1) (mkDate 2026 3 4)).
  - vm_compute. discriminate.
  - vm_compute. discriminate.
  - vm_compute. reflexivity.
Defined.

Lemma puzzle_on_screen_witness :
  (0 <= puzzle_start_y short_state1
   /\ grid_y (_calculate_layout short_state1) + grid_height (_calculate_layout short_state1)
      <= HEIGHT
   /\ 0 <= grid_x (_calculate_layout short_state1)
   /\ grid_x (_calculate_layout short_state1) + grid_width (_calculate_layout short_state1)
      = WIDTH - grid_x (_calculate_layout short_state1)
   /\ supply_bottom_y (_calculate_layout short_state1)
      = puzzle_start_y short_state1 + supply_height short_state1 + 10
   /\ grid_y (_calculate_layout short_state1)
      = supply_bottom_y (_calculate_layout short_state1) + 10
   /\ 0 <= HEIGHT
           - (grid_y (_calculate_layout short_state1)
              + grid_height (_calculate_layout short_state1))
           - puzzle_start_y short_state1 <= 1)%Z.
Proof.
  apply (puzzle_on_screen (R := lcg) short_quote 0%Z short_gen short_state0
           short_state1 1).
  - vm_compute. reflexivity.
  - vm_compute. reflexivity.
  - vm_compute. lia.
Defined.

Lemma supply_cells_in_band_witness :
  exists c column,
    nth_error (supply comma_state0) c = Some column
    /\ nth_error column (sc_index comma_supply_cell) = Some (sc_letter comma_supply_cell)
    /\ ~ In (c, sc_index comma_supply_cell) (used_supply_indices comma_state0)
    /\ (grid_x (_calculate_layout comma_state0) + Z.of_nat c * (CELL_SIZE + GAP)
        <= sc_x comma_supply_cell
        /\ sc_x comma_supply_cell + SUPPLY_CELL_SIZE
           <= grid_x (_calculate_layout comma_state0)
              + Z.of_nat c * (CELL_SIZE + GAP) + CELL_SIZE)%Z
    /\ (puzzle_start_y comma_state0 + 10 <= sc_y comma_supply_cell
        /\ sc_y comma_supply_cell + SUPPLY_CELL_SIZE + SUPPLY_GAP_Y
           <= supply_bottom_y (_calculate_layout comma_state0))%Z.
Proof.
  apply (supply_cells_in_band comma_state0 comma_supply_cell).
  vm_compute. left. reflexivity.
Defined.

Lemma reel_pictures_witness :
  reveal_fade_frames short_reel = 30%Z
  /\ forall j f,
       nth_error (frames short_reel) j = Some f ->
       frame_no f = j
       /\ saved_picture short_reel j f
          = let i := (Z.of_nat j - solve_frames short_reel)%Z in
            if (i <? 0)%Z then Gameplay (shown f)
            else if (i <? 29)%Z
                 then Blend (final_state short_reel)
                        (float_of_nat (Z.to_nat i + 1) / float_of_nat 30)%float
                 else Won (final_state short_reel).
Proof.
  apply (reel_pictures (R := lcg) short_quote None 0%Z short_reel).
  vm_compute. reflexivity.
Defined.

Lemma frames_follow_run_witness :
  exists st0 g,
    GameState_init (R := lcg) short_quote 0%Z = OK (st0, g)
    /\ (forall j f, nth_error (frames short_reel) j = Some f ->
          run (placed_count (shown f)) st0 = OK (shown f))
    /\ (forall j1 j2 f1 f2, j1 <= j2 ->
          nth_error (frames short_reel) j1 = Some f1 ->
          nth_error (frames short_reel) j2 = Some f2 ->
          placed_count (shown f1) <= placed_count (shown f2))
    /\ (forall j f, nth_error (frames short_reel) j = Some f ->
          (solve_frames short_reel <= Z.of_nat j)%Z -> shown f = final_state short_reel).
Proof.
  apply (frames_follow_run (R := lcg) short_quote None 0%Z short_reel).
  vm_compute. reflexivity.
Defined.


Lemma initial_pause_witness :
  exists st0 g,
    GameState_init (R := lcg) short_quote 0%Z = OK (st0, g)
    /\ shown short_frame3 = st0
    /\ placed_count (shown short_frame3) = 0
    /\ used_supply_indices (shown short_frame3) = [].
Proof.
  apply (initial_pause (R := lcg) short_quote None 0%Z short_reel 3 short_frame3).
  - vm_compute. reflexivity.
  - lia.
  - vm_compute. reflexivity.
  - vm_compute. reflexivity.
Defined.

Lemma grid_shows_layout_witness :
  exists r c row ch,
    nth_error (rows short_state0) r = Some row /\ nth_error row c = Some ch
    /\ short_grid_cell = draw_grid_cell short_state1 0 0 r (c, ch)
    /\ ((ch = BLOCK /\ gc_kind short_grid_cell = BlockCell)
        \/ (ch <> BLOCK
            /\ exists i,
                 nth_error (letter_positions short_state0) i = Some (r, c)
                 /\ gc_kind short_grid_cell
                    = LetterCell (if i <? 1 then Some ch else None))).
Proof.
  apply (grid_shows_layout (R := lcg) short_quote 0%Z short_gen short_state0
           short_state1 1 0%Z 0%Z short_grid_cell).
  - vm_compute. repeat constructor.
  - vm_compute. repeat constructor.
  - vm_compute. reflexivity.
  - vm_compute. reflexivity.
  - vm_compute. do 5 right. left. reflexivity.
Defined.

Lemma won_grid_content_witness :
  exists wg,
    _draw_won_grid comma_state2 0 0 = OK wg
    /\ map wt_char (won_texts wg) = filter not_block (concat (rows comma_state2))
    /\ map won_corner (won_texts wg)
       = map grid_corner
           (filter (fun cell => negb (is_block_cell cell)) (_draw_grid comma_state2 0 0))
    /\ (won_mark wg <> None
        <-> answer comma_quote <> strip (text comma_quote)
            /\ letter_positions comma_state2 <> [])
    /\ forall m, won_mark wg = Some m ->
         exists pre before r c row,
           strip (text comma_quote) = pre ++ [tm_char m]
           /\ letter_positions comma_state2 = before ++ [(r, c)]
           /\ nth_error (rows comma_state2) r = Some row
           /\ nth_error row c = Some (tm_letter m)
           /\ is_letter (tm_letter m) = true
           /\ tm_cell_x m = (0 + Z.of_nat c * (CELL_SIZE + GAP))%Z
           /\ tm_cell_y m = (0 + Z.of_nat r * (CELL_SIZE + GAP))%Z.
Proof.
  apply (won_grid_content (R := lcg) comma_quote 0%Z comma_gen comma_state0
           comma_state2 2 0%Z 0%Z).
  - vm_compute. reflexivity.
  - vm_compute. reflexivity.
Defined.

Lemma encode_streams_witness :
  length (audio_inputs (mix demo_encoding)) = assets (host := demo_host)
  /\ length (labels (mix demo_encoding)) = assets (host := demo_host)
  /\ (forall i label,
        nth_error (labels (mix demo_encoding)) i = Some label ->
        exists part,
          nth_error (filter_parts (mix demo_encoding)) i = Some part
          /\ wired i label part)
  /\ stream_map demo_encoding
     = lit "0:v" :: match labels (mix demo_encoding) with
                    | [] => []
                    | [label] => [lit "[" ++ label ++ lit "]"]
                    | _ :: _ :: _ => [lit "[aout]"]
                    end
  /\ ~ In (lit "1:a") (stream_map demo_encoding)
  /\ length (filter_parts (mix demo_encoding))
     = (if 1 <? assets (host := demo_host)
        then assets (host := demo_host) + 1 else assets (host := demo_host))
  /\ (1 < assets (host := demo_host) ->
      nth_error (filter_parts (mix demo_encoding)) (assets (host := demo_host))
      = Some (concat (map (fun label => lit "[" ++ label ++ lit "]")
                          (labels (mix demo_encoding)))
              ++ lit "amix=inputs=" ++ str_of_nat (assets (host := demo_host))
              ++ lit "[aout]"))
  /\ cmd demo_encoding
     = [lit "ffmpeg"; lit "-y"; lit "-framerate"; lit "30";
        lit "-i"; lit "tmp/frames/frame%05d.png"]
       ++ flat_map (fun audio => [lit "-i"; audio]) (audio_inputs (mix demo_encoding))
       ++ (if 0 <? assets (host := demo_host)
           then [lit "-filter_complex";
                 str_join (lit ";") (filter_parts (mix demo_encoding))]
           else [])
       ++ flat_map (fun s => [lit "-map"; s]) (stream_map demo_encoding)
       ++ [lit "-c:v"; lit "libx264"; lit "-preset"; lit "slow";
           lit "-crf"; lit "18"; lit "-pix_fmt"; lit "yuv420p";
           lit "-c:a"; lit "aac"; lit "-b:a"; lit "192k";
           lit "-ar"; lit "48000"; lit "-shortest"; lit "out.mp4"].
Proof.
  apply (encode_streams (host := demo_host) (lit "out.mp4") 8.2%float 2 0.12%float
           0.2%float 6.2%float 6.2%float demo_encoding).
  vm_compute. reflexivity.
Defined.

Lemma supply_cells_count_witness :
  length (_draw_supply comma_state2 0 0) + length (used_supply_indices comma_state2)
  = get_total_letters comma_state0
  /\ (Forall fits (split_space (answer comma_quote)) ->
      letters_only (answer comma_quote) ->
      length (_draw_supply comma_state2 0 0)
      = get_total_letters comma_state0 - placed_count comma_state2).
Proof.
  apply (supply_cells_count (R := lcg) comma_quote 0%Z comma_gen comma_state0
           comma_state2 2 0%Z 0%Z).
  - vm_compute. reflexivity.
  - vm_compute. reflexivity.
Defined.

Lemma supply_stack_witness :
  sc_y stack_cell = (0 - (Z.of_nat 0 + 1) * (SUPPLY_CELL_SIZE + SUPPLY_GAP_Y))%Z
  /\ nth_error (lit "ABC") (sc_index stack_cell) = Some (sc_letter stack_cell)
  /\ ~ In (2, sc_index stack_cell) (used_supply_indices comma_state2)
  /\ forall d' cell',
       0 < d' ->
       nth_error (draw_supply_column comma_state2 0 0 (2, lit "ABC")) d' = Some cell' ->
       sc_index cell' < sc_index stack_cell /\ (sc_y cell' < sc_y stack_cell)%Z.
Proof.
  apply (supply_stack comma_state2 0%Z 0%Z 2 (lit "ABC") 0 stack_cell).
  vm_compute. reflexivity.
Defined.

Lemma build_grid_thirteen_witness :
  exists rows,
    _build_grid thirteen = OK rows
    /\ rows = map row_of_line (build_lines thirteen)
    /\ forall c rest,
         In (c :: rest) (split_space thirteen) -> length rest = 12 ->
         In (c :: rest) (build_lines thirteen) /\ In rest rows.
Proof.
  apply (build_grid_thirteen thirteen).
  vm_compute. repeat constructor.
Defined.
